(** * Tournament scheduler (RCPSP placement loop, live reschedule, validator)

    A shallow embedding of the scheduling core of the repository
    ([scheduleMatches], [rescheduleMatches], [validateSchedule] and the
    helpers they call), followed by the properties proved about it.

    Modelling conventions.
    - A JavaScript [Date] is its millisecond timestamp, an integer [Z]; the
      arithmetic of the source ([getTime() + minutes * 60000]) is done in [Z].
      Durations, rest time and court set-up time are whole minutes.
    - An identity ([string | number]) is the tagged union [Id]; [===] and the
      key equality of [Map]/[Set] are decidable equality on [Id].
    - A [Map] is an association list in insertion order ([Map_set] replaces
      the value of an existing key in place and appends a new key, as the
      JavaScript [Map] does); a [Set] is a duplicate-free list in insertion
      order.
    - [Array.prototype.sort] is a stable sort ([array_sort]).
    - [String.prototype.localeCompare] is a collation supplied by the host;
      it is a parameter of the development ([localeCompare]).
    - [new Date()] reads the wall clock; the reading is the explicit argument
      [now] of [scheduleMatches].
    - The [while] loop may not terminate on every input; it is run with fuel
      and [OutOfFuel] stands for "has not finished yet". *)

From Stdlib Require Import ZArith String Ascii Bool Lia Sorted Permutation List.
From Stdlib Require Import DecimalString Relations.
From Stdlib Require QArith_base.
Import ListNotations.
Local Open Scope Z_scope.

(** ** Identities *)

Inductive Id : Type :=
| IdStr (s : string)
| IdNum (n : Z).

Definition Id_eq_dec (a b : Id) : {a = b} + {a <> b}.
Proof. decide equality; [apply string_dec | apply Z.eq_dec]. Defined.

Definition Id_eqb (a b : Id) : bool := if Id_eq_dec a b then true else false.

(** [String(id)] *)
Definition String_of (x : Id) : string :=
  match x with
  | IdStr s => s
  | IdNum n => NilZero.string_of_int (Z.to_int n)
  end.

(** JavaScript truthiness of a [string | number] value. *)
Definition truthy (x : Id) : bool :=
  match x with
  | IdStr s => negb (String.eqb s EmptyString)
  | IdNum n => negb (n =? 0)
  end.

(** A key of the team-state map: an identity, or [undefined] ([None]) when
    an event was created for a match with fewer than two team identities. *)
Definition TeamKey : Type := option Id.

Definition TeamKey_eq_dec (a b : TeamKey) : {a = b} + {a <> b}.
Proof. decide equality; apply Id_eq_dec. Defined.

(** ** Maps and sets as the source uses them *)

Section JsMap.
Context {K V : Type} (K_eq_dec : forall a b : K, {a = b} + {a <> b}).

Fixpoint Map_get (k : K) (m : list (K * V)) : option V :=
  match m with
  | [] => None
  | (k', v) :: m' => if K_eq_dec k k' then Some v else Map_get k m'
  end.

Fixpoint Map_set (k : K) (v : V) (m : list (K * V)) : list (K * V) :=
  match m with
  | [] => [(k, v)]
  | (k', v') :: m' =>
      if K_eq_dec k k' then (k', v) :: m' else (k', v') :: Map_set k v m'
  end.

Definition Map_has (k : K) (m : list (K * V)) : bool :=
  match Map_get k m with Some _ => true | None => false end.

(** [new Map(entries)] *)
Definition Map_of (entries : list (K * V)) : list (K * V) :=
  fold_left (fun m e => Map_set (fst e) (snd e) m) entries [].
End JsMap.

Definition Set_has (x : Id) (s : list Id) : bool := existsb (Id_eqb x) s.

Definition Set_add (x : Id) (s : list Id) : list Id :=
  if Set_has x s then s else s ++ [x].

(** [new Set(items)] *)
Definition Set_of (items : list Id) : list Id :=
  fold_left (fun s x => Set_add x s) items [].

Definition Set_delete (x : Id) (s : list Id) : list Id :=
  filter (fun y => negb (Id_eqb x y)) s.

(** ** [Array.prototype.sort]: a stable sort by a comparator *)

Section ArraySort.
Context {A : Type} (cmp : A -> A -> Z).

Fixpoint sort_insert (x : A) (l : list A) : list A :=
  match l with
  | [] => [x]
  | y :: l' => if cmp x y <=? 0 then x :: y :: l' else y :: sort_insert x l'
  end.

Definition array_sort (l : list A) : list A := fold_right sort_insert [] l.
End ArraySort.

(** ** Data model *)

Record Team : Type := { team_id : Id; team_name : string }.

Record Court : Type := { court_id : Id; court_name : string }.

(** [Team | string | number] *)
Inductive TeamSlot : Type :=
| SlotTeam (t : Team)
| SlotRef (x : Id).

Record Match : Type := {
  m_id : Id;
  team1 : TeamSlot;
  team2 : TeamSlot;
  round : Z;
  duration : Z;
  dependencies : option (list Id)
}.

Record SchedulerConfig : Type := {
  restTime : Z;
  startTime : option Z;
  courtSetupTime : option Z
}.

Record CompletedScheduledMatch : Type := {
  c_matchId : Id;
  c_courtId : Id;
  actualStartTime : Z;
  actualEndTime : Z;
  c_team1Id : Id;
  c_team2Id : Id
}.

Record RescheduleConfig : Type := {
  base : SchedulerConfig;
  currentTime : Z;
  completedMatches : list CompletedScheduledMatch
}.

Record ScheduledMatch : Type := {
  s_matchId : Id;
  s_courtId : Id;
  s_startTime : Z;
  s_endTime : Z;
  s_round : Z
}.

Record Summary : Type := {
  totalMatches : nat;
  totalDuration : QArith_base.Q;
  courtsUsed : nat;
  endTime : Z
}.

Record ScheduleResult : Type := {
  schedule : list ScheduledMatch;
  summary : Summary
}.

Record TeamState : Type := {
  ts_teamId : TeamKey;
  ts_availableAt : Z;
  ts_currentMatch : option Id
}.

Record CourtState : Type := {
  cs_courtId : Id;
  cs_availableAt : Z;
  cs_currentMatch : option Id
}.

Record MatchTask : Type := {
  task_match : Match;
  remainingDependencies : list Id
}.

Record Event : Type := {
  ev_time : Z;
  ev_matchId : Id;
  ev_courtId : Id;
  ev_team1Id : TeamKey;
  ev_team2Id : TeamKey
}.

Inductive SchedulerError : Type :=
| NoMatches
| NoCourts
| Deadlock
| Incomplete (scheduled total : nat).

Inductive Run (A : Type) : Type :=
| Returned (a : A)
| Threw (e : SchedulerError)
| OutOfFuel.
Arguments Returned {A} a.
Arguments Threw {A} e.
Arguments OutOfFuel {A}.

Definition MS_PER_MINUTE : Z := 60000.

(** [new Date(8640000000000000)], the sentinel "max date". *)
Definition MAX_DATE : Z := 8640000000000000.

Definition is_null {A : Type} (o : option A) : bool :=
  match o with None => true | Some _ => false end.

Definition isEmpty {A : Type} (l : list A) : bool :=
  match l with [] => true | _ :: _ => false end.

(** ** Helpers of the scheduler *)

Definition slotIds (t : TeamSlot) : list Id :=
  match t with
  | SlotTeam tm => [team_id tm]
  | SlotRef x => if truthy x then [x] else []
  end.

Definition getTeamIds (m : Match) : list Id := slotIds (team1 m) ++ slotIds (team2 m).

Definition isTeamAvailable (teamId : Id) (time : Z)
    (teamStates : list (TeamKey * TeamState)) : bool :=
  match Map_get TeamKey_eq_dec (Some teamId) teamStates with
  | None => true
  | Some state => is_null (ts_currentMatch state) && (ts_availableAt state <=? time)
  end.

Definition areTeamsAvailable (m : Match) (time : Z)
    (teamStates : list (TeamKey * TeamState)) : bool :=
  forallb (fun teamId => isTeamAvailable teamId time teamStates) (getTeamIds m).

(** The court is returned as its index in [courtStates] (the source returns a
    reference to the array element), with the time it is available at. *)
Fixpoint findAvailableCourt_from (time : Z) (courtStates : list CourtState) (i : nat)
    (earliestCourt : option (nat * CourtState)) (earliestTime : Z) : option (nat * Z) :=
  match courtStates with
  | [] =>
      match earliestCourt with
      | Some (j, c) => Some (j, cs_availableAt c)
      | None => None
      end
  | court :: rest =>
      if (cs_availableAt court <=? time) && is_null (cs_currentMatch court)
      then Some (i, time)
      else if cs_availableAt court <? earliestTime
      then findAvailableCourt_from time rest (S i) (Some (i, court)) (cs_availableAt court)
      else findAvailableCourt_from time rest (S i) earliestCourt earliestTime
  end.

Definition findAvailableCourt (time : Z) (courtStates : list CourtState) : option (nat * Z) :=
  findAvailableCourt_from time courtStates 0%nat None MAX_DATE.

Definition calculateEarliestStartTime (m : Match) (time : Z)
    (teamStates : list (TeamKey * TeamState)) : Z :=
  fold_left
    (fun earliestStart teamId =>
       match Map_get TeamKey_eq_dec (Some teamId) teamStates with
       | Some state =>
           if ts_availableAt state >? earliestStart then ts_availableAt state
           else earliestStart
       | None => earliestStart
       end)
    (getTeamIds m) time.

Definition ensureTeamState (teamId : TeamKey) (teamStates : list (TeamKey * TeamState))
    (initialTime : Z) : TeamState * list (TeamKey * TeamState) :=
  match Map_get TeamKey_eq_dec teamId teamStates with
  | None =>
      let state := {| ts_teamId := teamId; ts_availableAt := initialTime;
                      ts_currentMatch := None |} in
      (state, Map_set TeamKey_eq_dec teamId state teamStates)
  | Some state => (state, teamStates)
  end.

(** Update of the first element satisfying [p] ([array.find] followed by a
    mutation of the element found). *)
Fixpoint update_first {A : Type} (p : A -> bool) (f : A -> A) (l : list A) : list A :=
  match l with
  | [] => []
  | x :: l' => if p x then f x :: l' else x :: update_first p f l'
  end.

Fixpoint update_nth {A : Type} (i : nat) (f : A -> A) (l : list A) : list A :=
  match l, i with
  | [], _ => []
  | x :: l', O => f x :: l'
  | x :: l', S j => x :: update_nth j f l'
  end.

(** ** The simulation state and its environment

    [scheduleMatches] and [rescheduleMatches] each contain a copy of the same
    [while] loop.  The copies differ in three places only: the initial time
    given to [ensureTeamState] ([startTime] or [currentTime]), the extra
    [currentTime] argument of [Math.max] when the start of a match is
    computed, and the extra candidate [currentTime] when time is advanced.
    The loop is therefore written once, over an environment; [env_floor] is
    [None] for [scheduleMatches] and [Some currentTime] for
    [rescheduleMatches]. *)

Record LoopEnv : Type := {
  env_restTime : Z;
  env_courtSetupTime : Z;
  env_initialTime : Z;
  env_floor : option Z;
  env_dependents : list (Id * list Id)
}.

Record SimState : Type := {
  st_schedule : list ScheduledMatch;
  st_teamStates : list (TeamKey * TeamState);
  st_courtStates : list CourtState;
  st_matchMap : list (Id * MatchTask);
  st_queue : list MatchTask;
  st_events : list Event;
  st_time : Z
}.

Inductive StepResult : Type :=
| Continue (st : SimState)
| Break (st : SimState)
| Fail (e : SchedulerError).

Definition compareEvents (a b : Event) : Z := ev_time a - ev_time b.

Definition compareStart (a b : ScheduledMatch) : Z := s_startTime a - s_startTime b.

Definition depsOf (m : Match) : list Id :=
  match dependencies m with Some d => d | None => [] end.

(** The forward map (match identity to task) and the reverse map (match
    identity to the identities of its dependents). *)
Definition addDependent (matchId : Id) (dependents : list (Id * list Id)) (depId : Id)
    : list (Id * list Id) :=
  let dependents1 :=
    if Map_has Id_eq_dec depId dependents then dependents
    else Map_set Id_eq_dec depId [] dependents in
  match Map_get Id_eq_dec depId dependents1 with
  | Some s => Map_set Id_eq_dec depId (Set_add matchId s) dependents1
  | None => dependents1
  end.

Definition buildGraph (matches : list Match)
    : list (Id * MatchTask) * list (Id * list Id) :=
  fold_left
    (fun acc m =>
       let deps := depsOf m in
       (Map_set Id_eq_dec (m_id m)
          {| task_match := m; remainingDependencies := Set_of deps |} (fst acc),
        fold_left (addDependent (m_id m)) deps (snd acc)))
    matches ([], []).

(** Team states after a match ended at [time]: both teams of the event are
    released and rest until [time + restTime]. *)
Definition releaseTeam (env : LoopEnv) (restEndTime : Z) (teamId : TeamKey)
    (teamStates : list (TeamKey * TeamState)) : list (TeamKey * TeamState) :=
  let '(state, teamStates1) := ensureTeamState teamId teamStates (env_initialTime env) in
  Map_set TeamKey_eq_dec teamId
    {| ts_teamId := ts_teamId state; ts_availableAt := restEndTime;
       ts_currentMatch := None |} teamStates1.

Definition occupyTeam (env : LoopEnv) (matchId : Id)
    (teamStates : list (TeamKey * TeamState)) (teamId : Id)
    : list (TeamKey * TeamState) :=
  let '(state, teamStates1) := ensureTeamState (Some teamId) teamStates (env_initialTime env) in
  Map_set TeamKey_eq_dec (Some teamId)
    {| ts_teamId := ts_teamId state; ts_availableAt := ts_availableAt state;
       ts_currentMatch := Some matchId |} teamStates1.

Definition freeCourt (env : LoopEnv) (ev : Event) (courtStates : list CourtState)
    : list CourtState :=
  update_first (fun c => Id_eqb (cs_courtId c) (ev_courtId ev))
    (fun c => {| cs_courtId := cs_courtId c;
                 cs_availableAt := ev_time ev + env_courtSetupTime env * MS_PER_MINUTE;
                 cs_currentMatch := None |})
    courtStates.

(** [task.remainingDependencies.delete(matchId)] *)
Definition satisfy (matchId : Id) (task : MatchTask) : MatchTask :=
  {| task_match := task_match task;
     remainingDependencies := Set_delete matchId (remainingDependencies task) |}.

(** [map.get(key) || new Set()] *)
Definition setAt {A : Type} (key : Id) (m : list (Id * list A)) : list A :=
  match Map_get Id_eq_dec key m with
  | Some s => s
  | None => []
  end.

Definition nextAvailability (now : Z) (nextTime availableAt : Z) : Z :=
  if (availableAt >? now) && (availableAt <? nextTime) then availableAt else nextTime.

Section Scheduler.

(** [a.localeCompare(b)]: negative, zero or positive. *)
Variable localeCompare : string -> string -> Z.

(** *** The ready queue *)

Definition compareTasks (a b : MatchTask) : Z :=
  if negb (round (task_match a) =? round (task_match b))
  then round (task_match a) - round (task_match b)
  else localeCompare (String_of (m_id (task_match a))) (String_of (m_id (task_match b))).

Definition MatchQueue_enqueue (task : MatchTask) (tasks : list MatchTask) : list MatchTask :=
  array_sort compareTasks (tasks ++ [task]).


Definition MatchQueue_peek (tasks : list MatchTask) : option MatchTask := hd_error tasks.

Definition MatchQueue_isEmpty (tasks : list MatchTask) : bool := isEmpty tasks.

Definition MatchQueue_size (tasks : list MatchTask) : nat := length tasks.

Definition MatchQueue_getAll (tasks : list MatchTask) : list MatchTask := tasks.

Fixpoint MatchQueue_remove (matchId : Id) (tasks : list MatchTask) : list MatchTask :=
  match tasks with
  | [] => []
  | t :: rest =>
      if Id_eqb (m_id (task_match t)) matchId then rest
      else t :: MatchQueue_remove matchId rest
  end.

(** *** Event flush *)

Definition unlockDependent (matchId : Id)
    (acc : list (Id * MatchTask) * list MatchTask) (depMatchId : Id)
    : list (Id * MatchTask) * list MatchTask :=
  match Map_get Id_eq_dec depMatchId (fst acc) with
  | Some depTask =>
      let depTask' := satisfy matchId depTask in
      let matchMap' := Map_set Id_eq_dec depMatchId depTask' (fst acc) in
      if Nat.eqb (length (remainingDependencies depTask')) 0
      then (matchMap', MatchQueue_enqueue depTask' (snd acc))
      else (matchMap', snd acc)
  | None => acc
  end.

Definition processEvent (env : LoopEnv) (st : SimState) (ev : Event) : SimState :=
  let courtStates' := freeCourt env ev (st_courtStates st) in
  let restEndTime := ev_time ev + env_restTime env * MS_PER_MINUTE in
  let teamStates1 := releaseTeam env restEndTime (ev_team1Id ev) (st_teamStates st) in
  let teamStates2 := releaseTeam env restEndTime (ev_team2Id ev) teamStates1 in
  let deps := setAt (ev_matchId ev) (env_dependents env) in
  let '(matchMap', queue') :=
    fold_left (unlockDependent (ev_matchId ev)) deps (st_matchMap st, st_queue st) in
  {| st_schedule := st_schedule st;
     st_teamStates := teamStates2;
     st_courtStates := courtStates';
     st_matchMap := matchMap';
     st_queue := queue';
     st_events := st_events st;
     st_time := st_time st |}.

Definition withEvents (st : SimState) (pending : list Event) : SimState :=
  {| st_schedule := st_schedule st; st_teamStates := st_teamStates st;
     st_courtStates := st_courtStates st; st_matchMap := st_matchMap st;
     st_queue := st_queue st; st_events := pending; st_time := st_time st |}.

(** [while (events.length > 0 && events[0].time <= currentTime)] with
    [events.shift()] at the head of its body.  [pending] is the event list
    of [st]; the recursion is on it, since processing an event never adds
    one. *)
Fixpoint flushFrom (env : LoopEnv) (pending : list Event) (st : SimState) : SimState :=
  match pending with
  | [] => st
  | ev :: rest =>
      if ev_time ev <=? st_time st
      then flushFrom env rest (processEvent env (withEvents st rest) ev)
      else st
  end.

Definition flushEvents (env : LoopEnv) (st : SimState) : SimState :=
  flushFrom env (st_events st) st.

(** *** Placement pass *)

Definition actualStart (env : LoopEnv) (courtAvailableAt teamEarliestStart : Z) : Z :=
  match env_floor env with
  | None => Z.max courtAvailableAt teamEarliestStart
  | Some floor => Z.max (Z.max courtAvailableAt teamEarliestStart) floor
  end.

Definition placeMatch (env : LoopEnv) (st : SimState) (task : MatchTask)
    (courtIndex : nat) (actualStartTime : Z) : SimState :=
  let m := task_match task in
  let matchEnd := actualStartTime + duration m * MS_PER_MINUTE in
  let courtId := match nth_error (st_courtStates st) courtIndex with
                 | Some c => cs_courtId c
                 | None => m_id m
                 end in
  let teamIds := getTeamIds m in
  {| st_schedule :=
       st_schedule st ++
         [{| s_matchId := m_id m; s_courtId := courtId;
             s_startTime := actualStartTime; s_endTime := matchEnd;
             s_round := round m |}];
     st_teamStates := fold_left (occupyTeam env (m_id m)) teamIds (st_teamStates st);
     st_courtStates :=
       update_nth courtIndex
         (fun c => {| cs_courtId := cs_courtId c; cs_availableAt := matchEnd;
                      cs_currentMatch := Some (m_id m) |})
         (st_courtStates st);
     st_matchMap := st_matchMap st;
     st_queue := MatchQueue_remove (m_id m) (st_queue st);
     st_events :=
       array_sort compareEvents
         (st_events st ++
            [{| ev_time := matchEnd; ev_matchId := m_id m; ev_courtId := courtId;
                ev_team1Id := nth_error teamIds 0;
                ev_team2Id := nth_error teamIds 1 |}]);
     st_time := st_time st |}.

(** [for (const task of queueSnapshot)]: the first task of the snapshot
    that can start now is placed and the pass stops ([break]). *)
Fixpoint placementPass (env : LoopEnv) (queueSnapshot : list MatchTask) (st : SimState)
    : option SimState :=
  match queueSnapshot with
  | [] => None
  | task :: rest =>
      if negb (areTeamsAvailable (task_match task) (st_time st) (st_teamStates st))
      then placementPass env rest st
      else
        match findAvailableCourt (st_time st) (st_courtStates st) with
        | None => placementPass env rest st
        | Some (courtIndex, courtAvailableAt) =>
            let teamEarliestStart :=
              calculateEarliestStartTime (task_match task) (st_time st) (st_teamStates st) in
            let actualStartTime := actualStart env courtAvailableAt teamEarliestStart in
            if actualStartTime >? st_time st
            then placementPass env rest st
            else Some (placeMatch env st task courtIndex actualStartTime)
        end
  end.

(** *** Time advance *)

Definition nextTimeOf (env : LoopEnv) (st : SimState) : Z :=
  let n1 := fold_left
              (fun nextTime kv => nextAvailability (st_time st) nextTime (ts_availableAt (snd kv)))
              (st_teamStates st) MAX_DATE in
  let n2 := fold_left
              (fun nextTime c => nextAvailability (st_time st) nextTime (cs_availableAt c))
              (st_courtStates st) n1 in
  match env_floor env with
  | None => n2
  | Some floor => nextAvailability (st_time st) n2 floor
  end.

Definition setTime (st : SimState) (t : Z) : SimState :=
  {| st_schedule := st_schedule st; st_teamStates := st_teamStates st;
     st_courtStates := st_courtStates st; st_matchMap := st_matchMap st;
     st_queue := st_queue st; st_events := st_events st; st_time := t |}.

(** One iteration of the main [while] loop. *)
Definition loopBody (env : LoopEnv) (st : SimState) : StepResult :=
  let st1 := flushEvents env st in
  match placementPass env (MatchQueue_getAll (st_queue st1)) st1 with
  | Some st2 => Continue st2
  | None =>
      match st_events st1 with
      | ev :: _ => Continue (setTime st1 (ev_time ev))
      | [] =>
          if negb (MatchQueue_isEmpty (st_queue st1))
          then
            let nextTime := nextTimeOf env st1 in
            if nextTime <? MAX_DATE then Continue (setTime st1 nextTime)
            else Fail Deadlock
          else Break st1
      end
  end.

(** [while (!queue.isEmpty() || events.length > 0)] *)
Fixpoint runLoop (env : LoopEnv) (fuel : nat) (st : SimState) : Run SimState :=
  if negb (MatchQueue_isEmpty (st_queue st)) || negb (isEmpty (st_events st))
  then
    match fuel with
    | O => OutOfFuel
    | S fuel' =>
        match loopBody env st with
        | Continue st' => runLoop env fuel' st'
        | Break st' => Returned st'
        | Fail e => Threw e
        end
    end
  else Returned st.

(** *** [scheduleMatches] *)

Definition initialQueue (matchMap : list (Id * MatchTask)) : list MatchTask :=
  fold_left
    (fun queue kv =>
       if Nat.eqb (length (remainingDependencies (snd kv))) 0
       then MatchQueue_enqueue (snd kv) queue
       else queue)
    matchMap [].

Definition latestEnd (sched : list ScheduledMatch) (init : Z) : Z :=
  fold_left (fun max s => if s_endTime s >? max then s_endTime s else max) sched init.

Definition summarize (all returned : list ScheduledMatch) (origin floor : Z) : Summary :=
  let finish := latestEnd all floor in
  {| totalMatches := length returned;
     totalDuration := QArith_base.Qmake (finish - origin) 60000;
     courtsUsed := length (Set_of (map s_courtId returned));
     endTime := finish |}.

Definition scheduleEnv (config : SchedulerConfig) (start : Z)
    (dependents : list (Id * list Id)) : LoopEnv :=
  {| env_restTime := restTime config;
     env_courtSetupTime := match courtSetupTime config with Some t => t | None => 0 end;
     env_initialTime := start;
     env_floor := None;
     env_dependents := dependents |}.

Definition scheduleInit (matches : list Match) (courts : list Court) (start : Z) : SimState :=
  let matchMap := fst (buildGraph matches) in
  {| st_schedule := [];
     st_teamStates := [];
     st_courtStates :=
       map (fun court => {| cs_courtId := court_id court; cs_availableAt := start;
                            cs_currentMatch := None |}) courts;
     st_matchMap := matchMap;
     st_queue := initialQueue matchMap;
     st_events := [];
     st_time := start |}.

Definition scheduleMatches (fuel : nat) (now : Z) (matches : list Match)
    (courts : list Court) (config : SchedulerConfig) : Run ScheduleResult :=
  if Nat.eqb (length matches) 0 then Threw NoMatches
  else if Nat.eqb (length courts) 0 then Threw NoCourts
  else
    let start := match startTime config with Some t => t | None => now end in
    let env := scheduleEnv config start (snd (buildGraph matches)) in
    match runLoop env fuel (scheduleInit matches courts start) with
    | OutOfFuel => OutOfFuel
    | Threw e => Threw e
    | Returned st =>
        let sched := st_schedule st in
        if negb (Nat.eqb (length sched) (length matches))
        then Threw (Incomplete (length sched) (length matches))
        else
          Returned {| schedule := array_sort compareStart sched;
                      summary := summarize sched sched start start |}
    end.

(** *** [rescheduleMatches] *)

Definition completedIds (config : RescheduleConfig) : list Id :=
  Set_of (map c_matchId (completedMatches config)).

Definition isPending (config : RescheduleConfig) (matchId : Id) : bool :=
  negb (Set_has matchId (completedIds config)).

Definition completedEntry (matches : list Match) (completed : CompletedScheduledMatch)
    : ScheduledMatch :=
  {| s_matchId := c_matchId completed;
     s_courtId := c_courtId completed;
     s_startTime := actualStartTime completed;
     s_endTime := actualEndTime completed;
     s_round := match find (fun m => Id_eqb (m_id m) (c_matchId completed)) matches with
                | Some m => round m
                | None => 0
                end |}.

(** Painting: a completed match pushes the availability of its court and of
    its two teams forward; availability never moves backwards. *)
Definition paintTeam (restEnd : Z) (now : Z) (teamId : Id)
    (teamStates : list (TeamKey * TeamState)) : list (TeamKey * TeamState) :=
  let '(state, teamStates1) := ensureTeamState (Some teamId) teamStates now in
  if restEnd >? ts_availableAt state
  then Map_set TeamKey_eq_dec (Some teamId)
         {| ts_teamId := ts_teamId state; ts_availableAt := restEnd;
            ts_currentMatch := ts_currentMatch state |} teamStates1
  else teamStates1.

Definition paintCompleted (restMinutes setupMinutes now : Z)
    (acc : list (TeamKey * TeamState) * list CourtState)
    (completed : CompletedScheduledMatch)
    : list (TeamKey * TeamState) * list CourtState :=
  let courtAvailableAt := actualEndTime completed + setupMinutes * MS_PER_MINUTE in
  let courtStates' :=
    update_first (fun c => Id_eqb (cs_courtId c) (c_courtId completed))
      (fun c => if courtAvailableAt >? cs_availableAt c
                then {| cs_courtId := cs_courtId c; cs_availableAt := courtAvailableAt;
                        cs_currentMatch := cs_currentMatch c |}
                else c)
      (snd acc) in
  let restEnd := actualEndTime completed + restMinutes * MS_PER_MINUTE in
  let teamStates1 := paintTeam restEnd now (c_team1Id completed) (fst acc) in
  let teamStates2 := paintTeam restEnd now (c_team2Id completed) teamStates1 in
  (teamStates2, courtStates').

(** The pending tasks whose every dependency is already completed enter the
    queue with their dependency set cleared. *)
Definition rescheduleSeed (done : list Id)
    (acc : list (Id * MatchTask) * list MatchTask) (kv : Id * MatchTask)
    : list (Id * MatchTask) * list MatchTask :=
  if forallb (fun depId => Set_has depId done) (remainingDependencies (snd kv))
  then
    let task := {| task_match := task_match (snd kv); remainingDependencies := [] |} in
    (Map_set Id_eq_dec (fst kv) task (fst acc), MatchQueue_enqueue task (snd acc))
  else acc.

Definition rescheduleEnv (config : RescheduleConfig) (dependents : list (Id * list Id))
    : LoopEnv :=
  {| env_restTime := restTime (base config);
     env_courtSetupTime :=
       match courtSetupTime (base config) with Some t => t | None => 0 end;
     env_initialTime := currentTime config;
     env_floor := Some (currentTime config);
     env_dependents := dependents |}.

Definition rescheduleInit (matches : list Match) (courts : list Court)
    (config : RescheduleConfig) : SimState :=
  let now := currentTime config in
  let setup := match courtSetupTime (base config) with Some t => t | None => 0 end in
  let origin := match startTime (base config) with Some t => t | None => now end in
  let pendingMatches := filter (fun m => isPending config (m_id m)) matches in
  let courtStates0 :=
    map (fun court => {| cs_courtId := court_id court; cs_availableAt := origin;
                         cs_currentMatch := None |}) courts in
  let painted :=
    fold_left (paintCompleted (restTime (base config)) setup now)
      (completedMatches config) ([], courtStates0) in
  let matchMap0 := fst (buildGraph pendingMatches) in
  let seeded := fold_left (rescheduleSeed (completedIds config)) matchMap0 (matchMap0, []) in
  {| st_schedule := map (completedEntry matches) (completedMatches config);
     st_teamStates := fst painted;
     st_courtStates := snd painted;
     st_matchMap := fst seeded;
     st_queue := snd seeded;
     st_events := [];
     st_time := now |}.

Definition rescheduleMatches (fuel : nat) (matches : list Match)
    (courts : list Court) (config : RescheduleConfig) : Run ScheduleResult :=
  if Nat.eqb (length matches) 0 then Threw NoMatches
  else if Nat.eqb (length courts) 0 then Threw NoCourts
  else
    let now := currentTime config in
    let origin := match startTime (base config) with Some t => t | None => now end in
    let pendingMatches := filter (fun m => isPending config (m_id m)) matches in
    let env := rescheduleEnv config (snd (buildGraph pendingMatches)) in
    match runLoop env fuel (rescheduleInit matches courts config) with
    | OutOfFuel => OutOfFuel
    | Threw e => Threw e
    | Returned st =>
        let sched := st_schedule st in
        let scheduledPendingCount :=
          length (filter (fun s => isPending config (s_matchId s)) sched) in
        if negb (Nat.eqb scheduledPendingCount (length pendingMatches))
        then Threw (Incomplete scheduledPendingCount (length pendingMatches))
        else
          let futureSchedule := filter (fun s => isPending config (s_matchId s)) sched in
          Returned {| schedule := array_sort compareStart futureSchedule;
                      summary := summarize sched futureSchedule origin now |}
    end.

End Scheduler.

(** ** [validateSchedule] *)

Record Occupancy : Type := { o_start : Z; o_end : Z; o_matchId : Id }.

(** The four kinds of message pushed on [errors]; each constructor carries
    the values interpolated in the message. *)
Inductive ValidationError : Type :=
| TeamOverlap (teamId matchId otherId : Id)
| InsufficientRest (teamId prevId currId : Id) (gapMs : Z)
| DependencyNotScheduled (matchId depId : Id)
| DependencyTooEarly (matchId depId : Id) (start depEnd : Z).

Record ValidationReport : Type := { valid : bool; errors : list ValidationError }.

(** [new Map(matches.map(m => [m.id, m]))] *)
Definition matchIndex (matches : list Match) : list (Id * Match) :=
  Map_of Id_eq_dec (map (fun m => (m_id m, m)) matches).

Definition matchOf (matches : list Match) (matchId : Id) : option Match :=
  Map_get Id_eq_dec matchId (matchIndex matches).

Definition scheduleIndex (sched : list ScheduledMatch) : list (Id * ScheduledMatch) :=
  Map_of Id_eq_dec (map (fun s => (s_matchId s, s)) sched).

Definition overlaps (s : ScheduledMatch) (other : Occupancy) : bool :=
  ((s_startTime s >=? o_start other) && (s_startTime s <? o_end other))
  || ((s_endTime s >? o_start other) && (s_endTime s <=? o_end other))
  || ((s_startTime s <=? o_start other) && (s_endTime s >=? o_end other)).

Definition occupancyOf (s : ScheduledMatch) : Occupancy :=
  {| o_start := s_startTime s; o_end := s_endTime s; o_matchId := s_matchId s |}.

Definition checkTeam (scheduled : ScheduledMatch)
    (acc : list (Id * list Occupancy) * list ValidationError) (teamId : Id)
    : list (Id * list Occupancy) * list ValidationError :=
  let teamOccupancy :=
    if Map_has Id_eq_dec teamId (fst acc) then fst acc
    else Map_set Id_eq_dec teamId [] (fst acc) in
  let occupancy := match Map_get Id_eq_dec teamId teamOccupancy with
                   | Some o => o
                   | None => []
                   end in
  (Map_set Id_eq_dec teamId (occupancy ++ [occupancyOf scheduled]) teamOccupancy,
   snd acc ++
     map (fun other => TeamOverlap teamId (s_matchId scheduled) (o_matchId other))
       (filter (overlaps scheduled) occupancy)).

Definition checkScheduled (matches : list Match)
    (acc : list (Id * list Occupancy) * list ValidationError) (scheduled : ScheduledMatch)
    : list (Id * list Occupancy) * list ValidationError :=
  match matchOf matches (s_matchId scheduled) with
  | None => acc
  | Some m => fold_left (checkTeam scheduled) (getTeamIds m) acc
  end.

Definition compareOccupancy (a b : Occupancy) : Z := o_start a - o_start b.

Fixpoint restErrors (restMinutes : Z) (teamId : Id) (sorted : list Occupancy)
    : list ValidationError :=
  match sorted with
  | [] => []
  | prev :: rest =>
      match rest with
      | [] => []
      | curr :: _ =>
          (if o_start curr - o_end prev <? restMinutes * MS_PER_MINUTE
           then [InsufficientRest teamId (o_matchId prev) (o_matchId curr)
                   (o_start curr - o_end prev)]
           else [])
          ++ restErrors restMinutes teamId rest
      end
  end.

Definition depError (scheduleMap : list (Id * ScheduledMatch)) (m : Match)
    (scheduled : ScheduledMatch) (depId : Id) : list ValidationError :=
  match Map_get Id_eq_dec depId scheduleMap with
  | None => [DependencyNotScheduled (m_id m) depId]
  | Some depScheduled =>
      if s_startTime scheduled <? s_endTime depScheduled
      then [DependencyTooEarly (m_id m) depId (s_startTime scheduled) (s_endTime depScheduled)]
      else []
  end.

Definition depErrors (scheduleMap : list (Id * ScheduledMatch)) (m : Match)
    : list ValidationError :=
  match Map_get Id_eq_dec (m_id m) scheduleMap with
  | None => []
  | Some scheduled => flat_map (depError scheduleMap m scheduled) (depsOf m)
  end.

Definition validateSchedule (sched : list ScheduledMatch) (matches : list Match)
    (config : SchedulerConfig) : ValidationReport :=
  let check1 := fold_left (checkScheduled matches) sched ([], []) in
  let check2 :=
    flat_map
      (fun kv => restErrors (restTime config) (fst kv) (array_sort compareOccupancy (snd kv)))
      (fst check1) in
  let check3 := flat_map (depErrors (scheduleIndex sched)) matches in
  let errs := snd check1 ++ check2 ++ check3 in
  {| valid := Nat.eqb (length errs) 0; errors := errs |}.

(** ** Vocabulary of the properties *)

(** The team identities of a scheduled entry, found through the match list
    as [validateSchedule] does. *)
Definition teamsOf (matches : list Match) (s : ScheduledMatch) : list Id :=
  match matchOf matches (s_matchId s) with
  | Some m => getTeamIds m
  | None => []
  end.

Definition involves (matches : list Match) (team : Id) (s : ScheduledMatch) : bool :=
  existsb (Id_eqb team) (teamsOf matches s).



(** The half-open intervals [[start, end)] of two entries share an instant. *)
Definition intervalsOverlap (a b : ScheduledMatch) : Prop :=
  exists x, s_startTime a <= x < s_endTime a /\ s_startTime b <= x < s_endTime b.

Definition occupancyOverlap (s : ScheduledMatch) (o : Occupancy) : Prop :=
  exists x, s_startTime s <= x < s_endTime s /\ o_start o <= x < o_end o.

Definition isFeasibilityError (e : SchedulerError) : Prop :=
  match e with
  | Deadlock | Incomplete _ _ => True
  | NoMatches | NoCourts => False
  end.

(** A code-unit lexicographic collation, one possible [localeCompare]. *)
Definition lexCompare (a b : string) : Z :=
  match String.compare a b with
  | Lt => -1
  | Eq => 0
  | Gt => 1
  end.

(** ** The loop as a transition system

    One iteration of the loop is a sequence of elementary transitions: the
    events that are due fire one by one, then either a ready match is placed
    or time moves forward.  The properties of the schedule are invariants of
    these transitions. *)

(** Every due event has fired: the head of the pending events is later than
    the current time. *)
Definition flushed (st : SimState) : Prop :=
  match st_events st with
  | ev :: _ => st_time st < ev_time ev
  | [] => True
  end.

Section Steps.
Variable localeCompare : string -> string -> Z.
Variable env : LoopEnv.

Inductive Step : SimState -> SimState -> Prop :=
| StepFire (st : SimState) (ev : Event) (rest : list Event) :
    st_events st = ev :: rest ->
    ev_time ev <= st_time st ->
    Step st (processEvent localeCompare env (withEvents st rest) ev)
| StepPlace (st : SimState) (task : MatchTask) (courtIndex : nat) (courtAvailableAt : Z) :
    flushed st ->
    In task (st_queue st) ->
    areTeamsAvailable (task_match task) (st_time st) (st_teamStates st) = true ->
    findAvailableCourt (st_time st) (st_courtStates st) = Some (courtIndex, courtAvailableAt) ->
    actualStart env courtAvailableAt
      (calculateEarliestStartTime (task_match task) (st_time st) (st_teamStates st))
      <= st_time st ->
    Step st
      (placeMatch env st task courtIndex
         (actualStart env courtAvailableAt
            (calculateEarliestStartTime (task_match task) (st_time st) (st_teamStates st))))
| StepAdvance (st : SimState) (t : Z) :
    flushed st ->
    st_time st < t ->
    Step st (setTime st t).

Inductive Reachable (st0 : SimState) : SimState -> Prop :=
| ReachHere : Reachable st0 st0
| ReachStep (st st' : SimState) : Reachable st0 st -> Step st st' -> Reachable st0 st'.
End Steps.

(** The order of the ready queue: a lower round first and, within a round,
    the identities in the order of the collation. *)
Definition taskBefore (localeCompare : string -> string -> Z) (a b : MatchTask) : Prop :=
  round (task_match a) < round (task_match b)
  \/ (round (task_match a) = round (task_match b)
      /\ localeCompare (String_of (m_id (task_match a))) (String_of (m_id (task_match b))) <= 0).


Definition startOf (config : SchedulerConfig) (now : Z) : Z :=
  match startTime config with Some t => t | None => now end.

(** ** Invariants of the placement loop: teams *)

Fixpoint lastOf {A : Type} (l : list A) : option A :=
  match l with
  | [] => None
  | x :: l' => match l' with [] => Some x | _ :: _ => lastOf l' end
  end.

Definition eventInvolves (team : Id) (ev : Event) : bool :=
  match ev_team1Id ev with Some t => Id_eqb team t | None => false end
  || match ev_team2Id ev with Some t => Id_eqb team t | None => false end.

Definition pendingFor (team : Id) (pending : list Event) : nat :=
  length (filter (eventInvolves team) pending).

(** The state of one team agrees with the matches placed for it: a team with
    no state has played nothing; an idle team has no pending end event, all
    its matches are over and it rests since the end of the last one; a busy
    team has exactly one pending end event, that of its last match. *)
Definition TeamOk (matches : list Match) (restMs : Z) (st : SimState) (team : Id) : Prop :=
  let mine := filter (involves matches team) (st_schedule st) in
  match Map_get TeamKey_eq_dec (Some team) (st_teamStates st) with
  | None => mine = [] /\ pendingFor team (st_events st) = 0%nat
  | Some state =>
      match ts_currentMatch state with
      | None =>
          pendingFor team (st_events st) = 0%nat
          /\ (forall s, In s mine -> s_endTime s <= st_time st)
          /\ (forall s, lastOf mine = Some s -> ts_availableAt state = s_endTime s + restMs)
      | Some _ =>
          pendingFor team (st_events st) = 1%nat
          /\ exists s, lastOf mine = Some s
               /\ (forall ev, In ev (st_events st) -> eventInvolves team ev = true ->
                     ev_time ev = s_endTime s)
               /\ (forall s', In s' (removelast mine) -> s_endTime s' <= st_time st)
      end
  end.

(** Every task of the map, and so of the queue, wraps the match that the
    match list gives for its identity. *)
Definition MatchMapOk (matches : list Match) (st : SimState) : Prop :=
  forall matchId task, Map_get Id_eq_dec matchId (st_matchMap st) = Some task ->
    matchOf matches matchId = Some (task_match task) /\ m_id (task_match task) = matchId.

Definition QueueOk (matches : list Match) (st : SimState) : Prop :=
  forall task, In task (st_queue st) ->
    matchOf matches (m_id (task_match task)) = Some (task_match task).

Definition restedAfter (restMs : Z) (prev next : ScheduledMatch) : Prop :=
  s_endTime prev + restMs <= s_startTime next.

Definition apartFor (matches : list Match) (a b : ScheduledMatch) : Prop :=
  forall team, involves matches team a = true -> involves matches team b = true ->
    s_endTime a <= s_startTime b.

Record TeamInv (matches : list Match) (restMs : Z) (st : SimState) : Prop := {
  inv_matchMap : MatchMapOk matches st;
  inv_queue : QueueOk matches st;
  inv_team : forall team, TeamOk matches restMs st team;
  inv_rest : forall team,
      Sorted (restedAfter restMs) (filter (involves matches team) (st_schedule st));
  inv_apart : StronglySorted (apartFor matches) (st_schedule st);
  inv_started : forall s, In s (st_schedule st) -> s_startTime s <= st_time st;
  inv_ordered : Sorted (fun a b => compareStart a b <= 0) (st_schedule st)
}.

Definition restMsOf (env : LoopEnv) : Z := env_restTime env * MS_PER_MINUTE.

(** [MatchMapOk] and [QueueOk] on the pair threaded through the unlocking
    of dependents. *)
Definition GraphOk (matches : list Match)
    (acc : list (Id * MatchTask) * list MatchTask) : Prop :=
  (forall matchId task, Map_get Id_eq_dec matchId (fst acc) = Some task ->
     matchOf matches matchId = Some (task_match task) /\ m_id (task_match task) = matchId)
  /\ (forall task, In task (snd acc) ->
        matchOf matches (m_id (task_match task)) = Some (task_match task)).

(** The entry and the end event that placing [task] at the current time
    creates. *)
Definition entryOf (st : SimState) (task : MatchTask) (courtIndex : nat) : ScheduledMatch :=
  {| s_matchId := m_id (task_match task);
     s_courtId := match nth_error (st_courtStates st) courtIndex with
                  | Some c => cs_courtId c
                  | None => m_id (task_match task)
                  end;
     s_startTime := st_time st;
     s_endTime := st_time st + duration (task_match task) * MS_PER_MINUTE;
     s_round := round (task_match task) |}.

Definition endEventOf (st : SimState) (task : MatchTask) (courtIndex : nat) : Event :=
  {| ev_time := st_time st + duration (task_match task) * MS_PER_MINUTE;
     ev_matchId := m_id (task_match task);
     ev_courtId := match nth_error (st_courtStates st) courtIndex with
                   | Some c => cs_courtId c
                   | None => m_id (task_match task)
                   end;
     ev_team1Id := nth_error (getTeamIds (task_match task)) 0;
     ev_team2Id := nth_error (getTeamIds (task_match task)) 1 |}.

(** ** Invariants of the placement loop: dependencies *)

Definition taskId (t : MatchTask) : Id := m_id (task_match t).

Definition dependentsOf (env : LoopEnv) (e : Id) : list Id := setAt e (env_dependents env).

(** The reverse map lists, once each, the matches that declare [e]. *)
Definition DependentsOk (matches : list Match) (env : LoopEnv) : Prop :=
  forall e,
    NoDup (dependentsOf env e)
    /\ forall X, In X (dependentsOf env e)
         <-> exists m, In m matches /\ m_id m = X /\ In e (depsOf m).

(** A match has fired when it was placed and its end event was processed. *)
Definition fired (st : SimState) (e : Id) : Prop :=
  In e (map s_matchId (st_schedule st)) /\ ~ In e (map ev_matchId (st_events st)).

Record DepInv (matches : list Match) (st : SimState) : Prop := {
  dep_placed_nodup : NoDup (map s_matchId (st_schedule st));
  dep_placed_known :
    forall X, In X (map s_matchId (st_schedule st)) -> In X (map m_id matches);
  dep_events_nodup : NoDup (map ev_matchId (st_events st));
  dep_events_placed :
    forall ev, In ev (st_events st) ->
      exists s, In s (st_schedule st) /\ s_matchId s = ev_matchId ev
                /\ s_endTime s = ev_time ev;
  dep_fired_over :
    forall s, In s (st_schedule st) ->
      In (s_matchId s) (map ev_matchId (st_events st)) \/ s_endTime s <= st_time st;
  dep_remaining :
    forall X task, Map_get Id_eq_dec X (st_matchMap st) = Some task ->
      forall e, In e (remainingDependencies task)
                <-> In e (depsOf (task_match task)) /\ ~ fired st e;
  dep_queue_nodup : NoDup (map taskId (st_queue st));
  dep_queue_unplaced :
    forall X, In X (map taskId (st_queue st)) -> ~ In X (map s_matchId (st_schedule st));
  dep_ready :
    forall X task, Map_get Id_eq_dec X (st_matchMap st) = Some task ->
      In X (map taskId (st_queue st)) \/ In X (map s_matchId (st_schedule st)) ->
      remainingDependencies task = [];
  dep_queue_mapped :
    forall t, In t (st_queue st) ->
      exists task, Map_get Id_eq_dec (taskId t) (st_matchMap st) = Some task;
  dep_done :
    forall s m d, In s (st_schedule st) -> matchOf matches (s_matchId s) = Some m ->
      In d (depsOf m) ->
      exists sd, In sd (st_schedule st) /\ s_matchId sd = d
                 /\ s_endTime sd <= s_startTime s
}.

(** After match [e] has fired, the dependent [X] has no dependency left. *)
Definition readyAfter (e : Id) (mm : list (Id * MatchTask)) (X : Id) : bool :=
  match Map_get Id_eq_dec X mm with
  | Some t => Nat.eqb (length (remainingDependencies (satisfy e t))) 0
  | None => false
  end.

(** ** Termination measure of the loop *)



(** ** Vocabulary of the validator's report *)

(** The occupancy of a team: one slot per scheduled entry and per mention of
    the team in the match of the entry, in schedule order. *)
Definition teamSlots (matches : list Match) (team : Id) (sched : list ScheduledMatch)
    : list Occupancy :=
  flat_map
    (fun s => map (fun _ => occupancyOf s) (filter (Id_eqb team) (teamsOf matches s)))
    sched.

Definition overlapError (team : Id) (s : ScheduledMatch) (other : Occupancy) : ValidationError :=
  TeamOverlap team (s_matchId s) (o_matchId other).

(** ** Sample inputs *)

Definition teamRef (name : string) : TeamSlot := SlotRef (IdStr name).

Definition sampleMatch (matchId team1Name team2Name : string) (matchRound minutes : Z)
    (deps : option (list Id)) : Match :=
  {| m_id := IdStr matchId; team1 := teamRef team1Name; team2 := teamRef team2Name;
     round := matchRound; duration := minutes; dependencies := deps |}.

Definition sampleCourt (name : string) : Court :=
  {| court_id := IdStr name; court_name := name |}.

Definition oneCourt : list Court := [sampleCourt "C1"%string].

Definition twoCourts : list Court := [sampleCourt "C1"%string; sampleCourt "C2"%string].

(** A configuration with the start time given (timestamp 0). *)
Definition startAtZero (restMinutes : Z) : SchedulerConfig :=
  {| restTime := restMinutes; startTime := Some 0; courtSetupTime := None |}.


(** Two first-round matches and a final between two of their teams. *)
Definition bracket : list Match :=
  [sampleMatch "M1" "A" "B" 1 30 None;
   sampleMatch "M2" "C" "D" 1 30 None;
   sampleMatch "M3" "A" "C" 2 30 (Some [IdStr "M1"%string; IdStr "M2"%string])].

(** A match that depends on an identity carried by no match. *)
Definition danglingInput : list Match :=
  [sampleMatch "M1" "Winner M999" "B" 1 30 (Some [IdStr "M999"%string])].

(** Two matches carry the identity X; the first one declares a dependency on
    Y and on an identity carried by no match. *)
Definition shadowedInput : list Match :=
  [sampleMatch "X" "A" "B" 1 30 (Some [IdStr "ghost"%string; IdStr "Y"%string]);
   sampleMatch "X" "A" "B" 1 30 None;
   sampleMatch "Y" "C" "D" 1 30 None].

(** Both first-round matches of [bracket] are over, M1 three minutes late and
    M2 at 58 minutes; the current time is a little later. *)
Definition liveConfig : RescheduleConfig :=
  {| base := startAtZero 10;
     currentTime := 4000000;
     completedMatches :=
       [{| c_matchId := IdStr "M1"%string; c_courtId := IdStr "C1"%string;
           actualStartTime := 0; actualEndTime := 1980000;
           c_team1Id := IdStr "A"%string; c_team2Id := IdStr "B"%string |};
        {| c_matchId := IdStr "M2"%string; c_courtId := IdStr "C1"%string;
           actualStartTime := 1980000; actualEndTime := 3480000;
           c_team1Id := IdStr "C"%string; c_team2Id := IdStr "D"%string |}] |}.

Definition noResult : ScheduleResult :=
  {| schedule := [];
     summary := {| totalMatches := 0; totalDuration := QArith_base.Qmake 0 1;
                   courtsUsed := 0; endTime := 0 |} |}.

Definition resultOf (outcome : Run ScheduleResult) : ScheduleResult :=
  match outcome with
  | Returned r => r
  | Threw _ | OutOfFuel => noResult
  end.

Definition bracketResult : ScheduleResult :=
  Eval vm_compute in
    resultOf (scheduleMatches lexCompare 20 0 bracket twoCourts (startAtZero 15)).

Definition liveResult : ScheduleResult :=
  Eval vm_compute in resultOf (rescheduleMatches lexCompare 20 bracket oneCourt liveConfig).

Definition shadowedResult : ScheduleResult :=
  Eval vm_compute in
    resultOf (scheduleMatches lexCompare 20 0 shadowedInput twoCourts (startAtZero 0)).


Definition sampleTask (matchId : string) (matchRound : Z) : MatchTask :=
  {| task_match := sampleMatch matchId "A" "B" matchRound 30 None;
     remainingDependencies := [] |}.

(** The identity, court, start and end of every entry of an outcome. *)
Definition slotsOf (outcome : Run ScheduleResult) : Run (list (Id * Id * Z * Z)) :=
  match outcome with
  | Returned r =>
      Returned (map (fun s => (s_matchId s, s_courtId s, s_startTime s, s_endTime s))
                  (schedule r))
  | Threw e => Threw e
  | OutOfFuel => OutOfFuel
  end.

(** Two independent first-round matches (scenarios A and B). *)
Definition firstRound : list Match :=
  [sampleMatch "M1" "A" "B" 1 30 None; sampleMatch "M2" "C" "D" 1 30 None].

(** Team A plays twice (scenario C). *)
Definition backToBack : list Match :=
  [sampleMatch "M1" "A" "B" 1 30 None; sampleMatch "M2" "A" "C" 1 30 None].

(** A knockout with placeholders (scenario D). *)
Definition knockout : list Match :=
  [sampleMatch "M1" "A" "B" 1 30 None;
   sampleMatch "M2" "C" "D" 1 30 None;
   sampleMatch "M3" "Winner M1" "Winner M2" 2 45
     (Some [IdStr "M1"%string; IdStr "M2"%string])].

(** Only M1 of [knockout] is over (two minutes late); M2 is still pending. *)
Definition halfwayConfig : RescheduleConfig :=
  {| base := startAtZero 15;
     currentTime := 2100000;
     completedMatches :=
       [{| c_matchId := IdStr "M1"%string; c_courtId := IdStr "C1"%string;
           actualStartTime := 0; actualEndTime := 1920000;
           c_team1Id := IdStr "A"%string; c_team2Id := IdStr "B"%string |}] |}.

(** A hand-made schedule of [backToBack] in which team A plays two matches
    at once. *)
Definition clashingSchedule : list ScheduledMatch :=
  [{| s_matchId := IdStr "M1"%string; s_courtId := IdStr "C1"%string;
      s_startTime := 0; s_endTime := 1800000; s_round := 1 |};
   {| s_matchId := IdStr "M2"%string; s_courtId := IdStr "C2"%string;
      s_startTime := 600000; s_endTime := 2400000; s_round := 1 |}].

(** ** Vocabulary of the helper functions *)

(** A court can take a match at [time]: it is idle and its set-up is over. *)
Definition courtFree (time : Z) (c : CourtState) : bool :=
  (cs_availableAt c <=? time) && is_null (cs_currentMatch c).

(** [array.findIndex(p)], with [None] for -1. *)
Fixpoint findIndex {A : Type} (p : A -> bool) (l : list A) : option nat :=
  match l with
  | [] => None
  | x :: l' => if p x then Some 0%nat else option_map S (findIndex p l')
  end.

(** [array.splice(index, 1)]: the array without the element at [index]. *)
Fixpoint splice1 {A : Type} (index : nat) (l : list A) : list A :=
  match l, index with
  | [], _ => []
  | _ :: l', O => l'
  | x :: l', S i => x :: splice1 i l'
  end.

(** [MatchQueue.remove] with the boolean it returns. *)
Definition MatchQueue_removeResult (matchId : Id) (tasks : list MatchTask)
    : bool * list MatchTask :=
  match findIndex (fun t => Id_eqb (m_id (task_match t)) matchId) tasks with
  | Some index => (true, splice1 index tasks)
  | None => (false, tasks)
  end.

(** The scan of [findAvailableCourt]. *)

(** What the scan has established after the courts [seen]. *)
Definition scanned (time : Z) (seen : list CourtState) (earliestCourt : option (nat * CourtState))
    (earliestTime : Z) : Prop :=
  (forall c, In c seen -> courtFree time c = false /\ earliestTime <= cs_availableAt c)
  /\ match earliestCourt with
     | Some (j, c) =>
         nth_error seen j = Some c /\ earliestTime = cs_availableAt c
         /\ earliestTime < MAX_DATE
         /\ forall k c', (k < j)%nat -> nth_error seen k = Some c' ->
              earliestTime < cs_availableAt c'
     | None => earliestTime = MAX_DATE
     end.

Definition chosen (time : Z) (courtStates : list CourtState) (result : option (nat * Z)) : Prop :=
  match result with
  | Some (i, t) =>
      exists c,
        nth_error courtStates i = Some c
        /\ (forall k c', (k < i)%nat -> nth_error courtStates k = Some c' ->
              courtFree time c' = false)
        /\ ((courtFree time c = true /\ t = time)
            \/ (t = cs_availableAt c /\ t < MAX_DATE
                /\ (forall c', In c' courtStates ->
                      courtFree time c' = false /\ t <= cs_availableAt c')
                /\ forall k c', (k < i)%nat -> nth_error courtStates k = Some c' ->
                     t < cs_availableAt c'))
  | None =>
      forall c, In c courtStates -> courtFree time c = false /\ MAX_DATE <= cs_availableAt c
  end.


(** ** Shape of the placed entries *)

(** [pendingMatches] of [rescheduleMatches]. *)
Definition pendingOf (config : RescheduleConfig) (matches : list Match) : list Match :=
  filter (fun m => isPending config (m_id m)) matches.

(** An entry placed by the loop: it carries the duration and the round of the
    match of its identity, starts no earlier than [origin] and names one of
    the courts. *)
Definition EntryOk (matches : list Match) (courtIds : list Id) (origin : Z)
    (s : ScheduledMatch) : Prop :=
  exists m,
    matchOf matches (s_matchId s) = Some m
    /\ s_endTime s = s_startTime s + duration m * MS_PER_MINUTE
    /\ s_round s = round m
    /\ origin <= s_startTime s
    /\ In (s_courtId s) courtIds.

Record ShapeInv (matches : list Match) (courtIds : list Id) (origin : Z)
    (initial : list ScheduledMatch) (st : SimState) : Prop := {
  shape_matchMap : MatchMapOk matches st;
  shape_queue : QueueOk matches st;
  shape_courts : map cs_courtId (st_courtStates st) = courtIds;
  shape_time : origin <= st_time st;
  shape_entries :
    exists placed,
      st_schedule st = initial ++ placed /\ Forall (EntryOk matches courtIds origin) placed
}.

(** A task as [rescheduleMatches] enqueues it at the start: its dependency
    set cleared. *)
Definition cleared (task : MatchTask) : MatchTask :=
  {| task_match := task_match task; remainingDependencies := [] |}.

(** The test of [rescheduleMatches] on a pending task: every dependency it
    declares is completed. *)
Definition seedable (done : list Id) (task : MatchTask) : bool :=
  forallb (fun depId => Set_has depId done) (remainingDependencies task).

(** ** The loop does not read the schedule

    The schedule is only appended to; the state without the entries that
    were in the schedule before the loop started goes through the same
    transitions. *)
Definition erase (k : nat) (st : SimState) : SimState :=
  {| st_schedule := skipn k (st_schedule st); st_teamStates := st_teamStates st;
     st_courtStates := st_courtStates st; st_matchMap := st_matchMap st;
     st_queue := st_queue st; st_events := st_events st; st_time := st_time st |}.

(** No team of the map is playing. *)
Definition allIdle (teamStates : list (TeamKey * TeamState)) : Prop :=
  forall key state, Map_get TeamKey_eq_dec key teamStates = Some state ->
    ts_currentMatch state = None.

(** ** Invariants of the placement loop: courts *)

Definition onCourt (courtId : Id) (s : ScheduledMatch) : bool := Id_eqb (s_courtId s) courtId.

Definition eventOn (courtId : Id) (ev : Event) : bool := Id_eqb (ev_courtId ev) courtId.

Definition pendingOn (courtId : Id) (pending : list Event) : nat :=
  length (filter (eventOn courtId) pending).

(** The state of one court agrees with the matches placed on it: an idle
    court has no pending end event, all its matches are over and it has been
    set up since the end of the last one; a busy court has exactly one
    pending end event, that of its last match, and is available when that
    match ends. *)
Definition CourtOk (setupMs : Z) (st : SimState) (c : CourtState) : Prop :=
  let mine := filter (onCourt (cs_courtId c)) (st_schedule st) in
  match cs_currentMatch c with
  | None =>
      pendingOn (cs_courtId c) (st_events st) = 0%nat
      /\ (forall s, In s mine -> s_endTime s <= st_time st)
      /\ (forall s, lastOf mine = Some s -> cs_availableAt c = s_endTime s + setupMs)
  | Some _ =>
      pendingOn (cs_courtId c) (st_events st) = 1%nat
      /\ exists s, lastOf mine = Some s
           /\ cs_availableAt c = s_endTime s
           /\ (forall ev, In ev (st_events st) -> eventOn (cs_courtId c) ev = true ->
                 ev_time ev = s_endTime s)
           /\ (forall s', In s' (removelast mine) -> s_endTime s' <= st_time st)
  end.

Definition sameCourtApart (a b : ScheduledMatch) : Prop :=
  s_courtId a = s_courtId b -> s_endTime a <= s_startTime b.

Record CourtInv (setupMs : Z) (st : SimState) : Prop := {
  court_distinct : NoDup (map cs_courtId (st_courtStates st));
  court_events : StronglySorted (fun a b => ev_time a <= ev_time b) (st_events st);
  court_ok : Forall (CourtOk setupMs st) (st_courtStates st);
  court_setup :
    forall courtId, Sorted (restedAfter setupMs) (filter (onCourt courtId) (st_schedule st));
  court_apart : StronglySorted sameCourtApart (st_schedule st)
}.

Definition setupMsOf (env : LoopEnv) : Z := env_courtSetupTime env * MS_PER_MINUTE.

(** [config.courtSetupTime || 0] *)
Definition setupOf (config : SchedulerConfig) : Z :=
  match courtSetupTime config with Some t => t | None => 0 end.


(** ** What an entry of the validator's report stands for *)

Definition justified (sched : list ScheduledMatch) (matches : list Match)
    (config : SchedulerConfig) (e : ValidationError) : Prop :=
  match e with
  | TeamOverlap team matchId otherId =>
      exists i j s o,
        nth_error sched j = Some s /\ nth_error sched i = Some o
        /\ s_matchId s = matchId /\ s_matchId o = otherId
        /\ In team (teamsOf matches s) /\ In team (teamsOf matches o)
        /\ overlaps s (occupancyOf o) = true
        /\ ((i < j)%nat \/ (i = j /\ ~ NoDup (teamsOf matches s)))
  | InsufficientRest team prevId currId gap =>
      exists i prev curr,
        nth_error (array_sort compareOccupancy (teamSlots matches team sched)) i = Some prev
        /\ nth_error (array_sort compareOccupancy (teamSlots matches team sched)) (S i)
           = Some curr
        /\ o_matchId prev = prevId /\ o_matchId curr = currId
        /\ gap = o_start curr - o_end prev
        /\ gap < restTime config * MS_PER_MINUTE
  | DependencyNotScheduled matchId depId =>
      exists m,
        In m matches /\ m_id m = matchId /\ In depId (depsOf m)
        /\ In matchId (map s_matchId sched) /\ ~ In depId (map s_matchId sched)
  | DependencyTooEarly matchId depId start depEnd =>
      exists m s sd,
        In m matches /\ m_id m = matchId /\ In depId (depsOf m)
        /\ Map_get Id_eq_dec matchId (scheduleIndex sched) = Some s
        /\ Map_get Id_eq_dec depId (scheduleIndex sched) = Some sd
        /\ start = s_startTime s /\ depEnd = s_endTime sd /\ start < depEnd
  end.

(** ** Painting of the completed matches *)





(** ** The dependencies that count in the reschedule mode

    [rescheduleMatches] clears the dependency set of a pending match whose
    declared dependencies are all completed, and leaves every other set as
    declared.  [settle] is the match with the dependencies that the loop
    still waits for; it differs from the match in the dependency list
    only. *)
Definition allDone (done : list Id) (m : Match) : bool :=
  forallb (fun depId => Set_has depId done) (depsOf m).

Definition settle (done : list Id) (m : Match) : Match :=
  if allDone done m
  then {| m_id := m_id m; team1 := team1 m; team2 := team2 m; round := round m;
          duration := duration m; dependencies := None |}
  else m.

Definition settleTask (done : list Id) (task : MatchTask) : MatchTask :=
  {| task_match := settle done (task_match task);
     remainingDependencies := remainingDependencies task |}.

Definition settled (done : list Id) (st : SimState) : SimState :=
  {| st_schedule := st_schedule st; st_teamStates := st_teamStates st;
     st_courtStates := st_courtStates st;
     st_matchMap := map (fun kv => (fst kv, settleTask done (snd kv))) (st_matchMap st);
     st_queue := map (settleTask done) (st_queue st);
     st_events := st_events st; st_time := st_time st |}.

Definition withDependents (env : LoopEnv) (dependents : list (Id * list Id)) : LoopEnv :=
  {| env_restTime := env_restTime env; env_courtSetupTime := env_courtSetupTime env;
     env_initialTime := env_initialTime env; env_floor := env_floor env;
     env_dependents := dependents |}.

(** ** Order of placement and dependencies *)



(** The entry is being played at the instant [x]. *)
Definition inProgress (x : Z) (s : ScheduledMatch) : bool :=
  (s_startTime s <=? x) && (x <? s_endTime s).

(** ** Further sample inputs *)


Definition sampleEntry : ScheduledMatch :=
  {| s_matchId := IdStr "M2"%string; s_courtId := IdStr "C2"%string;
     s_startTime := 600000; s_endTime := 2400000; s_round := 1 |}.

Definition sampleOccupancy : Occupancy :=
  {| o_start := 0; o_end := 1800000; o_matchId := IdStr "M1"%string |}.

(** * Properties *)

(** ** Maps, sets and sorting *)

Section MapFacts.
Context {K V : Type} (dec : forall a b : K, {a = b} + {a <> b}).

Lemma Map_get_set_same (k : K) (v : V) (m : list (K * V)) :
  Map_get dec k (Map_set dec k v m) = Some v.
Proof.
  induction m as [|[k' v'] m IH]; simpl.
  - destruct (dec k k); congruence.
  - destruct (dec k k') as [->|Hne]; simpl.
    + destruct (dec k' k'); congruence.
    + destruct (dec k k'); congruence.
Qed.

Lemma Map_get_set_other (k k' : K) (v : V) (m : list (K * V)) :
  k <> k' -> Map_get dec k' (Map_set dec k v m) = Map_get dec k' m.
Proof.
  intros Hne. induction m as [|[k0 v0] m IH]; simpl.
  - destruct (dec k' k); congruence.
  - destruct (dec k k0) as [->|Hk]; simpl.
    + destruct (dec k' k0); congruence.
    + destruct (dec k' k0); congruence.
Qed.

Lemma Map_get_In (k : K) (v : V) (m : list (K * V)) :
  Map_get dec k m = Some v -> In (k, v) m.
Proof.
  induction m as [|[k' v'] m IH]; simpl; [discriminate|].
  destruct (dec k k') as [->|Hne]; intros H.
  - inversion H; subst. now left.
  - right. now apply IH.
Qed.

Lemma Map_get_None (k : K) (m : list (K * V)) :
  Map_get dec k m = None <-> ~ In k (map fst m).
Proof.
  induction m as [|[k' v'] m IH]; simpl.
  - tauto.
  - destruct (dec k k') as [->|Hne].
    + split; [discriminate|]. intros H. exfalso. apply H. now left.
    + rewrite IH. split; intros H; [intros [E|E]; [congruence|tauto]|tauto].
Qed.

Lemma Map_get_Some_key (k : K) (v : V) (m : list (K * V)) :
  Map_get dec k m = Some v -> In k (map fst m).
Proof.
  intros H. apply Map_get_In in H. apply in_map_iff. now exists (k, v).
Qed.

Lemma Map_set_keys_present (k : K) (v : V) (m : list (K * V)) :
  In k (map fst m) -> map fst (Map_set dec k v m) = map fst m.
Proof.
  induction m as [|[k' v'] m IH]; simpl; [tauto|].
  intros H. destruct (dec k k') as [->|Hne]; simpl; [reflexivity|].
  f_equal. apply IH. destruct H; [congruence|assumption].
Qed.

Lemma Map_set_keys_absent (k : K) (v : V) (m : list (K * V)) :
  ~ In k (map fst m) -> map fst (Map_set dec k v m) = map fst m ++ [k].
Proof.
  induction m as [|[k' v'] m IH]; simpl; [reflexivity|].
  intros H. destruct (dec k k') as [->|Hne]; simpl; [tauto|].
  f_equal. apply IH. tauto.
Qed.

Lemma Map_set_keys_In (k k' : K) (v : V) (m : list (K * V)) :
  In k' (map fst (Map_set dec k v m)) <-> k' = k \/ In k' (map fst m).
Proof.
  destruct (in_dec dec k (map fst m)) as [Hin|Hout].
  - rewrite Map_set_keys_present by assumption.
    split; [tauto|]. intros [->|H]; assumption.
  - rewrite Map_set_keys_absent by assumption.
    rewrite in_app_iff; simpl. split; intros H; [|destruct H as [->|H]]; try tauto.
    destruct H as [H|[H|[]]]; auto.
Qed.

Lemma Map_set_keys_NoDup (k : K) (v : V) (m : list (K * V)) :
  NoDup (map fst m) -> NoDup (map fst (Map_set dec k v m)).
Proof.
  intros Hnd. destruct (in_dec dec k (map fst m)) as [Hin|Hout].
  - now rewrite Map_set_keys_present.
  - rewrite Map_set_keys_absent by assumption.
    apply NoDup_app; [assumption|repeat constructor; simpl; tauto|].
    intros x Hx [E|[]]. subst. tauto.
Qed.
End MapFacts.

Lemma Id_eqb_eq (a b : Id) : Id_eqb a b = true <-> a = b.
Proof. unfold Id_eqb. destruct (Id_eq_dec a b); split; congruence. Qed.

Lemma Id_eqb_neq (a b : Id) : Id_eqb a b = false <-> a <> b.
Proof. unfold Id_eqb. destruct (Id_eq_dec a b); split; congruence. Qed.

Lemma Id_eqb_refl (a : Id) : Id_eqb a a = true.
Proof. now apply Id_eqb_eq. Qed.

Lemma Set_has_In (x : Id) (s : list Id) : Set_has x s = true <-> In x s.
Proof.
  unfold Set_has. rewrite existsb_exists. split.
  - intros [y [Hy E]]. apply Id_eqb_eq in E. now subst.
  - intros H. exists x. split; [assumption|apply Id_eqb_refl].
Qed.

Lemma Set_add_In (x y : Id) (s : list Id) : In y (Set_add x s) <-> y = x \/ In y s.
Proof.
  unfold Set_add. destruct (Set_has x s) eqn:E.
  - apply Set_has_In in E. split; [tauto|]. intros [->|H]; assumption.
  - rewrite in_app_iff; simpl. split; intros H; [|destruct H as [->|H]]; try tauto.
    destruct H as [H|[H|[]]]; auto.
Qed.

Lemma Set_add_NoDup (x : Id) (s : list Id) : NoDup s -> NoDup (Set_add x s).
Proof.
  intros Hnd. unfold Set_add. destruct (Set_has x s) eqn:E; [assumption|].
  apply NoDup_app; [assumption|repeat constructor; simpl; tauto|].
  intros y Hy [<-|[]]. apply Set_has_In in Hy. congruence.
Qed.

Lemma Set_of_acc (items acc : list Id) :
  (forall y, In y (fold_left (fun s x => Set_add x s) items acc) <-> In y acc \/ In y items)
  /\ (NoDup acc -> NoDup (fold_left (fun s x => Set_add x s) items acc)).
Proof.
  revert acc. induction items as [|x items IH]; intros acc; simpl.
  - split; [tauto|auto].
  - destruct (IH (Set_add x acc)) as [H1 H2]. split.
    + intros y. rewrite H1, Set_add_In. intuition.
    + intros Hnd. apply H2. now apply Set_add_NoDup.
Qed.

Lemma Set_of_In (y : Id) (items : list Id) : In y (Set_of items) <-> In y items.
Proof. unfold Set_of. rewrite (proj1 (Set_of_acc items [])). simpl. tauto. Qed.

Lemma Set_of_NoDup (items : list Id) : NoDup (Set_of items).
Proof. apply (proj2 (Set_of_acc items [])). constructor. Qed.

Lemma Set_delete_In (x y : Id) (s : list Id) : In y (Set_delete x s) <-> In y s /\ y <> x.
Proof.
  unfold Set_delete. rewrite filter_In, negb_true_iff, Id_eqb_neq.
  split; intros [H1 H2]; split; auto.
Qed.

Section SortFacts.
Context {A : Type} (cmp : A -> A -> Z).

Lemma sort_insert_perm (x : A) (l : list A) : Permutation (sort_insert cmp x l) (x :: l).
Proof.
  induction l as [|y l IH]; simpl; [reflexivity|].
  destruct (cmp x y <=? 0); [reflexivity|].
  rewrite IH. apply perm_swap.
Qed.

Lemma array_sort_perm (l : list A) : Permutation (array_sort cmp l) l.
Proof.
  induction l as [|x l IH]; simpl; [reflexivity|].
  rewrite sort_insert_perm. now constructor.
Qed.

Lemma array_sort_In (x : A) (l : list A) : In x (array_sort cmp l) <-> In x l.
Proof.
  split; apply Permutation_in; [apply array_sort_perm|symmetry; apply array_sort_perm].
Qed.

Lemma array_sort_length (l : list A) : length (array_sort cmp l) = length l.
Proof. apply Permutation_length, array_sort_perm. Qed.

(** A list whose neighbours are already in order is left as it is: the
    sort is stable. *)
Lemma array_sort_sorted_id (l : list A) :
  Sorted (fun a b => cmp a b <= 0) l -> array_sort cmp l = l.
Proof.
  induction 1 as [|x l Hs IH Hhd]; simpl; [reflexivity|].
  rewrite IH. destruct Hhd as [|y l' Hxy]; simpl; [reflexivity|].
  destruct (cmp x y <=? 0) eqn:E; [reflexivity|]. apply Z.leb_gt in E. lia.
Qed.

Hypothesis cmp_total : forall a b, 0 < cmp a b -> cmp b a <= 0.
Hypothesis cmp_trans : forall a b c, cmp a b <= 0 -> cmp b c <= 0 -> cmp a c <= 0.

Lemma sort_insert_sorted (x : A) (l : list A) :
  StronglySorted (fun a b => cmp a b <= 0) l ->
  StronglySorted (fun a b => cmp a b <= 0) (sort_insert cmp x l).
Proof.
  induction 1 as [|y l Hs IH Hall]; simpl.
  - repeat constructor.
  - destruct (cmp x y <=? 0) eqn:E.
    + apply Z.leb_le in E. constructor; [now constructor|].
      constructor; [assumption|].
      rewrite Forall_forall in *. intros z Hz. eapply cmp_trans; eauto.
    + apply Z.leb_gt in E. constructor; [assumption|].
      rewrite Forall_forall in *. intros z Hz.
      apply (Permutation_in _ (sort_insert_perm x l)) in Hz.
      destruct Hz as [<-|Hz]; [apply cmp_total; lia|auto].
Qed.

Lemma array_sort_sorted (l : list A) :
  StronglySorted (fun a b => cmp a b <= 0) (array_sort cmp l).
Proof.
  induction l as [|x l IH]; simpl; [constructor|]. now apply sort_insert_sorted.
Qed.
End SortFacts.


Lemma Permutation_filter_length {A : Type} (f : A -> bool) (l l' : list A) :
  Permutation l l' -> length (filter f l) = length (filter f l').
Proof.
  induction 1; simpl; auto.
  - destruct (f x); simpl; congruence.
  - destruct (f x), (f y); reflexivity.
  - congruence.
Qed.

(** ** The loop runs through the transition system *)

Section LoopFacts.
Variable lc : string -> string -> Z.
Variable env : LoopEnv.

Lemma processEvent_schedule st ev :
  st_schedule (processEvent lc env st ev) = st_schedule st.
Proof. unfold processEvent. destruct (fold_left _ _ _). reflexivity. Qed.

Lemma processEvent_events st ev :
  st_events (processEvent lc env st ev) = st_events st.
Proof. unfold processEvent. destruct (fold_left _ _ _). reflexivity. Qed.

Lemma processEvent_time st ev :
  st_time (processEvent lc env st ev) = st_time st.
Proof. unfold processEvent. destruct (fold_left _ _ _). reflexivity. Qed.

Lemma Reachable_trans st0 st1 st2 :
  Reachable lc env st0 st1 -> Reachable lc env st1 st2 -> Reachable lc env st0 st2.
Proof. intros H01 H12. induction H12; [assumption|]. econstructor; eauto. Qed.

Lemma Reachable_ind_from (P : SimState -> Prop) st0 :
  P st0 ->
  (forall st st', Reachable lc env st0 st -> P st -> Step lc env st st' -> P st') ->
  forall st, Reachable lc env st0 st -> P st.
Proof. intros H0 Hstep st Hr. induction Hr; eauto. Qed.

Lemma flushFrom_spec pending st :
  st_events st = pending ->
  Reachable lc env st (flushFrom lc env pending st)
  /\ flushed (flushFrom lc env pending st)
  /\ st_time (flushFrom lc env pending st) = st_time st
  /\ st_schedule (flushFrom lc env pending st) = st_schedule st.
Proof.
  revert st. induction pending as [|ev rest IH]; intros st Hev; simpl.
  - repeat split; [constructor|]. unfold flushed. now rewrite Hev.
  - destruct (ev_time ev <=? st_time st) eqn:E.
    + apply Z.leb_le in E.
      destruct (IH (processEvent lc env (withEvents st rest) ev)) as (Hr & Hf & Ht & Hs).
      { now rewrite processEvent_events. }
      repeat split; try assumption.
      * eapply Reachable_trans; [|exact Hr].
        econstructor; [constructor|]. now constructor.
      * now rewrite Ht, processEvent_time.
      * now rewrite Hs, processEvent_schedule.
    + apply Z.leb_gt in E. repeat split; [constructor|].
      unfold flushed. now rewrite Hev.
Qed.

Lemma flushEvents_spec st :
  Reachable lc env st (flushEvents lc env st)
  /\ flushed (flushEvents lc env st)
  /\ st_time (flushEvents lc env st) = st_time st
  /\ st_schedule (flushEvents lc env st) = st_schedule st.
Proof. now apply flushFrom_spec. Qed.

Lemma placementPass_spec snapshot st st' :
  placementPass env snapshot st = Some st' ->
  exists task courtIndex courtAvailableAt,
    In task snapshot
    /\ areTeamsAvailable (task_match task) (st_time st) (st_teamStates st) = true
    /\ findAvailableCourt (st_time st) (st_courtStates st) = Some (courtIndex, courtAvailableAt)
    /\ actualStart env courtAvailableAt
         (calculateEarliestStartTime (task_match task) (st_time st) (st_teamStates st))
       <= st_time st
    /\ st' = placeMatch env st task courtIndex
               (actualStart env courtAvailableAt
                  (calculateEarliestStartTime (task_match task) (st_time st) (st_teamStates st))).
Proof.
  induction snapshot as [|task rest IH]; simpl; [discriminate|].
  destruct (areTeamsAvailable (task_match task) (st_time st) (st_teamStates st)) eqn:Ha; simpl.
  - destruct (findAvailableCourt (st_time st) (st_courtStates st)) as [[idx avail]|] eqn:Hc.
    + destruct (actualStart env avail _ >? st_time st) eqn:Hgt.
      * intros H. destruct (IH H) as (t & i & a & Hin & Hrest).
        exists t, i, a. split; [now right|assumption].
      * intros H. inversion H; subst. exists task, idx, avail.
        rewrite Z.gtb_ltb in Hgt. apply Z.ltb_ge in Hgt.
        split; [now left|]. repeat split; assumption.
    + intros H. destruct (IH H) as (t & i & a & Hin & Hrest).
      exists t, i, a. split; [now right|assumption].
  - intros H. destruct (IH H) as (t & i & a & Hin & Hrest).
    exists t, i, a. split; [now right|assumption].
Qed.

Lemma nextAvailability_fold {A : Type} (f : A -> Z) (now : Z) (l : list A) (init : Z) :
  let r := fold_left (fun nextTime x => nextAvailability now nextTime (f x)) l init in
  r = init \/ (now < r /\ r < init /\ In r (map f l)).
Proof.
  revert init. induction l as [|x l IH]; intros init; simpl; [now left|].
  specialize (IH (nextAvailability now init (f x))). simpl in IH.
  unfold nextAvailability in *.
  destruct ((f x >? now) && (f x <? init)) eqn:E.
  - apply andb_true_iff in E. destruct E as [E1 E2].
    rewrite Z.gtb_ltb in E1. apply Z.ltb_lt in E1. apply Z.ltb_lt in E2.
    destruct IH as [->|(H1 & H2 & H3)]; right; repeat split; auto; lia.
  - destruct IH as [->|(H1 & H2 & H3)]; [now left|right; auto].
Qed.

Lemma nextTimeOf_later st :
  nextTimeOf env st < MAX_DATE -> st_time st < nextTimeOf env st.
Proof.
  unfold nextTimeOf.
  pose proof (nextAvailability_fold (fun kv : TeamKey * TeamState => ts_availableAt (snd kv))
                (st_time st) (st_teamStates st) MAX_DATE) as H1.
  simpl in H1. set (n1 := fold_left _ (st_teamStates st) MAX_DATE) in *.
  pose proof (nextAvailability_fold cs_availableAt (st_time st) (st_courtStates st) n1) as H2.
  simpl in H2. set (n2 := fold_left _ (st_courtStates st) n1) in *.
  destruct (env_floor env) as [fl|].
  - unfold nextAvailability. destruct ((fl >? st_time st) && (fl <? n2)) eqn:E.
    + apply andb_true_iff in E. destruct E as [E1 E2].
      rewrite Z.gtb_ltb in E1. apply Z.ltb_lt in E1. lia.
    + intros. destruct H2 as [H2|H2]; [|lia]. destruct H1 as [H1|H1]; lia.
  - intros. destruct H2 as [H2|H2]; [|lia]. destruct H1 as [H1|H1]; lia.
Qed.

Lemma loopBody_reachable st :
  match loopBody lc env st with
  | Continue st' | Break st' => Reachable lc env st st'
  | Fail _ => True
  end.
Proof.
  unfold loopBody.
  destruct (flushEvents_spec st) as (Hr & Hf & Ht & Hs).
  set (st1 := flushEvents lc env st) in *.
  destruct (placementPass env (MatchQueue_getAll (st_queue st1)) st1) as [st2|] eqn:Hp.
  - apply placementPass_spec in Hp.
    destruct Hp as (task & idx & avail & Hin & Ha & Hc & Hle & ->).
    econstructor; [exact Hr|]. now constructor.
  - destruct (st_events st1) as [|ev rest] eqn:Hev.
    + destruct (negb (MatchQueue_isEmpty (st_queue st1))); [|exact Hr].
      destruct (nextTimeOf env st1 <? MAX_DATE) eqn:E; [|exact I].
      apply Z.ltb_lt in E. econstructor; [exact Hr|].
      constructor; [assumption|]. now apply nextTimeOf_later.
    + econstructor; [exact Hr|]. constructor; [assumption|].
      unfold flushed in Hf. now rewrite Hev in Hf.
Qed.

Lemma runLoop_reachable fuel st st' :
  runLoop lc env fuel st = Returned st' -> Reachable lc env st st'.
Proof.
  revert st. induction fuel as [|fuel IH]; intros st; simpl.
  - destruct (_ || _); [discriminate|]. intros H; inversion H; constructor.
  - destruct (_ || _); [|intros H; inversion H; constructor].
    pose proof (loopBody_reachable st) as Hb.
    destruct (loopBody lc env st) as [st1|st1|e]; intros H.
    + eapply Reachable_trans; [exact Hb|]. now apply IH.
    + inversion H; subst. exact Hb.
    + discriminate.
Qed.


End LoopFacts.

(** ** The ready queue *)

Section QueueFacts.
Variable lc : string -> string -> Z.
Hypothesis lc_total : forall a b, 0 < lc a b -> lc b a <= 0.
Hypothesis lc_trans : forall a b c, lc a b <= 0 -> lc b c <= 0 -> lc a c <= 0.

Lemma compareTasks_before a b : compareTasks lc a b <= 0 <-> taskBefore lc a b.
Proof.
  unfold compareTasks, taskBefore.
  destruct (round (task_match a) =? round (task_match b)) eqn:E; simpl.
  - apply Z.eqb_eq in E. split; [intros; right; auto|intros [H|[_ H]]; [lia|exact H]].
  - apply Z.eqb_neq in E. split; [intros; left; lia|intros [H|[H _]]; lia].
Qed.


Lemma compareTasks_trans a b c :
  compareTasks lc a b <= 0 -> compareTasks lc b c <= 0 -> compareTasks lc a c <= 0.
Proof.
  rewrite !compareTasks_before. unfold taskBefore.
  intros [H1|[H1 L1]] [H2|[H2 L2]]; try (left; lia).
  right. split; [lia|]. eapply lc_trans; eauto.
Qed.



Lemma remove_subset matchId (q : list MatchTask) t :
  In t (MatchQueue_remove matchId q) -> In t q.
Proof.
  induction q as [|x q IH]; simpl; [tauto|].
  destruct (Id_eqb (m_id (task_match x)) matchId); simpl; intuition.
Qed.




End QueueFacts.

(** The code-unit order of strings is one admissible collation. *)

Lemma ascii_compare_N a b : Ascii.compare a b = N.compare (N_of_ascii a) (N_of_ascii b).
Proof. reflexivity. Qed.

Lemma string_compare_refl s : String.compare s s = Eq.
Proof.
  induction s as [|a s IH]; simpl; [reflexivity|].
  rewrite ascii_compare_N, N.compare_refl. exact IH.
Qed.

Lemma string_compare_trans_le a : forall b c,
  String.compare a b <> Gt -> String.compare b c <> Gt -> String.compare a c <> Gt.
Proof.
  induction a as [|x a IH]; intros [|y b] [|z c]; simpl; try congruence.
  rewrite !ascii_compare_N.
  destruct (N.compare_spec (N_of_ascii x) (N_of_ascii y)) as [Exy|Lxy|Gxy];
    destruct (N.compare_spec (N_of_ascii y) (N_of_ascii z)) as [Eyz|Lyz|Gyz];
    try congruence.
  - rewrite Exy, Eyz, N.compare_refl. apply IH.
  - rewrite Exy. rewrite (proj2 (N.compare_lt_iff _ _) Lyz). congruence.
  - rewrite <- Eyz. rewrite (proj2 (N.compare_lt_iff _ _) Lxy). congruence.
  - assert (H : (N_of_ascii x < N_of_ascii z)%N) by lia.
    rewrite (proj2 (N.compare_lt_iff _ _) H). congruence.
Qed.

Lemma lexCompare_total a b : 0 < lexCompare a b -> lexCompare b a <= 0.
Proof.
  unfold lexCompare. rewrite (String.compare_antisym a b).
  destruct (String.compare b a); simpl; lia.
Qed.

Lemma lexCompare_trans a b c :
  lexCompare a b <= 0 -> lexCompare b c <= 0 -> lexCompare a c <= 0.
Proof.
  unfold lexCompare. intros H1 H2.
  assert (H : String.compare a c <> Gt).
  { apply (string_compare_trans_le a b c).
    - destruct (String.compare a b); [congruence|congruence|lia].
    - destruct (String.compare b c); [congruence|congruence|lia]. }
  destruct (String.compare a c); [lia|lia|congruence].
Qed.

(** ** What the entry points return *)

Section EntryPoints.
Variable lc : string -> string -> Z.

Lemma scheduleMatches_returned fuel now matches courts config r :
  scheduleMatches lc fuel now matches courts config = Returned r ->
  exists st,
    runLoop lc (scheduleEnv config (startOf config now) (snd (buildGraph matches))) fuel
      (scheduleInit lc matches courts (startOf config now)) = Returned st
    /\ length (st_schedule st) = length matches
    /\ r = {| schedule := array_sort compareStart (st_schedule st);
              summary := summarize (st_schedule st) (st_schedule st)
                           (startOf config now) (startOf config now) |}
    /\ matches <> [] /\ courts <> [].
Proof.
  unfold scheduleMatches, startOf.
  destruct matches as [|m ms]; [discriminate|].
  destruct courts as [|c cs]; [discriminate|].
  cbn [length Nat.eqb].
  destruct (runLoop lc _ fuel _) as [st| |]; try discriminate.
  destruct (Nat.eqb (length (st_schedule st)) (S (length ms))) eqn:E; simpl; [|discriminate].
  intros H. inversion H; subst. exists st. apply Nat.eqb_eq in E.
  repeat split; auto; discriminate.
Qed.

Lemma rescheduleMatches_returned fuel matches courts config r :
  rescheduleMatches lc fuel matches courts config = Returned r ->
  exists st,
    runLoop lc
      (rescheduleEnv config
         (snd (buildGraph (filter (fun m => isPending config (m_id m)) matches)))) fuel
      (rescheduleInit lc matches courts config) = Returned st
    /\ length (filter (fun s => isPending config (s_matchId s)) (st_schedule st))
       = length (filter (fun m => isPending config (m_id m)) matches)
    /\ schedule r
       = array_sort compareStart
           (filter (fun s => isPending config (s_matchId s)) (st_schedule st))
    /\ matches <> [] /\ courts <> [].
Proof.
  unfold rescheduleMatches.
  destruct matches as [|m ms]; [discriminate|].
  destruct courts as [|c cs]; [discriminate|].
  cbn [length Nat.eqb].
  destruct (runLoop lc _ fuel _) as [st| |]; try discriminate.
  match goal with |- context [Nat.eqb ?a ?b] => destruct (Nat.eqb a b) eqn:E end;
    simpl; [|discriminate].
  intros H. inversion H; subst. exists st. apply Nat.eqb_eq in E.
  repeat split; auto; discriminate.
Qed.

(** A transition leaves the schedule alone or appends the entry of a
    queued task, starting at the computed start time. *)
Lemma Step_schedule env st st' :
  Step lc env st st' ->
  st_schedule st' = st_schedule st
  \/ exists task courtAvailableAt entry,
       In task (st_queue st)
       /\ st_schedule st' = st_schedule st ++ [entry]
       /\ s_matchId entry = m_id (task_match task)
       /\ s_startTime entry
          = actualStart env courtAvailableAt
              (calculateEarliestStartTime (task_match task) (st_time st) (st_teamStates st))
       /\ s_startTime entry <= st_time st
       /\ s_endTime entry = s_startTime entry + duration (task_match task) * MS_PER_MINUTE.
Proof.
  intros H. destruct H as [st ev rest Hev Hle|st task idx avail Hf Hin Ha Hc Hle|st t Hf Ht].
  - left. now rewrite processEvent_schedule.
  - right. eexists task, avail, _. split; [exact Hin|].
    split; [reflexivity|]. simpl. repeat split; auto.
  - left. reflexivity.
Qed.

Lemma isPending_spec config matchId :
  isPending config matchId = true <-> ~ In matchId (map c_matchId (completedMatches config)).
Proof.
  unfold isPending, completedIds. rewrite negb_true_iff.
  rewrite <- Set_of_In, <- Set_has_In.
  destruct (Set_has matchId _); split; congruence.
Qed.


(** C2.  No match returned by [rescheduleMatches] starts before the
    caller's current time. *)
Theorem reschedule_never_in_the_past fuel matches courts config r :
  rescheduleMatches lc fuel matches courts config = Returned r ->
  forall s, In s (schedule r) -> currentTime config <= s_startTime s.
Proof.
  intros H s Hs. apply rescheduleMatches_returned in H.
  destruct H as (st & Hrun & _ & Hr & _). rewrite Hr in Hs.
  apply array_sort_In, filter_In in Hs. destruct Hs as [Hs Hpend].
  apply runLoop_reachable in Hrun.
  set (s0 := map (completedEntry matches) (completedMatches config)).
  assert (Hinv : forall x, In x (st_schedule st) ->
                   In x s0 \/ currentTime config <= s_startTime x).
  { pattern st. eapply Reachable_ind_from; [| |exact Hrun]; cbv beta.
    - intros x Hx. now left.
    - intros st1 st2 _ IH Hstep x Hx. apply Step_schedule in Hstep.
      destruct Hstep as [E|(task & avail & entry & _ & E & _ & Hstart & _)].
      + rewrite E in Hx. auto.
      + rewrite E in Hx. apply in_app_iff in Hx. destruct Hx as [Hx|[<-|[]]]; [auto|].
        right. rewrite Hstart. unfold actualStart. simpl. lia. }
  destruct (Hinv s Hs) as [Hin|Hle]; [|exact Hle].
  exfalso. unfold s0 in Hin. apply in_map_iff in Hin.
  destruct Hin as (c & <- & Hc). apply isPending_spec in Hpend. apply Hpend.
  simpl. apply in_map_iff. now exists c.
Qed.


End EntryPoints.

(** ** Lists: last element, neighbours, ordered pairs *)

Section ListFacts.
Context {A : Type}.

Lemma lastOf_app_single (l : list A) (x : A) : lastOf (l ++ [x]) = Some x.
Proof.
  induction l as [|y l IH]; simpl; [reflexivity|].
  destruct (l ++ [x]) eqn:E; [destruct l; discriminate|exact IH].
Qed.

Lemma lastOf_split (l : list A) (x : A) : lastOf l = Some x -> l = removelast l ++ [x].
Proof.
  induction l as [|y l IH]; [discriminate|].
  destruct l as [|z l].
  - simpl. intros H; inversion H; reflexivity.
  - intros H. change (lastOf (z :: l) = Some x) in H. apply IH in H.
    change (removelast (y :: z :: l)) with (y :: removelast (z :: l)).
    rewrite <- app_comm_cons. f_equal. exact H.
Qed.

Lemma lastOf_None (l : list A) : lastOf l = None -> l = [].
Proof.
  induction l as [|y l IH]; [reflexivity|].
  destruct l as [|z l]; [discriminate|].
  intros H. change (lastOf (z :: l) = None) in H. apply IH in H. discriminate.
Qed.

Lemma Sorted_app_single (R : A -> A -> Prop) (l : list A) (x : A) :
  Sorted R l -> (forall y, lastOf l = Some y -> R y x) -> Sorted R (l ++ [x]).
Proof.
  induction 1 as [|y l Hs IH Hhd]; intros Hlast; simpl.
  - repeat constructor.
  - constructor.
    + apply IH. intros z Hz. apply Hlast. destruct l; [discriminate|exact Hz].
    + destruct Hhd as [|z l' Hyz]; simpl; constructor; [|assumption].
      now apply Hlast.
Qed.

Lemma StronglySorted_app_single (R : A -> A -> Prop) (l : list A) (x : A) :
  StronglySorted R l -> Forall (fun y => R y x) l -> StronglySorted R (l ++ [x]).
Proof.
  induction 1 as [|y l Hs IH Hall]; intros Hx; simpl.
  - repeat constructor.
  - inversion Hx; subst. constructor; [now apply IH|].
    apply Forall_app. split; [assumption|]. now repeat constructor.
Qed.


Lemma StronglySorted_nth (R : A -> A -> Prop) (l : list A) :
  StronglySorted R l ->
  forall i j a b, (i < j)%nat -> nth_error l i = Some a -> nth_error l j = Some b -> R a b.
Proof.
  induction 1 as [|y l Hs IH Hall]; intros i j a b Hij Ha Hb.
  - destruct i; discriminate.
  - destruct j as [|j]; [lia|]. simpl in Hb. destruct i as [|i].
    + simpl in Ha. inversion Ha; subst. rewrite Forall_forall in Hall.
      apply Hall. eapply nth_error_In; eauto.
    + simpl in Ha. apply (IH i j a b); [lia|assumption|assumption].
Qed.

End ListFacts.

Lemma pendingFor_cons team ev pending :
  pendingFor team (ev :: pending)
  = ((if eventInvolves team ev then 1 else 0) + pendingFor team pending)%nat.
Proof. unfold pendingFor. simpl. destruct (eventInvolves team ev); reflexivity. Qed.

Lemma pendingFor_zero team pending :
  pendingFor team pending = 0%nat ->
  forall ev, In ev pending -> eventInvolves team ev = false.
Proof.
  induction pending as [|e pending IH]; intros H ev Hin; [destruct Hin|].
  rewrite pendingFor_cons in H. destruct (eventInvolves team e) eqn:E; [discriminate|].
  destruct Hin as [<-|Hin]; [assumption|]. apply IH; [exact H|assumption].
Qed.

Lemma pendingFor_perm team l l' :
  Permutation l l' -> pendingFor team l = pendingFor team l'.
Proof. apply Permutation_filter_length. Qed.

Lemma pendingFor_app team l l' :
  pendingFor team (l ++ l') = (pendingFor team l + pendingFor team l')%nat.
Proof. unfold pendingFor. now rewrite filter_app, length_app. Qed.

(** ** Team states *)

Lemma getTeamIds_length m : (length (getTeamIds m) <= 2)%nat.
Proof.
  unfold getTeamIds, slotIds. rewrite length_app.
  destruct (team1 m) as [t1|x1], (team2 m) as [t2|x2]; simpl;
    repeat match goal with |- context [truthy ?x] => destruct (truthy x) end; simpl; lia.
Qed.

Lemma eventInvolves_teams team (teamIds : list Id) time matchId courtId :
  (length teamIds <= 2)%nat ->
  eventInvolves team {| ev_time := time; ev_matchId := matchId; ev_courtId := courtId;
                        ev_team1Id := nth_error teamIds 0;
                        ev_team2Id := nth_error teamIds 1 |}
  = existsb (Id_eqb team) teamIds.
Proof.
  unfold eventInvolves. simpl.
  destruct teamIds as [|a [|b [|c l]]]; simpl; intros H; try lia;
    rewrite ?orb_false_r; reflexivity.
Qed.

Lemma existsb_Id_In team (l : list Id) : existsb (Id_eqb team) l = true <-> In team l.
Proof. apply Set_has_In. Qed.

Section TeamStateFacts.
Variable env : LoopEnv.

Lemma releaseTeam_same restEnd key teamStates :
  exists state,
    Map_get TeamKey_eq_dec key (releaseTeam env restEnd key teamStates) = Some state
    /\ ts_availableAt state = restEnd /\ ts_currentMatch state = None.
Proof.
  unfold releaseTeam, ensureTeamState.
  destruct (Map_get TeamKey_eq_dec key teamStates); rewrite Map_get_set_same;
    eexists; repeat split.
Qed.

Lemma releaseTeam_other restEnd key k teamStates :
  key <> k ->
  Map_get TeamKey_eq_dec k (releaseTeam env restEnd key teamStates)
  = Map_get TeamKey_eq_dec k teamStates.
Proof.
  intros Hne. unfold releaseTeam, ensureTeamState.
  destruct (Map_get TeamKey_eq_dec key teamStates);
    now rewrite ?Map_get_set_other by assumption.
Qed.

Lemma occupyTeam_same matchId team teamStates :
  exists state,
    Map_get TeamKey_eq_dec (Some team) (occupyTeam env matchId teamStates team) = Some state
    /\ ts_currentMatch state = Some matchId.
Proof.
  unfold occupyTeam, ensureTeamState.
  destruct (Map_get TeamKey_eq_dec (Some team) teamStates); rewrite Map_get_set_same;
    eexists; repeat split.
Qed.

Lemma occupyTeam_other matchId team k teamStates :
  Some team <> k ->
  Map_get TeamKey_eq_dec k (occupyTeam env matchId teamStates team)
  = Map_get TeamKey_eq_dec k teamStates.
Proof.
  intros Hne. unfold occupyTeam, ensureTeamState.
  destruct (Map_get TeamKey_eq_dec (Some team) teamStates);
    now rewrite ?Map_get_set_other by assumption.
Qed.

Lemma occupy_all_other matchId (teamIds : list Id) k teamStates :
  (forall team, In team teamIds -> Some team <> k) ->
  Map_get TeamKey_eq_dec k (fold_left (occupyTeam env matchId) teamIds teamStates)
  = Map_get TeamKey_eq_dec k teamStates.
Proof.
  revert teamStates. induction teamIds as [|t l IH]; intros teamStates H; simpl; [reflexivity|].
  rewrite IH by (intros; apply H; now right).
  apply occupyTeam_other. apply H. now left.
Qed.

Lemma occupy_all_same matchId (teamIds : list Id) team teamStates :
  In team teamIds ->
  exists state,
    Map_get TeamKey_eq_dec (Some team) (fold_left (occupyTeam env matchId) teamIds teamStates)
    = Some state
    /\ ts_currentMatch state = Some matchId.
Proof.
  revert teamStates. induction teamIds as [|t l IH]; intros teamStates Hin; [destruct Hin|].
  simpl. destruct (in_dec Id_eq_dec team l) as [Hl|Hl]; [now apply IH|].
  destruct Hin as [->|Hin]; [|tauto].
  rewrite occupy_all_other; [apply occupyTeam_same|].
  intros t' Ht' E. inversion E; subst. tauto.
Qed.
End TeamStateFacts.

Lemma calculateEarliestStartTime_ge m time teamStates :
  time <= calculateEarliestStartTime m time teamStates.
Proof.
  unfold calculateEarliestStartTime.
  generalize (getTeamIds m). intros l.
  assert (H : forall acc, time <= acc ->
            time <= fold_left
              (fun earliestStart teamId =>
                 match Map_get TeamKey_eq_dec (Some teamId) teamStates with
                 | Some state =>
                     if ts_availableAt state >? earliestStart then ts_availableAt state
                     else earliestStart
                 | None => earliestStart
                 end) l acc).
  { induction l as [|t l IH]; intros acc Hacc; simpl; [assumption|].
    apply IH. destruct (Map_get TeamKey_eq_dec (Some t) teamStates) as [s|]; [|assumption].
    destruct (ts_availableAt s >? acc) eqn:E; [|assumption].
    rewrite Z.gtb_ltb in E. apply Z.ltb_lt in E. lia. }
  apply H. lia.
Qed.

Lemma actualStart_ge env courtAvailableAt teamEarliestStart :
  teamEarliestStart <= actualStart env courtAvailableAt teamEarliestStart.
Proof. unfold actualStart. destruct (env_floor env); lia. Qed.

(** A match is placed exactly at the current time of the simulation. *)
Lemma placement_time env courtAvailableAt m time teamStates :
  actualStart env courtAvailableAt (calculateEarliestStartTime m time teamStates) <= time ->
  actualStart env courtAvailableAt (calculateEarliestStartTime m time teamStates) = time.
Proof.
  intros H.
  pose proof (calculateEarliestStartTime_ge m time teamStates).
  pose proof (actualStart_ge env courtAvailableAt (calculateEarliestStartTime m time teamStates)).
  lia.
Qed.

Lemma areTeamsAvailable_each m time teamStates team :
  areTeamsAvailable m time teamStates = true -> In team (getTeamIds m) ->
  match Map_get TeamKey_eq_dec (Some team) teamStates with
  | None => True
  | Some state => ts_currentMatch state = None /\ ts_availableAt state <= time
  end.
Proof.
  unfold areTeamsAvailable. rewrite forallb_forall. intros H Hin.
  specialize (H team Hin). unfold isTeamAvailable in H.
  destruct (Map_get TeamKey_eq_dec (Some team) teamStates) as [s|]; [|exact I].
  apply andb_true_iff in H. destruct H as [H1 H2]. apply Z.leb_le in H2.
  split; [|assumption]. destruct (ts_currentMatch s); [discriminate|reflexivity].
Qed.

(** ** The team invariant is kept by every transition *)

Lemma eventInvolves_true team ev :
  eventInvolves team ev = true <-> ev_team1Id ev = Some team \/ ev_team2Id ev = Some team.
Proof.
  unfold eventInvolves. rewrite orb_true_iff.
  destruct (ev_team1Id ev) as [a|], (ev_team2Id ev) as [b|]; rewrite ?Id_eqb_eq;
    split; intros [H|H]; try discriminate; try inversion H; subst; auto.
Qed.

Section TeamInvariant.
Variable lc : string -> string -> Z.
Variable env : LoopEnv.
Variable matches : list Match.

Local Notation "'restMs'" := (restMsOf env).

Lemma processEvent_teamStates st ev :
  st_teamStates (processEvent lc env st ev)
  = releaseTeam env (ev_time ev + restMs) (ev_team2Id ev)
      (releaseTeam env (ev_time ev + restMs) (ev_team1Id ev) (st_teamStates st)).
Proof. unfold processEvent. destruct (fold_left _ _ _). reflexivity. Qed.

Lemma processEvent_graph st ev :
  (st_matchMap (processEvent lc env st ev), st_queue (processEvent lc env st ev))
  = fold_left (unlockDependent lc (ev_matchId ev))
      (dependentsOf env (ev_matchId ev))
      (st_matchMap st, st_queue st).
Proof. unfold processEvent. destruct (fold_left _ _ _). reflexivity. Qed.

Lemma unlockDependent_ok matchId acc depMatchId :
  GraphOk matches acc -> GraphOk matches (unlockDependent lc matchId acc depMatchId).
Proof.
  intros [Hm Hq]. unfold unlockDependent.
  destruct (Map_get Id_eq_dec depMatchId (fst acc)) as [depTask|] eqn:Hget; [|now split].
  destruct (Hm _ _ Hget) as [Hof Hid].
  assert (Hm' : forall k task,
            Map_get Id_eq_dec k
              (Map_set Id_eq_dec depMatchId (satisfy matchId depTask) (fst acc))
            = Some task ->
            matchOf matches k = Some (task_match task) /\ m_id (task_match task) = k).
  { intros k task Hk. destruct (Id_eq_dec depMatchId k) as [<-|Hne].
    - rewrite Map_get_set_same in Hk. inversion Hk; subst. simpl. now split.
    - rewrite Map_get_set_other in Hk by assumption. now apply Hm. }
  match goal with |- context [Nat.eqb ?a ?b] => destruct (Nat.eqb a b) end;
    split; simpl; try assumption.
  intros task Hin. unfold MatchQueue_enqueue in Hin.
  apply array_sort_In, in_app_iff in Hin. destruct Hin as [Hin|[<-|[]]]; [now apply Hq|].
  simpl. now rewrite Hid.
Qed.

Lemma unlock_all_ok matchId deps acc :
  GraphOk matches acc -> GraphOk matches (fold_left (unlockDependent lc matchId) deps acc).
Proof.
  revert acc. induction deps as [|d deps IH]; intros acc H; simpl; [assumption|].
  apply IH. now apply unlockDependent_ok.
Qed.

Lemma TeamOk_fire st ev rest team :
  st_events st = ev :: rest -> ev_time ev <= st_time st ->
  TeamOk matches restMs st team ->
  TeamOk matches restMs (processEvent lc env (withEvents st rest) ev) team.
Proof.
  intros Hev Hle Hok. unfold TeamOk in *.
  rewrite processEvent_schedule, processEvent_events, processEvent_time,
    processEvent_teamStates.
  cbn [withEvents st_schedule st_events st_time st_teamStates].
  rewrite Hev, pendingFor_cons in Hok.
  set (mine := filter (involves matches team) (st_schedule st)) in *.
  destruct (eventInvolves team ev) eqn:Einv.
  - assert (Hnew : exists state,
              Map_get TeamKey_eq_dec (Some team)
                (releaseTeam env (ev_time ev + restMs) (ev_team2Id ev)
                   (releaseTeam env (ev_time ev + restMs) (ev_team1Id ev) (st_teamStates st)))
              = Some state
              /\ ts_availableAt state = ev_time ev + restMs
              /\ ts_currentMatch state = None).
    { destruct (TeamKey_eq_dec (ev_team2Id ev) (Some team)) as [E2|E2].
      - rewrite E2. apply releaseTeam_same.
      - rewrite releaseTeam_other by assumption.
        apply eventInvolves_true in Einv. destruct Einv as [E1|E1]; [|congruence].
        rewrite E1. apply releaseTeam_same. }
    destruct Hnew as (state' & -> & Havail & ->).
    destruct (Map_get TeamKey_eq_dec (Some team) (st_teamStates st)) as [state|];
      [|destruct Hok; discriminate].
    destruct (ts_currentMatch state); [|destruct Hok; discriminate].
    destruct Hok as (Hcount & s & Hlast & Htimes & Hbefore).
    assert (Hend : ev_time ev = s_endTime s).
    { apply Htimes; [now left|assumption]. }
    split; [lia|]. split.
    + intros s' Hs'. rewrite (lastOf_split _ _ Hlast) in Hs'.
      apply in_app_iff in Hs'. destruct Hs' as [Hs'|[<-|[]]]; [auto|lia].
    + intros s' Hs'. rewrite Hlast in Hs'. inversion Hs'; subst. lia.
  - assert (E1 : ev_team1Id ev <> Some team).
    { intros E. assert (eventInvolves team ev = true) by (apply eventInvolves_true; auto).
      congruence. }
    assert (E2 : ev_team2Id ev <> Some team).
    { intros E. assert (eventInvolves team ev = true) by (apply eventInvolves_true; auto).
      congruence. }
    rewrite !releaseTeam_other by assumption.
    destruct (Map_get TeamKey_eq_dec (Some team) (st_teamStates st)) as [state|];
      [|exact Hok].
    destruct (ts_currentMatch state); [|exact Hok].
    destruct Hok as (Hcount & s & Hlast & Htimes & Hbefore).
    split; [exact Hcount|]. exists s. repeat split; auto.
    intros ev' Hin. apply Htimes. now right.
Qed.

Lemma involves_entry (task : MatchTask) team entry :
  matchOf matches (m_id (task_match task)) = Some (task_match task) ->
  s_matchId entry = m_id (task_match task) ->
  involves matches team entry = existsb (Id_eqb team) (getTeamIds (task_match task)).
Proof. intros Hof Hid. unfold involves, teamsOf. now rewrite Hid, Hof. Qed.

Lemma placeMatch_schedule st task idx :
  st_schedule (placeMatch env st task idx (st_time st))
  = st_schedule st ++ [entryOf st task idx].
Proof. reflexivity. Qed.

Lemma placeMatch_events st task idx :
  st_events (placeMatch env st task idx (st_time st))
  = array_sort compareEvents (st_events st ++ [endEventOf st task idx]).
Proof. reflexivity. Qed.

Lemma placeMatch_events_perm st task idx :
  Permutation (st_events (placeMatch env st task idx (st_time st)))
    (st_events st ++ [endEventOf st task idx]).
Proof. rewrite placeMatch_events. apply array_sort_perm. Qed.

Lemma endEvent_involves st task idx team :
  eventInvolves team (endEventOf st task idx)
  = existsb (Id_eqb team) (getTeamIds (task_match task)).
Proof. apply eventInvolves_teams, getTeamIds_length. Qed.

Lemma TeamOk_place st task idx team :
  matchOf matches (m_id (task_match task)) = Some (task_match task) ->
  areTeamsAvailable (task_match task) (st_time st) (st_teamStates st) = true ->
  TeamOk matches restMs st team ->
  TeamOk matches restMs (placeMatch env st task idx (st_time st)) team.
Proof.
  intros Hof Havail Hok. unfold TeamOk in *.
  rewrite placeMatch_schedule, filter_app.
  rewrite (pendingFor_perm team _ _ (placeMatch_events_perm st task idx)), pendingFor_app.
  cbn [filter]. rewrite (involves_entry task team (entryOf st task idx) Hof eq_refl).
  rewrite pendingFor_cons, endEvent_involves.
  change (pendingFor team []) with 0%nat.
  change (st_teamStates (placeMatch env st task idx (st_time st)))
    with (fold_left (occupyTeam env (m_id (task_match task))) (getTeamIds (task_match task))
            (st_teamStates st)).
  change (st_time (placeMatch env st task idx (st_time st))) with (st_time st).
  set (mine := filter (involves matches team) (st_schedule st)) in *.
  destruct (existsb (Id_eqb team) (getTeamIds (task_match task))) eqn:Ein.
  - apply existsb_Id_In in Ein.
    destruct (occupy_all_same env (m_id (task_match task)) _ team (st_teamStates st) Ein)
      as (state' & -> & ->).
    pose proof (areTeamsAvailable_each _ _ _ team Havail Ein) as Hfree.
    assert (Hold : pendingFor team (st_events st) = 0%nat
                   /\ forall s, In s mine -> s_endTime s <= st_time st).
    { destruct (Map_get TeamKey_eq_dec (Some team) (st_teamStates st)) as [state|].
      - destruct Hfree as [Hcur _]. rewrite Hcur in Hok. tauto.
      - destruct Hok as [-> ->]. split; [reflexivity|intros s []]. }
    destruct Hold as [Hcount Hends].
    split; [lia|]. exists (entryOf st task idx).
    split; [apply lastOf_app_single|]. split.
    + intros ev Hev Hinv.
      apply (Permutation_in _ (placeMatch_events_perm st task idx)) in Hev.
      apply in_app_iff in Hev. destruct Hev as [Hev|[<-|[]]]; [|reflexivity].
      rewrite (pendingFor_zero team _ Hcount ev Hev) in Hinv. discriminate.
    + rewrite removelast_last. exact Hends.
  - rewrite app_nil_r, !Nat.add_0_r.
    rewrite occupy_all_other.
    2:{ intros t Ht E. inversion E; subst.
        apply existsb_Id_In in Ht. congruence. }
    destruct (Map_get TeamKey_eq_dec (Some team) (st_teamStates st)) as [state|];
      [|exact Hok].
    destruct (ts_currentMatch state); [|exact Hok].
    destruct Hok as (Hcount & s & Hlast & Htimes & Hbefore).
    split; [exact Hcount|]. exists s. repeat split; auto.
    intros ev Hev Hinv.
    apply (Permutation_in _ (placeMatch_events_perm st task idx)) in Hev.
    apply in_app_iff in Hev. destruct Hev as [Hev|[<-|[]]]; [auto|].
    rewrite endEvent_involves in Hinv. congruence.
Qed.

Lemma TeamOk_advance st t team :
  st_time st < t -> TeamOk matches restMs st team -> TeamOk matches restMs (setTime st t) team.
Proof.
  intros Ht Hok. unfold TeamOk in *. cbn [setTime st_schedule st_teamStates st_events st_time].
  destruct (Map_get TeamKey_eq_dec (Some team) (st_teamStates st)) as [state|]; [|exact Hok].
  destruct (ts_currentMatch state).
  - destruct Hok as (Hcount & s & Hlast & Htimes & Hbefore).
    split; [exact Hcount|]. exists s. repeat split; auto.
    intros s' Hs'. specialize (Hbefore s' Hs'). lia.
  - destruct Hok as (Hcount & Hends & Hrest). repeat split; auto.
    intros s Hs. specialize (Hends s Hs). lia.
Qed.

(** At a placement the teams of the new match are idle: all their earlier
    matches are over and the rest after the last one has elapsed. *)
Lemma idle_team_facts st task team :
  areTeamsAvailable (task_match task) (st_time st) (st_teamStates st) = true ->
  In team (getTeamIds (task_match task)) ->
  TeamOk matches restMs st team ->
  (forall s, In s (filter (involves matches team) (st_schedule st)) ->
     s_endTime s <= st_time st)
  /\ (forall s, lastOf (filter (involves matches team) (st_schedule st)) = Some s ->
        s_endTime s + restMs <= st_time st).
Proof.
  intros Havail Hin Hok. unfold TeamOk in Hok.
  pose proof (areTeamsAvailable_each _ _ _ team Havail Hin) as Hfree.
  destruct (Map_get TeamKey_eq_dec (Some team) (st_teamStates st)) as [state|].
  - destruct Hfree as [Hcur Hle]. rewrite Hcur in Hok.
    destruct Hok as (_ & Hends & Hrest). split; [exact Hends|].
    intros s Hs. rewrite <- (Hrest s Hs). exact Hle.
  - destruct Hok as [-> _]. split; [intros s []|discriminate].
Qed.

Lemma TeamInv_step st st' :
  TeamInv matches restMs st -> Step lc env st st' -> TeamInv matches restMs st'.
Proof.
  intros Hinv Hstep. destruct Hinv as [Hmm Hq Hteam Hrest Hapart Hstarted Hord].
  destruct Hstep as [st ev rest Hev Hle|st task idx avail Hf Hin Ha Hc Hle|st t Hf Ht].
  - assert (Hg : GraphOk matches (st_matchMap (processEvent lc env (withEvents st rest) ev),
                          st_queue (processEvent lc env (withEvents st rest) ev))).
    { rewrite processEvent_graph. apply unlock_all_ok. split; assumption. }
    destruct Hg as [Hg1 Hg2].
    constructor; try assumption.
    + intros team. now apply TeamOk_fire.
    + now rewrite processEvent_schedule.
    + now rewrite processEvent_schedule.
    + rewrite processEvent_schedule, processEvent_time. exact Hstarted.
    + now rewrite processEvent_schedule.
  - rewrite (placement_time _ _ _ _ _ Hle).
    pose proof (Hq task Hin) as Hof.
    constructor.
    + exact Hmm.
    + intros t Ht. apply Hq. eapply remove_subset. exact Ht.
    + intros team. now apply TeamOk_place.
    + intros team. rewrite placeMatch_schedule, filter_app. cbn [filter].
      rewrite (involves_entry task team (entryOf st task idx) Hof eq_refl).
      destruct (existsb (Id_eqb team) (getTeamIds (task_match task))) eqn:Ein.
      * apply Sorted_app_single; [apply Hrest|].
        intros s Hs. apply existsb_Id_In in Ein.
        destruct (idle_team_facts st task team Ha Ein (Hteam team)) as [_ Hlast].
        unfold restedAfter. simpl. now apply Hlast.
      * rewrite app_nil_r. apply Hrest.
    + rewrite placeMatch_schedule. apply StronglySorted_app_single; [exact Hapart|].
      apply Forall_forall. intros s Hs team Hs1 Hs2.
      rewrite (involves_entry task team (entryOf st task idx) Hof eq_refl) in Hs2.
      apply existsb_Id_In in Hs2.
      destruct (idle_team_facts st task team Ha Hs2 (Hteam team)) as [Hends _].
      simpl. apply Hends. apply filter_In. now split.
    + intros s Hs. rewrite placeMatch_schedule in Hs. apply in_app_iff in Hs.
      change (st_time (placeMatch env st task idx (st_time st))) with (st_time st).
      destruct Hs as [Hs|[<-|[]]]; [auto|simpl; lia].
    + rewrite placeMatch_schedule. apply Sorted_app_single; [exact Hord|].
      intros s Hs. unfold compareStart. simpl.
      assert (In s (st_schedule st)).
      { rewrite (lastOf_split _ _ Hs). apply in_app_iff. right. now left. }
      specialize (Hstarted s H). lia.
  - constructor; try assumption.
    + intros team. now apply TeamOk_advance.
    + intros s Hs. specialize (Hstarted s Hs). simpl. lia.
Qed.

Lemma TeamInv_reachable st0 st :
  TeamInv matches restMs st0 -> Reachable lc env st0 st -> TeamInv matches restMs st.
Proof.
  intros H0 Hr. induction Hr; [assumption|]. eapply TeamInv_step; eauto.
Qed.
End TeamInvariant.

(** ** The dependency graph built from the match list *)

Lemma Map_get_of_In {K V : Type} (dec : forall a b : K, {a = b} + {a <> b})
    (k : K) (v : V) (m : list (K * V)) :
  NoDup (map fst m) -> In (k, v) m -> Map_get dec k m = Some v.
Proof.
  induction m as [|[k' v'] m IH]; simpl; intros Hnd Hin; [destruct Hin|].
  inversion Hnd as [|? ? Hnotin Hnd']; subst.
  destruct Hin as [E|Hin].
  - inversion E; subst. destruct (dec k k); congruence.
  - destruct (dec k k') as [->|Hne]; [|now apply IH].
    exfalso. apply Hnotin. apply in_map_iff. now exists (k', v).
Qed.

Lemma Map_set_In_inv {K V : Type} (dec : forall a b : K, {a = b} + {a <> b})
    (k k' : K) (v v' : V) (m : list (K * V)) :
  In (k', v') (Map_set dec k v m) -> (k' = k /\ v' = v) \/ In (k', v') m.
Proof.
  induction m as [|[k0 v0] m IH]; simpl.
  - intros [E|[]]. inversion E. now left.
  - destruct (dec k k0) as [->|Hne]; simpl.
    + intros [E|H]; [inversion E; now left|right; now right].
    + intros [E|H]; [right; now left|]. destruct (IH H); [now left|right; now right].
Qed.

Section GraphFacts.
Variable matches : list Match.

Lemma buildGraph_fst (ms : list Match) acc :
  fst (fold_left
         (fun acc m =>
            (Map_set Id_eq_dec (m_id m)
               {| task_match := m; remainingDependencies := Set_of (depsOf m) |} (fst acc),
             fold_left (addDependent (m_id m)) (depsOf m) (snd acc))) ms acc)
  = fold_left
      (fun mm m =>
         Map_set Id_eq_dec (m_id m)
           {| task_match := m; remainingDependencies := Set_of (depsOf m) |} mm)
      ms (fst acc).
Proof. revert acc. induction ms as [|m ms IH]; intros acc; simpl; [reflexivity|apply IH]. Qed.

Lemma buildGraph_snd (ms : list Match) acc :
  snd (fold_left
         (fun acc m =>
            (Map_set Id_eq_dec (m_id m)
               {| task_match := m; remainingDependencies := Set_of (depsOf m) |} (fst acc),
             fold_left (addDependent (m_id m)) (depsOf m) (snd acc))) ms acc)
  = fold_left (fun dependents m => fold_left (addDependent (m_id m)) (depsOf m) dependents)
      ms (snd acc).
Proof. revert acc. induction ms as [|m ms IH]; intros acc; simpl; [reflexivity|apply IH]. Qed.

(** The task map and the match index of the validator hold the same
    matches under the same keys, in the same order. *)
Lemma taskMap_index (ms : list Match) (mm : list (Id * MatchTask)) :
  map (fun kt => (fst kt, task_match (snd kt)))
    (fold_left
       (fun mm m =>
          Map_set Id_eq_dec (m_id m)
            {| task_match := m; remainingDependencies := Set_of (depsOf m) |} mm) ms mm)
  = fold_left (fun m e => Map_set Id_eq_dec (fst e) (snd e) m)
      (map (fun m => (m_id m, m)) ms)
      (map (fun kt => (fst kt, task_match (snd kt))) mm).
Proof.
  revert mm. induction ms as [|m ms IH]; intros mm; simpl; [reflexivity|].
  rewrite IH. f_equal. clear IH.
  induction mm as [|[k t] mm IHmm]; simpl; [reflexivity|].
  destruct (Id_eq_dec (m_id m) k); simpl; [reflexivity|]. now rewrite IHmm.
Qed.

Lemma buildGraph_index :
  map (fun kt => (fst kt, task_match (snd kt))) (fst (buildGraph matches))
  = matchIndex matches.
Proof. unfold buildGraph. rewrite buildGraph_fst. apply (taskMap_index matches []). Qed.

Lemma Map_of_acc_keys {V : Type} (entries acc : list (Id * V)) :
  NoDup (map fst acc) ->
  NoDup (map fst (fold_left (fun m e => Map_set Id_eq_dec (fst e) (snd e) m) entries acc)).
Proof.
  revert acc. induction entries as [|e entries IH]; intros acc H; simpl; [assumption|].
  apply IH. now apply Map_set_keys_NoDup.
Qed.

Lemma matchIndex_keys_NoDup : NoDup (map fst (matchIndex matches)).
Proof. apply Map_of_acc_keys. constructor. Qed.

Lemma matchIndex_entries_acc (ms : list Match) (acc : list (Id * Match)) k m :
  (forall k m, In (k, m) acc -> m_id m = k /\ (In m matches)) ->
  (forall m, In m ms -> In m matches) ->
  In (k, m)
    (fold_left (fun mm e => Map_set Id_eq_dec (fst e) (snd e) mm)
       (map (fun m => (m_id m, m)) ms) acc) ->
  m_id m = k /\ In m matches.
Proof.
  revert acc. induction ms as [|x ms IH]; intros acc Hacc Hms; simpl; [apply Hacc|].
  apply IH; [|intros; apply Hms; now right].
  intros k' m' Hin. apply Map_set_In_inv in Hin. destruct Hin as [[-> ->]|Hin].
  - split; [reflexivity|apply Hms; now left].
  - now apply Hacc.
Qed.

Lemma matchOf_id matchId m : matchOf matches matchId = Some m -> m_id m = matchId /\ In m matches.
Proof.
  unfold matchOf. intros H. apply Map_get_In in H.
  eapply (matchIndex_entries_acc matches []); [intros ? ? []|auto|exact H].
Qed.

Lemma buildGraph_keys_NoDup : NoDup (map fst (fst (buildGraph matches))).
Proof.
  assert (E : map fst (fst (buildGraph matches)) = map fst (matchIndex matches)).
  { rewrite <- buildGraph_index, map_map. reflexivity. }
  rewrite E. apply matchIndex_keys_NoDup.
Qed.

Lemma taskMap_remaining (ms : list Match) (acc : list (Id * MatchTask)) k t :
  (forall k t, In (k, t) acc ->
     remainingDependencies t = Set_of (depsOf (task_match t))) ->
  In (k, t)
    (fold_left
       (fun mm m =>
          Map_set Id_eq_dec (m_id m)
            {| task_match := m; remainingDependencies := Set_of (depsOf m) |} mm)
       ms acc) ->
  remainingDependencies t = Set_of (depsOf (task_match t)).
Proof.
  revert acc. induction ms as [|x ms IH]; intros acc Hacc; simpl; [apply Hacc|].
  apply IH. intros k1 t1 H1. apply Map_set_In_inv in H1.
  destruct H1 as [[-> ->]|H1]; [reflexivity|eauto].
Qed.

Lemma buildGraph_entry k task :
  In (k, task) (fst (buildGraph matches)) ->
  matchOf matches k = Some (task_match task) /\ m_id (task_match task) = k
  /\ remainingDependencies task = Set_of (depsOf (task_match task)).
Proof.
  intros Hin.
  assert (Hin' : In (k, task_match task) (matchIndex matches)).
  { rewrite <- buildGraph_index. apply in_map_iff. now exists (k, task). }
  assert (Hget : matchOf matches k = Some (task_match task)).
  { apply Map_get_of_In; [apply matchIndex_keys_NoDup|assumption]. }
  split; [assumption|]. split; [apply (matchOf_id k _ Hget)|].
  unfold buildGraph in Hin. rewrite buildGraph_fst in Hin.
  eapply taskMap_remaining; [|exact Hin]. intros ? ? [].
Qed.

Lemma initialQueue_from lc (mm : list (Id * MatchTask)) (acc : list MatchTask) task :
  In task
    (fold_left
       (fun queue kv =>
          if Nat.eqb (length (remainingDependencies (snd kv))) 0
          then MatchQueue_enqueue lc (snd kv) queue
          else queue) mm acc) ->
  In task acc
  \/ exists k, In (k, task) mm /\ remainingDependencies task = [].
Proof.
  revert acc. induction mm as [|[k t] mm IH]; intros acc; simpl; [now left|].
  intros H. apply IH in H. destruct H as [H|(k' & H1 & H2)].
  - destruct (length (remainingDependencies t)) eqn:E; simpl in H.
    + unfold MatchQueue_enqueue in H. apply array_sort_In, in_app_iff in H.
      destruct H as [H|[<-|[]]]; [now left|].
      right. exists k. split; [now left|]. now apply length_zero_iff_nil.
    + now left.
  - right. exists k'. split; [now right|assumption].
Qed.

Lemma scheduleInit_TeamInv lc courts start restMs :
  TeamInv matches restMs (scheduleInit lc matches courts start).
Proof.
  constructor; simpl.
  - intros k task H. apply Map_get_In, buildGraph_entry in H. tauto.
  - intros task H. unfold initialQueue in H. apply initialQueue_from in H.
    destruct H as [[]|(k & H & _)]. apply buildGraph_entry in H.
    destruct H as (H1 & H2 & _). now rewrite H2.
  - intros team. unfold TeamOk. simpl. now split.
  - intros team. constructor.
  - constructor.
  - intros s [].
  - constructor.
Qed.
End GraphFacts.

(** ** Rest time and double booking *)

Section TeamTheorems.
Variable lc : string -> string -> Z.

Lemma schedule_loop_invariant fuel now matches courts config r :
  scheduleMatches lc fuel now matches courts config = Returned r ->
  exists st,
    TeamInv matches (restTime config * MS_PER_MINUTE) st
    /\ length (st_schedule st) = length matches
    /\ schedule r = st_schedule st.
Proof.
  intros H. apply scheduleMatches_returned in H.
  destruct H as (st & Hrun & Hlen & -> & _). exists st.
  apply runLoop_reachable in Hrun.
  assert (Hinv : TeamInv matches (restTime config * MS_PER_MINUTE) st).
  { eapply (TeamInv_reachable lc _ matches _ st) in Hrun; [exact Hrun|].
    apply scheduleInit_TeamInv. }
  split; [exact Hinv|]. split; [exact Hlen|].
  simpl. apply array_sort_sorted_id. apply Hinv.
Qed.



End TeamTheorems.

(** ** The reverse dependency map *)

Lemma addDependent_setAt X d depId e :
  setAt e (addDependent X d depId)
  = if Id_eq_dec depId e then Set_add X (setAt e d) else setAt e d.
Proof.
  unfold addDependent, Map_has, setAt.
  destruct (Map_get Id_eq_dec depId d) as [s|] eqn:Hd.
  - rewrite Hd. destruct (Id_eq_dec depId e) as [<-|Hne].
    + now rewrite Map_get_set_same, Hd.
    + now rewrite Map_get_set_other.
  - rewrite Map_get_set_same. destruct (Id_eq_dec depId e) as [<-|Hne].
    + now rewrite Map_get_set_same, Hd.
    + now rewrite !Map_get_set_other.
Qed.

Lemma addDependents_setAt X deps e : forall d,
  (forall Y, In Y (setAt e (fold_left (addDependent X) deps d))
             <-> In Y (setAt e d) \/ (Y = X /\ In e deps))
  /\ (NoDup (setAt e d) -> NoDup (setAt e (fold_left (addDependent X) deps d))).
Proof.
  induction deps as [|depId deps IH]; intros d; simpl.
  - split; [intros Y; tauto|auto].
  - destruct (IH (addDependent X d depId)) as [H1 H2].
    rewrite addDependent_setAt in H1, H2. split.
    + intros Y. rewrite H1. destruct (Id_eq_dec depId e) as [->|Hne].
      * rewrite Set_add_In. intuition.
      * intuition congruence.
    + intros Hnd. apply H2. destruct (Id_eq_dec depId e); [now apply Set_add_NoDup|assumption].
Qed.

Lemma allDependents_setAt (ms : list Match) e : forall d,
  let d' := fold_left
              (fun dependents m => fold_left (addDependent (m_id m)) (depsOf m) dependents)
              ms d in
  (forall Y, In Y (setAt e d')
             <-> In Y (setAt e d) \/ exists m, In m ms /\ m_id m = Y /\ In e (depsOf m))
  /\ (NoDup (setAt e d) -> NoDup (setAt e d')).
Proof.
  induction ms as [|m ms IH]; intros d; simpl.
  - split; [|auto]. intros Y. split; [tauto|]. intros [H|(m & [] & _)]. exact H.
  - destruct (IH (fold_left (addDependent (m_id m)) (depsOf m) d)) as [H1 H2].
    destruct (addDependents_setAt (m_id m) (depsOf m) e d) as [G1 G2].
    split.
    + intros Y. rewrite H1, G1. split.
      * intros [[H|[-> H]]|(m' & Hin & Hid & Hd)]; auto.
        -- right. exists m. auto.
        -- right. exists m'. auto.
      * intros [H|(m' & [<-|Hin] & Hid & Hd)]; auto.
        right. exists m'. auto.
    + intros Hnd. auto.
Qed.

Lemma buildGraph_DependentsOk matches config start :
  DependentsOk matches (scheduleEnv config start (snd (buildGraph matches))).
Proof.
  intros e. unfold dependentsOf, scheduleEnv. cbn [env_dependents].
  unfold buildGraph. rewrite buildGraph_snd. cbn [snd].
  destruct (allDependents_setAt matches e []) as [H1 H2]. split.
  - apply H2. constructor.
  - intros X. rewrite H1. unfold setAt. simpl. intuition.
Qed.

(** ** Unlocking the dependents of a finished match *)

Lemma Set_delete_idem x s : Set_delete x (Set_delete x s) = Set_delete x s.
Proof.
  unfold Set_delete. induction s as [|y s IH]; simpl; [reflexivity|].
  destruct (negb (Id_eqb x y)) eqn:E; simpl; [rewrite E|]; now rewrite IH.
Qed.

Lemma satisfy_idem e t : satisfy e (satisfy e t) = satisfy e t.
Proof. unfold satisfy. simpl. now rewrite Set_delete_idem. Qed.

Section Unlock.
Variable lc : string -> string -> Z.

Lemma unlock_get e (D : list Id) : forall mm q X,
  Map_get Id_eq_dec X (fst (fold_left (unlockDependent lc e) D (mm, q)))
  = match Map_get Id_eq_dec X mm with
    | Some t => Some (if in_dec Id_eq_dec X D then satisfy e t else t)
    | None => None
    end.
Proof.
  induction D as [|d D IH]; intros mm q X; simpl.
  - destruct (Map_get Id_eq_dec X mm); reflexivity.
  - unfold unlockDependent at 2. cbn [fst snd].
    destruct (Map_get Id_eq_dec d mm) as [depTask|] eqn:Hd.
    + assert (E : forall q',
                Map_get Id_eq_dec X
                  (fst (fold_left (unlockDependent lc e) D
                          (Map_set Id_eq_dec d (satisfy e depTask) mm, q')))
                = match Map_get Id_eq_dec X mm with
                  | Some t =>
                      Some (if match Id_eq_dec d X with
                               | left _ => left I
                               | right _ =>
                                   match in_dec Id_eq_dec X D with
                                   | left _ => left I
                                   | right _ => right I
                                   end
                               end then satisfy e t else t)
                  | None => None
                  end).
      { intros q'. rewrite IH. destruct (Id_eq_dec d X) as [<-|Hne].
        - rewrite Map_get_set_same, Hd.
          destruct (in_dec Id_eq_dec d D); [now rewrite satisfy_idem|reflexivity].
        - rewrite Map_get_set_other by assumption.
          destruct (Map_get Id_eq_dec X mm); [|reflexivity].
          destruct (in_dec Id_eq_dec X D); reflexivity. }
      destruct (Nat.eqb _ 0); rewrite E;
        destruct (Map_get Id_eq_dec X mm); try reflexivity;
        destruct (Id_eq_dec d X), (in_dec Id_eq_dec X D); reflexivity.
    + rewrite IH. destruct (Id_eq_dec d X) as [<-|Hne].
      * now rewrite Hd.
      * destruct (Map_get Id_eq_dec X mm); [|reflexivity].
        destruct (in_dec Id_eq_dec X D); reflexivity.
Qed.

Lemma enqueue_ids task q :
  Permutation (map taskId (MatchQueue_enqueue lc task q)) (map taskId q ++ [taskId task]).
Proof.
  unfold MatchQueue_enqueue.
  rewrite (Permutation_map taskId (array_sort_perm (compareTasks lc) (q ++ [task]))).
  now rewrite map_app.
Qed.

Lemma unlock_queue e (D : list Id) : forall mm q,
  NoDup D ->
  (forall X t, Map_get Id_eq_dec X mm = Some t -> taskId t = X) ->
  Permutation (map taskId (snd (fold_left (unlockDependent lc e) D (mm, q))))
    (map taskId q ++ filter (readyAfter e mm) D).
Proof.
  induction D as [|d D IH]; intros mm q Hnd Hid; cbn [fold_left filter].
  - now rewrite app_nil_r.
  - inversion Hnd as [|? ? Hnotin Hnd']; subst.
    unfold unlockDependent at 2. cbn [fst snd].
    destruct (Map_get Id_eq_dec d mm) as [depTask|] eqn:Hd.
    + assert (Hr : readyAfter e mm d
                   = Nat.eqb (length (remainingDependencies (satisfy e depTask))) 0).
      { unfold readyAfter. now rewrite Hd. }
      rewrite Hr.
      assert (Hid' : forall X t,
                Map_get Id_eq_dec X (Map_set Id_eq_dec d (satisfy e depTask) mm) = Some t ->
                taskId t = X).
      { intros X t. destruct (Id_eq_dec d X) as [<-|Hne].
        - rewrite Map_get_set_same. intros H; inversion H; subst.
          unfold taskId, satisfy. simpl. now apply (Hid d depTask).
        - rewrite Map_get_set_other by assumption. apply Hid. }
      assert (Hready : filter (readyAfter e (Map_set Id_eq_dec d (satisfy e depTask) mm)) D
                       = filter (readyAfter e mm) D).
      { apply filter_ext_in. intros X HX. unfold readyAfter.
        rewrite Map_get_set_other; [reflexivity|]. intros ->. tauto. }
      destruct (Nat.eqb (length (remainingDependencies (satisfy e depTask))) 0) eqn:E.
      * rewrite IH by assumption. rewrite Hready.
        rewrite (enqueue_ids (satisfy e depTask) q).
        assert (Et : taskId (satisfy e depTask) = d).
        { unfold taskId, satisfy. simpl. now apply (Hid d depTask). }
        rewrite Et, <- app_assoc. reflexivity.
      * rewrite IH by assumption. now rewrite Hready.
    + assert (Hr : readyAfter e mm d = false).
      { unfold readyAfter. now rewrite Hd. }
      rewrite Hr. now apply IH.
Qed.

Lemma initialQueue_ids (mm : list (Id * MatchTask)) : forall acc,
  (forall k t, In (k, t) mm -> taskId t = k) ->
  Permutation
    (map taskId
       (fold_left
          (fun queue kv =>
             if Nat.eqb (length (remainingDependencies (snd kv))) 0
             then MatchQueue_enqueue lc (snd kv) queue
             else queue) mm acc))
    (map taskId acc
     ++ map fst (filter (fun kv => Nat.eqb (length (remainingDependencies (snd kv))) 0) mm)).
Proof.
  induction mm as [|[k t] mm IH]; intros acc Hid; simpl.
  - now rewrite app_nil_r.
  - rewrite IH by (intros; apply Hid; now right).
    destruct (Nat.eqb (length (remainingDependencies t)) 0); simpl.
    + rewrite (enqueue_ids t acc), <- app_assoc. simpl.
      now rewrite (Hid k t) by now left.
    + reflexivity.
Qed.
End Unlock.

Lemma filter_keeps_distinct {X Y : Type} (key : X -> Y) (keep : X -> bool) :
  forall xs : list X, NoDup (map key xs) -> NoDup (map key (filter keep xs)).
Proof.
  intros xs. induction xs as [|x xs IH]; simpl; intros H; [constructor|].
  inversion H as [|? ? Hnotin Hnd]; subst.
  destruct (keep x); simpl; [|auto]. constructor; [|auto].
  intros Hin. apply Hnotin. apply in_map_iff in Hin. destruct Hin as (y & E & Hy).
  apply filter_In in Hy. apply in_map_iff. exists y. tauto.
Qed.

Lemma NoDup_map_inj {A B : Type} (f : A -> B) (l : list A) a b :
  NoDup (map f l) -> In a l -> In b l -> f a = f b -> a = b.
Proof.
  induction l as [|x l IH]; simpl; intros Hnd Ha Hb E; [destruct Ha|].
  inversion Hnd as [|? ? Hnotin Hnd']; subst.
  destruct Ha as [<-|Ha], Hb as [<-|Hb]; auto.
  - exfalso. apply Hnotin. rewrite E. now apply in_map.
  - exfalso. apply Hnotin. rewrite <- E. now apply in_map.
Qed.

Lemma remove_ids (q : list MatchTask) X :
  NoDup (map taskId q) ->
  NoDup (map taskId (MatchQueue_remove X q))
  /\ forall Y, In Y (map taskId (MatchQueue_remove X q)) <-> In Y (map taskId q) /\ Y <> X.
Proof.
  induction q as [|t q IH]; simpl; intros Hnd.
  - split; [constructor|]. intros Y. tauto.
  - inversion Hnd as [|? ? Hnotin Hnd']; subst.
    destruct (Id_eqb (m_id (task_match t)) X) eqn:E.
    + apply Id_eqb_eq in E. split; [assumption|].
      intros Y. split.
      * intros HY. split; [now right|]. intros ->. apply Hnotin.
        unfold taskId at 1. now rewrite E.
      * intros [[HY|HY] Hne]; [|assumption]. unfold taskId in HY. congruence.
    + apply Id_eqb_neq in E. destruct (IH Hnd') as [H1 H2]. simpl. split.
      * constructor; [|assumption]. intros Hin. apply H2 in Hin. tauto.
      * intros Y. rewrite H2. split.
        -- intros [<-|[HY Hne]]; [split; [now left|exact E]|split; [now right|assumption]].
        -- intros [[HY|HY] Hne]; [now left|right; tauto].
Qed.

(** ** The dependency invariant is kept by every transition *)

Section DepInvariant.
Variable lc : string -> string -> Z.
Variable env : LoopEnv.
Variable matches : list Match.
Hypothesis Hids : NoDup (map m_id matches).
Hypothesis Hdeps : DependentsOk matches env.

Lemma same_id_same_match m m' :
  In m matches -> In m' matches -> m_id m = m_id m' -> m = m'.
Proof. apply NoDup_map_inj, Hids. Qed.

Lemma processEvent_matchMap st ev :
  st_matchMap (processEvent lc env st ev)
  = fst (fold_left (unlockDependent lc (ev_matchId ev)) (dependentsOf env (ev_matchId ev))
           (st_matchMap st, st_queue st)).
Proof. now rewrite <- processEvent_graph. Qed.

Lemma processEvent_queue st ev :
  st_queue (processEvent lc env st ev)
  = snd (fold_left (unlockDependent lc (ev_matchId ev)) (dependentsOf env (ev_matchId ev))
           (st_matchMap st, st_queue st)).
Proof. now rewrite <- processEvent_graph. Qed.

(** A dependent of [e] still waits for [e] as long as [e] has not fired. *)
Lemma dependent_waits st e X t :
  MatchMapOk matches st -> DepInv matches st ->
  ~ fired st e ->
  In X (dependentsOf env e) ->
  Map_get Id_eq_dec X (st_matchMap st) = Some t ->
  In e (remainingDependencies t).
Proof.
  intros Hmm Hinv Hnf HX Hget.
  apply (dep_remaining _ _ Hinv X t Hget). split; [|assumption].
  destruct (Hdeps e) as [_ Hspec]. apply Hspec in HX.
  destruct HX as (m & Hm & Hid & He).
  destruct (Hmm X t Hget) as [Hof Hid'].
  destruct (matchOf_id matches X _ Hof) as [_ Hin].
  assert (m = task_match t) by (apply same_id_same_match; congruence).
  now subst.
Qed.

Lemma DepInv_fire st ev rest :
  MatchMapOk matches st ->
  st_events st = ev :: rest -> ev_time ev <= st_time st ->
  DepInv matches st ->
  DepInv matches (processEvent lc env (withEvents st rest) ev).
Proof.
  intros Hmm Hev Hle Hinv.
  set (e := ev_matchId ev).
  set (D := dependentsOf env e).
  pose proof (dep_events_nodup _ _ Hinv) as Hnd. rewrite Hev in Hnd. simpl in Hnd.
  inversion Hnd as [|? ? Hfresh Hnd']; subst.
  destruct (dep_events_placed _ _ Hinv ev) as (s0 & Hs0 & Hs0id & Hs0end);
    [rewrite Hev; now left|].
  assert (Hplaced : In e (map s_matchId (st_schedule st))).
  { apply in_map_iff. exists s0. split; [exact Hs0id|exact Hs0]. }
  assert (Hnf : ~ fired st e).
  { intros [_ H]. apply H. rewrite Hev. now left. }
  assert (Hfired : forall x,
            fired (processEvent lc env (withEvents st rest) ev) x
            <-> fired st x \/ x = e).
  { intros x. unfold fired.
    rewrite processEvent_schedule, processEvent_events. cbn [withEvents st_schedule st_events].
    rewrite Hev. simpl. fold e. split.
    - intros [H1 H2]. destruct (Id_eq_dec x e) as [->|Hne]; [now right|].
      left. split; [assumption|]. intros [E|E]; [congruence|tauto].
    - intros [[H1 H2]| ->]; [split; [assumption|tauto]|now split]. }
  assert (Hget : forall X task,
            Map_get Id_eq_dec X (st_matchMap (processEvent lc env (withEvents st rest) ev))
            = Some task ->
            exists t, Map_get Id_eq_dec X (st_matchMap st) = Some t
                      /\ task = (if in_dec Id_eq_dec X D then satisfy e t else t)).
  { intros X task. rewrite processEvent_matchMap. cbn [withEvents st_matchMap st_queue].
    fold e. fold D. rewrite unlock_get.
    destruct (Map_get Id_eq_dec X (st_matchMap st)) as [t|]; [|discriminate].
    intros H; inversion H; subst. now exists t. }
  assert (Hqueue : Permutation
                     (map taskId (st_queue (processEvent lc env (withEvents st rest) ev)))
                     (map taskId (st_queue st) ++ filter (readyAfter e (st_matchMap st)) D)).
  { rewrite processEvent_queue. cbn [withEvents st_matchMap st_queue]. fold e. fold D.
    apply unlock_queue; [apply Hdeps|].
    intros X t Ht. apply (Hmm X t Ht). }
  assert (Hnew : forall X, In X (filter (readyAfter e (st_matchMap st)) D) ->
            exists t, Map_get Id_eq_dec X (st_matchMap st) = Some t
                      /\ In X D
                      /\ remainingDependencies (satisfy e t) = []
                      /\ In e (remainingDependencies t)).
  { intros X HX. apply filter_In in HX. destruct HX as [HD Hr].
    unfold readyAfter in Hr.
    destruct (Map_get Id_eq_dec X (st_matchMap st)) as [t|] eqn:Ht; [|discriminate].
    exists t. repeat split; auto.
    - apply Nat.eqb_eq in Hr. now apply length_zero_iff_nil.
    - eapply dependent_waits; eauto. }
  assert (Hfreshnew : forall X, In X (filter (readyAfter e (st_matchMap st)) D) ->
            ~ In X (map taskId (st_queue st))
            /\ ~ In X (map s_matchId (st_schedule st))).
  { intros X HX. destruct (Hnew X HX) as (t & Ht & _ & _ & Hwait).
    split; intros Hin.
    - rewrite (dep_ready _ _ Hinv X t Ht) in Hwait; [destruct Hwait|now left].
    - rewrite (dep_ready _ _ Hinv X t Ht) in Hwait; [destruct Hwait|now right]. }
  constructor.
  - rewrite processEvent_schedule. apply Hinv.
  - rewrite processEvent_schedule. apply Hinv.
  - rewrite processEvent_events. exact Hnd'.
  - rewrite processEvent_events, processEvent_schedule.
    cbn [withEvents st_schedule st_events]. intros ev' Hev'.
    apply (dep_events_placed _ _ Hinv). rewrite Hev. now right.
  - rewrite processEvent_events, processEvent_schedule, processEvent_time.
    cbn [withEvents st_schedule st_events st_time]. intros s Hs.
    destruct (dep_fired_over _ _ Hinv s Hs) as [Hin|Hover]; [|now right].
    rewrite Hev in Hin. simpl in Hin. destruct Hin as [E|Hin]; [|now left].
    right. assert (s = s0).
    { apply (NoDup_map_inj s_matchId (st_schedule st)); auto.
      - apply Hinv.
      - rewrite Hs0id. symmetry. exact E. }
    subst. lia.
  - intros X task HX x. destruct (Hget X task HX) as (t & Ht & ->).
    rewrite Hfired.
    pose proof (dep_remaining _ _ Hinv X t Ht x) as Hold.
    destruct (in_dec Id_eq_dec X D) as [HD|HD].
    + unfold satisfy. simpl. rewrite Set_delete_In, Hold. split.
      * intros [[H1 H2] H3]. split; [assumption|]. intros [H|H]; tauto.
      * intros [H1 H2]. split; [split; [assumption|tauto]|]. intros ->. tauto.
    + rewrite Hold. split.
      * intros [H1 H2]. split; [assumption|]. intros [H| ->]; [tauto|].
        apply HD. apply (proj2 (Hdeps e)). exists (task_match t).
        destruct (Hmm X t Ht) as [Hof Hid].
        destruct (matchOf_id matches X _ Hof) as [_ Hin]. auto.
      * intros [H1 H2]. split; [assumption|tauto].
  - apply (Permutation_NoDup (Permutation_sym Hqueue)).
    apply NoDup_app.
    + apply Hinv.
    + apply NoDup_filter, Hdeps.
    + intros X H1 H2. apply (proj1 (Hfreshnew X H2)). exact H1.
  - rewrite processEvent_schedule. cbn [withEvents st_schedule]. intros X HX.
    apply (Permutation_in _ Hqueue), in_app_iff in HX.
    destruct HX as [HX|HX]; [now apply (dep_queue_unplaced _ _ Hinv)|].
    now apply Hfreshnew.
  - rewrite processEvent_schedule. cbn [withEvents st_schedule].
    intros X task HX Hwhere. destruct (Hget X task HX) as (t & Ht & ->).
    assert (Hcases : (In X (map taskId (st_queue st))
                      \/ In X (map s_matchId (st_schedule st)))
                     \/ In X (filter (readyAfter e (st_matchMap st)) D)).
    { destruct Hwhere as [H|H]; [|now left; right].
      apply (Permutation_in _ Hqueue), in_app_iff in H. tauto. }
    destruct Hcases as [Hold|Hfresh'].
    + pose proof (dep_ready _ _ Hinv X t Ht Hold) as Hnil.
      destruct (in_dec Id_eq_dec X D); [|assumption].
      unfold satisfy. simpl. now rewrite Hnil.
    + destruct (Hnew X Hfresh') as (t' & Ht' & HD & Hnil & _).
      rewrite Ht in Ht'. inversion Ht'; subst.
      destruct (in_dec Id_eq_dec X D); [assumption|tauto].
  - intros t Ht.
    assert (Hin : In (taskId t)
                    (map taskId (st_queue (processEvent lc env (withEvents st rest) ev)))).
    { now apply in_map. }
    apply (Permutation_in _ Hqueue), in_app_iff in Hin.
    assert (Hold : exists t0, Map_get Id_eq_dec (taskId t) (st_matchMap st) = Some t0).
    { destruct Hin as [Hin|Hin].
      - apply in_map_iff in Hin. destruct Hin as (t1 & E & Ht1).
        rewrite <- E. now apply (dep_queue_mapped _ _ Hinv).
      - destruct (Hnew _ Hin) as (t0 & Ht0 & _). now exists t0. }
    destruct Hold as (t0 & Ht0).
    rewrite processEvent_matchMap. cbn [withEvents st_matchMap st_queue].
    rewrite unlock_get, Ht0. eexists. reflexivity.
  - rewrite processEvent_schedule. apply Hinv.
Qed.

Lemma DepInv_place st task idx :
  MatchMapOk matches st -> QueueOk matches st ->
  In task (st_queue st) ->
  DepInv matches st ->
  DepInv matches (placeMatch env st task idx (st_time st)).
Proof.
  intros Hmm Hq Htask Hinv.
  set (X := taskId task).
  assert (HXq : In X (map taskId (st_queue st))) by now apply in_map.
  pose proof (dep_queue_unplaced _ _ Hinv X HXq) as HXp.
  assert (HXe : ~ In X (map ev_matchId (st_events st))).
  { intros H. apply in_map_iff in H. destruct H as (ev & E & Hev).
    destruct (dep_events_placed _ _ Hinv ev Hev) as (s & Hs & Hsid & _).
    apply HXp. apply in_map_iff. exists s. split; [congruence|assumption]. }
  assert (Hevents : forall x,
            In x (map ev_matchId (st_events (placeMatch env st task idx (st_time st))))
            <-> In x (map ev_matchId (st_events st)) \/ x = X).
  { intros x.
    pose proof (Permutation_map ev_matchId (placeMatch_events_perm env st task idx)) as P.
    rewrite map_app in P. simpl in P. split.
    - intros H. apply (Permutation_in _ P), in_app_iff in H.
      destruct H as [H|[H|[]]]; [now left|right; now subst].
    - intros H. apply (Permutation_in _ (Permutation_sym P)), in_app_iff.
      destruct H as [H| ->]; [now left|right; now left]. }
  assert (Hsched : map s_matchId (st_schedule (placeMatch env st task idx (st_time st)))
                   = map s_matchId (st_schedule st) ++ [X]).
  { rewrite placeMatch_schedule, map_app. reflexivity. }
  assert (Hfired : forall x,
            fired (placeMatch env st task idx (st_time st)) x <-> fired st x).
  { intros x. unfold fired. rewrite Hsched, Hevents, in_app_iff. simpl. split.
    - intros [[H|[H|[]]] H2]; [split; [assumption|tauto]|]. subst. tauto.
    - intros [H1 H2]. split; [now left|]. intros [H| ->]; tauto. }
  destruct (remove_ids (st_queue st) X (dep_queue_nodup _ _ Hinv)) as [Hrnd Hrin].
  constructor.
  - rewrite Hsched. apply NoDup_app; [apply Hinv|repeat constructor; simpl; tauto|].
    intros x Hx [<-|[]]. tauto.
  - rewrite Hsched. intros x Hx. apply in_app_iff in Hx.
    destruct Hx as [Hx|[<-|[]]]; [now apply (dep_placed_known _ _ Hinv)|].
    pose proof (Hq task Htask) as Hof.
    destruct (matchOf_id matches _ _ Hof) as [Hid Hin].
    apply in_map_iff. exists (task_match task). split; [reflexivity|assumption].
  - pose proof (Permutation_map ev_matchId (placeMatch_events_perm env st task idx)) as P.
    apply (Permutation_NoDup (Permutation_sym P)). rewrite map_app. simpl.
    apply NoDup_app; [apply Hinv|repeat constructor; simpl; tauto|].
    intros x Hx [<-|[]]. tauto.
  - intros ev Hev.
    apply (Permutation_in _ (placeMatch_events_perm env st task idx)), in_app_iff in Hev.
    rewrite placeMatch_schedule. destruct Hev as [Hev|[<-|[]]].
    + destruct (dep_events_placed _ _ Hinv ev Hev) as (s & Hs & H1 & H2).
      exists s. split; [apply in_app_iff; now left|now split].
    + exists (entryOf st task idx). split; [apply in_app_iff; right; now left|now split].
  - intros s Hs. rewrite placeMatch_schedule in Hs. apply in_app_iff in Hs.
    rewrite Hevents. change (st_time (placeMatch env st task idx (st_time st))) with (st_time st).
    destruct Hs as [Hs|[<-|[]]]; [|left; right; reflexivity].
    destruct (dep_fired_over _ _ Hinv s Hs); [left; now left|now right].
  - intros Y t Ht x. rewrite Hfired. now apply (dep_remaining _ _ Hinv Y t).
  - exact Hrnd.
  - intros Y HY. apply Hrin in HY. destruct HY as [HY Hne].
    rewrite Hsched, in_app_iff. simpl.
    intros [H|[H|[]]]; [|congruence].
    now apply (dep_queue_unplaced _ _ Hinv Y).
  - intros Y t Ht Hwhere. apply (dep_ready _ _ Hinv Y t Ht).
    destruct Hwhere as [H|H].
    + apply Hrin in H. now left.
    + rewrite Hsched in H. apply in_app_iff in H.
      destruct H as [H|[<-|[]]]; [now right|now left].
  - intros t Ht. apply (dep_queue_mapped _ _ Hinv). eapply remove_subset. exact Ht.
  - intros s m d Hs Hof Hd. rewrite placeMatch_schedule in Hs. apply in_app_iff in Hs.
    destruct Hs as [Hs|[<-|[]]].
    + destruct (dep_done _ _ Hinv s m d Hs Hof Hd) as (sd & H1 & H2 & H3).
      exists sd. rewrite placeMatch_schedule. split; [apply in_app_iff; now left|now split].
    + simpl in Hof. rewrite (Hq task Htask) in Hof. inversion Hof; subst m.
      destruct (dep_queue_mapped _ _ Hinv task Htask) as (t0 & Ht0).
      destruct (Hmm _ _ Ht0) as [Hof0 _]. fold X in Hof0.
      assert (Hsame : task_match t0 = task_match task).
      { pose proof (Hq task Htask) as Hof1. unfold taskId in Hof0.
        unfold X, taskId in Hof0. congruence. }
      assert (Hnil : remainingDependencies t0 = []).
      { apply (dep_ready _ _ Hinv _ t0 Ht0). now left. }
      pose proof (dep_remaining _ _ Hinv _ t0 Ht0 d) as Hrem.
      rewrite Hnil, Hsame in Hrem. simpl in Hrem.
      assert (Hf : fired st d).
      { unfold fired.
        destruct (in_dec Id_eq_dec d (map s_matchId (st_schedule st))) as [H1|H1];
          destruct (in_dec Id_eq_dec d (map ev_matchId (st_events st))) as [H2|H2];
          try (split; assumption); exfalso; apply Hrem; split; auto; intros [? ?]; tauto. }
      destruct Hf as [H1 H2]. apply in_map_iff in H1. destruct H1 as (sd & Hsd & Hin).
      exists sd. rewrite placeMatch_schedule.
      split; [apply in_app_iff; now left|]. split; [assumption|].
      destruct (dep_fired_over _ _ Hinv sd Hin) as [H|H]; [rewrite Hsd in H; tauto|].
      simpl. exact H.
Qed.

Lemma DepInv_advance st t :
  st_time st < t -> DepInv matches st -> DepInv matches (setTime st t).
Proof.
  intros Ht Hinv. constructor; try apply Hinv.
  cbn [setTime st_schedule st_events st_time]. intros s Hs.
  destruct (dep_fired_over _ _ Hinv s Hs); [now left|right; lia].
Qed.

Lemma Invariants_step st st' :
  TeamInv matches (restMsOf env) st /\ DepInv matches st ->
  Step lc env st st' ->
  TeamInv matches (restMsOf env) st' /\ DepInv matches st'.
Proof.
  intros [Ht Hd] Hstep. split; [eapply TeamInv_step; eauto|].
  destruct Hstep as [st ev rest Hev Hle|st task idx avail Hf Hin Ha Hc Hle|st t Hf Hlt].
  - apply DepInv_fire; auto. apply Ht.
  - rewrite (placement_time _ _ _ _ _ Hle). apply DepInv_place; auto; apply Ht.
  - now apply DepInv_advance.
Qed.

Lemma Invariants_reachable st0 st :
  TeamInv matches (restMsOf env) st0 /\ DepInv matches st0 ->
  Reachable lc env st0 st ->
  TeamInv matches (restMsOf env) st /\ DepInv matches st.
Proof.
  intros H0 Hr. induction Hr; [assumption|]. eapply Invariants_step; eauto.
Qed.
End DepInvariant.

(** ** Dependencies and completeness of a returned schedule *)

Lemma Map_of_acc_keys_In {V : Type} (entries acc : list (Id * V)) k :
  In k (map fst (fold_left (fun m e => Map_set Id_eq_dec (fst e) (snd e) m) entries acc))
  <-> In k (map fst acc) \/ In k (map fst entries).
Proof.
  revert acc. induction entries as [|e entries IH]; intros acc; simpl; [tauto|].
  rewrite IH, Map_set_keys_In. intuition.
Qed.

Lemma matchOf_unique matches m :
  NoDup (map m_id matches) -> In m matches -> matchOf matches (m_id m) = Some m.
Proof.
  intros Hnd Hin. unfold matchOf.
  destruct (Map_get Id_eq_dec (m_id m) (matchIndex matches)) as [m'|] eqn:E.
  - destruct (matchOf_id matches _ _ E) as [Hid Hin'].
    f_equal. apply (NoDup_map_inj m_id matches); auto.
  - exfalso. apply Map_get_None in E. apply E. unfold matchIndex, Map_of.
    apply Map_of_acc_keys_In. right. rewrite map_map. simpl.
    apply in_map_iff. now exists m.
Qed.

Section Completeness.
Variable lc : string -> string -> Z.

Lemma scheduleInit_DepInv matches courts start :
  DepInv matches (scheduleInit lc matches courts start).
Proof.
  assert (Hid : forall k t, In (k, t) (fst (buildGraph matches)) -> taskId t = k).
  { intros k t H. apply buildGraph_entry in H. unfold taskId. tauto. }
  pose proof (initialQueue_ids lc (fst (buildGraph matches)) [] Hid) as Hq.
  simpl in Hq.
  constructor; cbn [scheduleInit st_schedule st_events st_queue st_matchMap st_time map].
  - constructor.
  - intros X [].
  - constructor.
  - intros ev [].
  - intros s [].
  - intros X task H e. apply Map_get_In, buildGraph_entry in H.
    destruct H as (_ & _ & ->). rewrite Set_of_In. unfold fired. simpl. tauto.
  - apply (Permutation_NoDup (Permutation_sym Hq)).
    apply filter_keeps_distinct, buildGraph_keys_NoDup.
  - intros X _ [].
  - intros X task Hget [Hin|[]].
    apply (Permutation_in _ Hq), in_map_iff in Hin.
    destruct Hin as ([k t] & E & Hin). simpl in E. subst k.
    apply filter_In in Hin. destruct Hin as [Hin Hr]. simpl in Hr.
    apply (Map_get_of_In Id_eq_dec) in Hin; [|apply buildGraph_keys_NoDup].
    rewrite Hget in Hin. inversion Hin; subst.
    apply Nat.eqb_eq in Hr. now apply length_zero_iff_nil.
  - intros t Ht. unfold initialQueue in Ht. apply initialQueue_from in Ht.
    destruct Ht as [[]|(k & Hin & _)]. exists t.
    rewrite (Hid k t Hin). apply Map_get_of_In; [apply buildGraph_keys_NoDup|assumption].
  - intros s m d [].
Qed.

Lemma schedule_invariants fuel now matches courts config r :
  NoDup (map m_id matches) ->
  scheduleMatches lc fuel now matches courts config = Returned r ->
  exists st,
    TeamInv matches (restTime config * MS_PER_MINUTE) st
    /\ DepInv matches st
    /\ length (st_schedule st) = length matches
    /\ schedule r = st_schedule st.
Proof.
  intros Hnd H. apply scheduleMatches_returned in H.
  destruct H as (st & Hrun & Hlen & -> & _). exists st.
  apply runLoop_reachable in Hrun.
  eapply (Invariants_reachable lc _ matches Hnd) in Hrun.
  - destruct Hrun as [Ht Hd]. split; [exact Ht|]. split; [exact Hd|].
    split; [exact Hlen|]. simpl. apply array_sort_sorted_id. apply Ht.
  - apply buildGraph_DependentsOk.
  - split; [apply scheduleInit_TeamInv|apply scheduleInit_DepInv].
Qed.

Lemma dependency_placed_before fuel now matches courts config r :
  NoDup (map m_id matches) ->
  scheduleMatches lc fuel now matches courts config = Returned r ->
  forall m d s,
    In m matches -> In d (depsOf m) ->
    In s (schedule r) -> s_matchId s = m_id m ->
    (exists sd, In sd (schedule r) /\ s_matchId sd = d)
    /\ (forall sd, In sd (schedule r) -> s_matchId sd = d ->
          s_endTime sd <= s_startTime s).
Proof.
  intros Hnd H m d s Hm Hd Hs Hid.
  destruct (schedule_invariants _ _ _ _ _ _ Hnd H) as (st & _ & Hinv & _ & Hr).
  rewrite Hr in *.
  assert (Hof : matchOf matches (s_matchId s) = Some m).
  { rewrite Hid. now apply matchOf_unique. }
  destruct (dep_done _ _ Hinv s m d Hs Hof Hd) as (sd & Hsd & Hsdid & Hle).
  split; [now exists sd|].
  intros sd' Hsd' Hsdid'.
  assert (sd' = sd).
  { apply (NoDup_map_inj s_matchId (st_schedule st)); auto; [apply Hinv|congruence]. }
  now subst.
Qed.

(** C4 (amended).  When the match identities of the input are pairwise
    distinct, in a schedule returned by [scheduleMatches] every declared
    dependency of a match has an entry, and the match starts no earlier
    than each of its dependencies ends. *)
Theorem dependencies_respected fuel now matches courts config r :
  NoDup (map m_id matches) ->
  scheduleMatches lc fuel now matches courts config = Returned r ->
  forall m d s,
    In m matches -> In d (depsOf m) ->
    In s (schedule r) -> s_matchId s = m_id m ->
    (exists sd, In sd (schedule r) /\ s_matchId sd = d)
    /\ (forall sd, In sd (schedule r) -> s_matchId sd = d ->
          s_startTime s >= s_endTime sd).
Proof.
  intros Hnd H m d s Hm Hd Hs Hid.
  destruct (dependency_placed_before _ _ _ _ _ _ Hnd H m d s Hm Hd Hs Hid) as [H1 H2].
  split; [exact H1|]. intros sd Hsd Hsdid. specialize (H2 sd Hsd Hsdid). lia.
Qed.


End Completeness.

(** ** Termination of the loop *)



Section Termination.
Variable lc : string -> string -> Z.
Variable env : LoopEnv.




Variable st0 : SimState.
Variable n : nat.
Hypothesis bounded :
  forall st, Reachable lc env st0 st -> (length (st_schedule st) <= n)%nat.


End Termination.

Lemma runLoop_throws_deadlock lc env fuel st e :
  runLoop lc env fuel st = Threw e -> e = Deadlock.
Proof.
  revert st. induction fuel as [|fuel IH]; intros st; simpl.
  - destruct (_ || _); discriminate.
  - destruct (_ || _); [|discriminate].
    unfold loopBody.
    destruct (placementPass env _ _); [apply IH|].
    destruct (st_events (flushEvents lc env st)); [|apply IH].
    destruct (negb _); [|discriminate].
    destruct (_ <? MAX_DATE); [apply IH|]. intros H; inversion H; reflexivity.
Qed.

(** ** [scheduleMatches] terminates and is complete *)

Section ScheduleTotal.
Variable lc : string -> string -> Z.



Lemma scheduleMatches_throws fuel now matches courts config e :
  scheduleMatches lc fuel now matches courts config = Threw e ->
  matches <> [] -> courts <> [] -> isFeasibilityError e.
Proof.
  unfold scheduleMatches. intros H Hm Hc.
  destruct matches as [|m ms]; [congruence|].
  destruct courts as [|c cs]; [congruence|].
  cbn [length Nat.eqb] in H.
  destruct (runLoop lc _ fuel _) as [st|e'|] eqn:Hrun; [| |discriminate].
  - destruct (negb _); inversion H. exact I.
  - inversion H; subst. apply runLoop_throws_deadlock in Hrun. subst. exact I.
Qed.

End ScheduleTotal.

(** ** The validator *)

Lemma overlaps_complete (s : ScheduledMatch) (o : Occupancy) :
  occupancyOverlap s o -> overlaps s o = true.
Proof.
  intros [x [[H1 H2] [H3 H4]]]. unfold overlaps.
  destruct (Z_le_gt_dec (o_start o) (s_startTime s)) as [Hle|Hgt].
  - apply orb_true_iff. left. apply orb_true_iff. left.
    apply andb_true_iff. split; [apply Z.geb_le; lia|apply Z.ltb_lt; lia].
  - destruct (Z_le_gt_dec (s_endTime s) (o_end o)) as [Hle'|Hgt'].
    + apply orb_true_iff. left. apply orb_true_iff. right.
      apply andb_true_iff. split; [rewrite Z.gtb_ltb; apply Z.ltb_lt; lia|apply Z.leb_le; lia].
    + apply orb_true_iff. right.
      apply andb_true_iff. split; [apply Z.leb_le; lia|apply Z.geb_le; lia].
Qed.

Lemma setAt_set_same {A : Type} k (v : list A) m : setAt k (Map_set Id_eq_dec k v m) = v.
Proof. unfold setAt. now rewrite Map_get_set_same. Qed.

Lemma setAt_set_other {A : Type} k k' (v : list A) m :
  k <> k' -> setAt k' (Map_set Id_eq_dec k v m) = setAt k' m.
Proof. intros H. unfold setAt. now rewrite Map_get_set_other. Qed.

Section ValidatorFacts.
Variable matches : list Match.

Lemma checkTeam_occupancy s acc team :
  fst (checkTeam s acc team)
  = Map_set Id_eq_dec team (setAt team (fst acc) ++ [occupancyOf s])
      (if Map_has Id_eq_dec team (fst acc) then fst acc
       else Map_set Id_eq_dec team [] (fst acc)).
Proof.
  unfold checkTeam, setAt, Map_has.
  destruct (Map_get Id_eq_dec team (fst acc)) eqn:E; cbn [fst snd];
    rewrite ?E, ?Map_get_set_same; reflexivity.
Qed.

Lemma checkTeam_errors s acc team :
  snd (checkTeam s acc team)
  = snd acc ++ map (overlapError team s) (filter (overlaps s) (setAt team (fst acc))).
Proof.
  unfold checkTeam, setAt, Map_has.
  destruct (Map_get Id_eq_dec team (fst acc)) eqn:E; cbn [fst snd];
    rewrite ?E, ?Map_get_set_same; reflexivity.
Qed.

Lemma checkTeam_setAt s acc team t :
  setAt t (fst (checkTeam s acc team))
  = setAt t (fst acc) ++ (if Id_eqb t team then [occupancyOf s] else []).
Proof.
  rewrite checkTeam_occupancy. destruct (Id_eqb t team) eqn:E.
  - apply Id_eqb_eq in E. subst. now rewrite setAt_set_same.
  - apply Id_eqb_neq in E. rewrite setAt_set_other by congruence.
    rewrite app_nil_r. destruct (Map_has Id_eq_dec team (fst acc)); [reflexivity|].
    apply setAt_set_other. congruence.
Qed.

Lemma checkTeams_setAt s (teams : list Id) : forall acc t,
  setAt t (fst (fold_left (checkTeam s) teams acc))
  = setAt t (fst acc) ++ map (fun _ => occupancyOf s) (filter (Id_eqb t) teams).
Proof.
  induction teams as [|team teams IH]; intros acc t; simpl; [now rewrite app_nil_r|].
  rewrite IH, checkTeam_setAt, <- app_assoc.
  destruct (Id_eqb t team); reflexivity.
Qed.



Lemma checkScheduled_setAt s acc t :
  setAt t (fst (checkScheduled matches acc s))
  = setAt t (fst acc)
    ++ map (fun _ => occupancyOf s) (filter (Id_eqb t) (teamsOf matches s)).
Proof.
  unfold checkScheduled, teamsOf.
  destruct (matchOf matches (s_matchId s)); [apply checkTeams_setAt|].
  simpl. now rewrite app_nil_r.
Qed.



Lemma check1_setAt (sched : list ScheduledMatch) : forall acc t,
  setAt t (fst (fold_left (checkScheduled matches) sched acc))
  = setAt t (fst acc) ++ teamSlots matches t sched.
Proof.
  induction sched as [|s sched IH]; intros acc t; simpl; [now rewrite app_nil_r|].
  rewrite IH, checkScheduled_setAt, <- app_assoc. reflexivity.
Qed.






Lemma index_entries {V : Type} (f : V -> Id) (l : list V) : forall acc k v,
  In (k, v)
    (fold_left (fun m e => Map_set Id_eq_dec (fst e) (snd e) m) (map (fun v => (f v, v)) l) acc) ->
  In (k, v) acc \/ (f v = k /\ In v l).
Proof.
  induction l as [|x l IH]; intros acc k v; simpl; [now left|].
  intros H. apply IH in H. destruct H as [H|[H1 H2]]; [|right; tauto].
  apply Map_set_In_inv in H. destruct H as [[-> ->]|H]; [right; split; auto|now left].
Qed.

Lemma scheduleIndex_spec (sched : list ScheduledMatch) x :
  (Map_get Id_eq_dec x (scheduleIndex sched) = None <-> ~ In x (map s_matchId sched))
  /\ forall s, Map_get Id_eq_dec x (scheduleIndex sched) = Some s ->
       In s sched /\ s_matchId s = x.
Proof.
  split.
  - rewrite Map_get_None. unfold scheduleIndex, Map_of.
    rewrite Map_of_acc_keys_In, map_map. simpl. tauto.
  - intros s H. apply Map_get_In in H. unfold scheduleIndex, Map_of in H.
    apply index_entries in H. destruct H as [[]|[H1 H2]]. now split.
Qed.

End ValidatorFacts.

(** ** The model on the scenarios of the specification *)

Example scenario_two_courts :
  slotsOf (scheduleMatches lexCompare 20 0 firstRound twoCourts (startAtZero 0))
  = Returned [(IdStr "M1", IdStr "C1", 0, 1800000); (IdStr "M2", IdStr "C2", 0, 1800000)]%string.
Proof. vm_compute. reflexivity. Qed.

Example scenario_one_court :
  slotsOf (scheduleMatches lexCompare 20 0 firstRound oneCourt (startAtZero 0))
  = Returned [(IdStr "M1", IdStr "C1", 0, 1800000);
              (IdStr "M2", IdStr "C1", 1800000, 3600000)]%string.
Proof. vm_compute. reflexivity. Qed.

Example scenario_rest_time :
  slotsOf (scheduleMatches lexCompare 20 0 backToBack twoCourts (startAtZero 15))
  = Returned [(IdStr "M1", IdStr "C1", 0, 1800000);
              (IdStr "M2", IdStr "C1", 2700000, 4500000)]%string.
Proof. vm_compute. reflexivity. Qed.

Example scenario_dependencies :
  slotsOf (scheduleMatches lexCompare 20 0 knockout oneCourt (startAtZero 0))
  = Returned [(IdStr "M1", IdStr "C1", 0, 1800000);
              (IdStr "M2", IdStr "C1", 1800000, 3600000);
              (IdStr "M3", IdStr "C1", 3600000, 6300000)]%string.
Proof. vm_compute. reflexivity. Qed.

Example scenario_dangling_dependency :
  scheduleMatches lexCompare 20 0 danglingInput oneCourt (startAtZero 0)
  = Threw (Incomplete 0 1).
Proof. vm_compute. reflexivity. Qed.

Example scenario_no_courts :
  scheduleMatches lexCompare 20 0 firstRound [] (startAtZero 0) = Threw NoCourts.
Proof. reflexivity. Qed.

Example scenario_reschedule :
  slotsOf (rescheduleMatches lexCompare 20 bracket oneCourt liveConfig)
  = Returned [(IdStr "M3", IdStr "C1", 4080000, 5880000)]%string.
Proof. vm_compute. reflexivity. Qed.

(** A pending match with one completed and one pending dependency is never
    released: the completed identity stays in its dependency set, since only
    end events remove identities and a completed match has none.  The call
    raises although M2 and then M3 could be played. *)
Example reschedule_with_partly_completed_dependencies :
  rescheduleMatches lexCompare 20 knockout oneCourt halfwayConfig = Threw (Incomplete 1 2).
Proof. vm_compute. reflexivity. Qed.

Example validate_accepts_bracket :
  validateSchedule (schedule bracketResult) bracket (startAtZero 15)
  = {| valid := true; errors := [] |}.
Proof. vm_compute. reflexivity. Qed.

Example validate_lists_both_findings :
  validateSchedule clashingSchedule backToBack (startAtZero 15)
  = {| valid := false;
       errors := [TeamOverlap (IdStr "A") (IdStr "M2") (IdStr "M1");
                  InsufficientRest (IdStr "A") (IdStr "M1") (IdStr "M2") (-1200000)]%string |}.
Proof. vm_compute. reflexivity. Qed.

(** ** The properties on the sample inputs *)

Lemma bracket_returns :
  scheduleMatches lexCompare 20 0 bracket twoCourts (startAtZero 15) = Returned bracketResult.
Proof. vm_compute. reflexivity. Qed.

Lemma live_returns :
  rescheduleMatches lexCompare 20 bracket oneCourt liveConfig = Returned liveResult.
Proof. vm_compute. reflexivity. Qed.

Lemma bracket_ids_distinct : NoDup (map m_id bracket).
Proof.
  repeat constructor; simpl; intros H;
    repeat (destruct H as [H|H]; [discriminate|]); exact H.
Qed.




Lemma reschedule_never_in_the_past_witness :
  rescheduleMatches lexCompare 20 bracket oneCourt liveConfig = Returned liveResult
  /\ forall s, In s (schedule liveResult) -> currentTime liveConfig <= s_startTime s.
Proof.
  split; [exact live_returns|].
  exact (reschedule_never_in_the_past lexCompare 20 bracket oneCourt liveConfig liveResult
           live_returns).
Defined.


Lemma dependencies_respected_witness :
  NoDup (map m_id bracket)
  /\ scheduleMatches lexCompare 20 0 bracket twoCourts (startAtZero 15) = Returned bracketResult
  /\ forall m d s,
       In m bracket -> In d (depsOf m) ->
       In s (schedule bracketResult) -> s_matchId s = m_id m ->
       (exists sd, In sd (schedule bracketResult) /\ s_matchId sd = d)
       /\ (forall sd, In sd (schedule bracketResult) -> s_matchId sd = d ->
             s_startTime s >= s_endTime sd).
Proof.
  split; [exact bracket_ids_distinct|]. split; [exact bracket_returns|].
  exact (dependencies_respected lexCompare 20 0 bracket twoCourts (startAtZero 15) bracketResult
           bracket_ids_distinct bracket_returns).
Defined.

(** C4, counterexample.  With two matches of the same identity X, the
    returned schedule has an entry for X that starts before the entry of Y
    ends, although a match of identity X declares Y as a dependency. *)
Lemma duplicate_identity_breaks_dependency_order :
  exists m d s sd,
    scheduleMatches lexCompare 20 0 shadowedInput twoCourts (startAtZero 0)
    = Returned shadowedResult
    /\ In m shadowedInput /\ In d (depsOf m)
    /\ In s (schedule shadowedResult) /\ s_matchId s = m_id m
    /\ In sd (schedule shadowedResult) /\ s_matchId sd = d
    /\ s_startTime s < s_endTime sd.
Proof.
  exists (sampleMatch "X" "A" "B" 1 30 (Some [IdStr "ghost"%string; IdStr "Y"%string])),
    (IdStr "Y"%string),
    {| s_matchId := IdStr "X"%string; s_courtId := IdStr "C1"%string;
       s_startTime := 0; s_endTime := 1800000; s_round := 1 |},
    {| s_matchId := IdStr "Y"%string; s_courtId := IdStr "C2"%string;
       s_startTime := 0; s_endTime := 1800000; s_round := 1 |}.
  split; [vm_compute; reflexivity|].
  split; [now left|]. split; [right; now left|].
  split; [now left|]. split; [reflexivity|].
  split; [right; now left|]. split; [reflexivity|]. simpl. lia.
Qed.






(** * Further properties of the scheduler *)

(** ** Choice of a court *)

Section CourtChoice.
Variable time : Z.

Lemma findAvailableCourt_from_chosen (rest : list CourtState) :
  forall seen earliestCourt earliestTime,
    scanned time seen earliestCourt earliestTime ->
    chosen time (seen ++ rest)
      (findAvailableCourt_from time rest (length seen) earliestCourt earliestTime).
Proof.
  induction rest as [|court rest IH]; intros seen ec et [Hseen Hec].
  - rewrite app_nil_r. simpl. destruct ec as [[j c]|].
    + destruct Hec as (Hj & -> & Hlt & Hbefore). exists c.
      split; [exact Hj|]. split.
      * intros k c' _ Hk. apply Hseen. eapply nth_error_In; eauto.
      * right. repeat split; auto; apply Hseen; assumption.
    + subst et. exact Hseen.
  - cbn [findAvailableCourt_from].
    change ((cs_availableAt court <=? time) && is_null (cs_currentMatch court))
      with (courtFree time court).
    destruct (courtFree time court) eqn:Hfree.
    + exists court. split; [now rewrite nth_error_app2, Nat.sub_diag by lia|].
      split; [|now left].
      intros k c' Hk Hc'. rewrite nth_error_app1 in Hc' by assumption.
      apply Hseen. eapply nth_error_In; eauto.
    + assert (E : seen ++ court :: rest = (seen ++ [court]) ++ rest)
        by now rewrite <- app_assoc.
      assert (L : S (length seen) = length (seen ++ [court]))
        by (rewrite length_app; simpl; lia).
      rewrite E, L.
      destruct (cs_availableAt court <? et) eqn:Hlt.
      * apply Z.ltb_lt in Hlt. apply IH. split.
        -- intros c Hc. apply in_app_iff in Hc. destruct Hc as [Hc|[<-|[]]].
           ++ destruct (Hseen c Hc). split; [assumption|lia].
           ++ split; [assumption|lia].
        -- split; [now rewrite nth_error_app2, Nat.sub_diag by lia|].
           split; [reflexivity|]. split.
           ++ destruct ec as [[j c]|]; [destruct Hec as (_ & _ & H & _); lia|subst et; lia].
           ++ intros k c' Hk Hc'. rewrite nth_error_app1 in Hc' by assumption.
              apply nth_error_In in Hc'. destruct (Hseen c' Hc'). lia.
      * apply Z.ltb_ge in Hlt. apply IH. split.
        -- intros c Hc. apply in_app_iff in Hc. destruct Hc as [Hc|[<-|[]]].
           ++ now apply Hseen.
           ++ split; [assumption|lia].
        -- destruct ec as [[j c]|]; [|assumption].
           destruct Hec as (Hj & He & Hm & Hbefore).
           assert (Hjl : (j < length seen)%nat).
           { apply nth_error_Some. congruence. }
           split; [now rewrite nth_error_app1|]. split; [assumption|].
           split; [assumption|].
           intros k c' Hk Hc'. rewrite nth_error_app1 in Hc' by lia. eauto.
Qed.

Lemma findAvailableCourt_chosen (courtStates : list CourtState) :
  chosen time courtStates (findAvailableCourt time courtStates).
Proof.
  apply (findAvailableCourt_from_chosen courtStates [] None MAX_DATE).
  split; [intros c []|reflexivity].
Qed.

(** X1.  [findAvailableCourt]: the first court that is idle and ready at [time]
    is returned with [time]; when no court is, the first court among those
    that become available earliest is returned with its own availability,
    whether it is idle or not; the result is [null] only when no court
    becomes available before the maximal date (in particular when there is
    no court). *)
Theorem findAvailableCourt_choice (courtStates : list CourtState) :
  match findAvailableCourt time courtStates with
  | Some (i, t) =>
      exists c,
        nth_error courtStates i = Some c
        /\ (forall k c', (k < i)%nat -> nth_error courtStates k = Some c' ->
              courtFree time c' = false)
        /\ ((courtFree time c = true /\ t = time)
            \/ (t = cs_availableAt c /\ t < MAX_DATE
                /\ (forall c', In c' courtStates ->
                      courtFree time c' = false /\ t <= cs_availableAt c')
                /\ forall k c', (k < i)%nat -> nth_error courtStates k = Some c' ->
                     t < cs_availableAt c'))
  | None =>
      forall c, In c courtStates -> courtFree time c = false /\ MAX_DATE <= cs_availableAt c
  end.
Proof. exact (findAvailableCourt_chosen courtStates). Qed.
End CourtChoice.

(** ** Earliest start of a match and team states *)

Section TeamHelpers.
Variable teamStates : list (TeamKey * TeamState).

Lemma earliestStart_fold (l : list Id) : forall acc,
  let r := fold_left
             (fun earliestStart teamId =>
                match Map_get TeamKey_eq_dec (Some teamId) teamStates with
                | Some state =>
                    if ts_availableAt state >? earliestStart then ts_availableAt state
                    else earliestStart
                | None => earliestStart
                end) l acc in
  acc <= r
  /\ (forall team state,
        In team l -> Map_get TeamKey_eq_dec (Some team) teamStates = Some state ->
        ts_availableAt state <= r)
  /\ (r = acc
      \/ exists team state,
           In team l /\ Map_get TeamKey_eq_dec (Some team) teamStates = Some state
           /\ r = ts_availableAt state).
Proof.
  induction l as [|t l IH]; intros acc; cbn [fold_left].
  - split; [lia|]. split; [intros ? ? []|now left].
  - set (acc' := match Map_get TeamKey_eq_dec (Some t) teamStates with
                 | Some state =>
                     if ts_availableAt state >? acc then ts_availableAt state else acc
                 | None => acc
                 end).
    destruct (IH acc') as (H1 & H2 & H3). fold acc'.
    assert (Hacc : acc <= acc'
                   /\ (forall state, Map_get TeamKey_eq_dec (Some t) teamStates = Some state ->
                         ts_availableAt state <= acc')
                   /\ (acc' = acc
                       \/ exists state,
                            Map_get TeamKey_eq_dec (Some t) teamStates = Some state
                            /\ acc' = ts_availableAt state)).
    { unfold acc'. destruct (Map_get TeamKey_eq_dec (Some t) teamStates) as [s|].
      - destruct (ts_availableAt s >? acc) eqn:E.
        + rewrite Z.gtb_ltb in E. apply Z.ltb_lt in E.
          split; [lia|]. split; [intros ? Hs; inversion Hs; subst; lia|].
          right. now exists s.
        + rewrite Z.gtb_ltb in E. apply Z.ltb_ge in E.
          split; [lia|]. split; [intros ? Hs; inversion Hs; subst; lia|now left].
      - split; [lia|]. split; [discriminate|now left]. }
    destruct Hacc as (A1 & A2 & A3).
    split; [lia|]. split.
    + intros team state [<-|Hin] Hget.
      * specialize (A2 state Hget). lia.
      * eauto.
    + destruct H3 as [H3|(team & state & Hin & Hget & Hr)].
      * destruct A3 as [A3|(state & Hget & A3)]; [left; congruence|].
        right. exists t, state. split; [now left|]. split; [assumption|congruence].
      * right. exists team, state. split; [now right|]. now split.
Qed.

(** X2.  [calculateEarliestStartTime] returns the latest of the given time and
    the availabilities of the tracked teams of the match; a team without
    state does not count. *)
Theorem calculateEarliestStartTime_latest (m : Match) (time : Z) :
  time <= calculateEarliestStartTime m time teamStates
  /\ (forall team state,
        In team (getTeamIds m) ->
        Map_get TeamKey_eq_dec (Some team) teamStates = Some state ->
        ts_availableAt state <= calculateEarliestStartTime m time teamStates)
  /\ (calculateEarliestStartTime m time teamStates = time
      \/ exists team state,
           In team (getTeamIds m)
           /\ Map_get TeamKey_eq_dec (Some team) teamStates = Some state
           /\ calculateEarliestStartTime m time teamStates = ts_availableAt state).
Proof. apply (earliestStart_fold (getTeamIds m) time). Qed.

(** X3.  [ensureTeamState] returns the state the map holds for the team
    afterwards; a tracked team keeps its state and the map is unchanged,
    an untracked team gets an idle state available at [initialTime]; no
    other team is touched, and a second call changes nothing, whatever
    initial time it is given. *)
Theorem ensureTeamState_tracks (teamId : TeamKey) (initialTime : Z) :
  let state := fst (ensureTeamState teamId teamStates initialTime) in
  let teamStates' := snd (ensureTeamState teamId teamStates initialTime) in
  Map_get TeamKey_eq_dec teamId teamStates' = Some state
  /\ (forall k, k <> teamId ->
        Map_get TeamKey_eq_dec k teamStates' = Map_get TeamKey_eq_dec k teamStates)
  /\ match Map_get TeamKey_eq_dec teamId teamStates with
     | Some old => state = old /\ teamStates' = teamStates
     | None =>
         state = {| ts_teamId := teamId; ts_availableAt := initialTime;
                    ts_currentMatch := None |}
         /\ map fst teamStates' = map fst teamStates ++ [teamId]
     end
  /\ forall otherTime,
       ensureTeamState teamId teamStates' otherTime = (state, teamStates').
Proof.
  unfold ensureTeamState.
  destruct (Map_get TeamKey_eq_dec teamId teamStates) as [old|] eqn:E; cbn [fst snd].
  - split; [assumption|]. split; [reflexivity|]. split; [now split|].
    intros otherTime. now rewrite E.
  - split; [apply Map_get_set_same|].
    split; [intros k Hk; apply Map_get_set_other; congruence|].
    split.
    + split; [reflexivity|]. apply Map_set_keys_absent.
      apply (proj1 (Map_get_None TeamKey_eq_dec teamId teamStates) E).
    + intros otherTime. now rewrite Map_get_set_same.
Qed.
End TeamHelpers.

(** ** The ready queue as a container *)

Section QueueContainer.
Variable lc : string -> string -> Z.

Lemma enqueue_perm (task : MatchTask) (tasks : list MatchTask) :
  Permutation (task :: tasks) (MatchQueue_enqueue lc task tasks).
Proof.
  unfold MatchQueue_enqueue. rewrite array_sort_perm. apply Permutation_cons_append.
Qed.

(** X4.  Whatever the collation, [enqueue] neither loses nor duplicates a task:
    the queue afterwards holds the new task and the tasks it held, and is
    one longer. *)
Theorem enqueue_keeps_every_task (task : MatchTask) (tasks : list MatchTask) :
  Permutation (task :: tasks) (MatchQueue_enqueue lc task tasks)
  /\ MatchQueue_size (MatchQueue_enqueue lc task tasks) = S (MatchQueue_size tasks)
  /\ MatchQueue_isEmpty (MatchQueue_enqueue lc task tasks) = false.
Proof.
  pose proof (enqueue_perm task tasks) as P.
  split; [exact P|]. split.
  - unfold MatchQueue_size. now rewrite <- (Permutation_length P).
  - apply Permutation_length in P.
    destruct (MatchQueue_enqueue lc task tasks); [discriminate|reflexivity].
Qed.

Hypothesis lc_trans : forall a b c, lc a b <= 0 -> lc b c <= 0 -> lc a c <= 0.

Lemma sort_insert_front (x : MatchTask) (l : list MatchTask) :
  Forall (fun y => compareTasks lc x y <= 0) l ->
  sort_insert (compareTasks lc) x l = x :: l.
Proof.
  intros H. destruct l as [|y l]; [reflexivity|]. simpl.
  inversion H; subst. apply Z.leb_le in H2. now rewrite H2.
Qed.

Lemma enqueue_splits (task : MatchTask) (tasks : list MatchTask) :
  StronglySorted (fun a b => compareTasks lc a b <= 0) tasks ->
  exists ahead behind,
    tasks = ahead ++ behind
    /\ MatchQueue_enqueue lc task tasks = ahead ++ task :: behind
    /\ Forall (fun t => compareTasks lc t task <= 0) ahead
    /\ Forall (fun t => 0 < compareTasks lc t task) behind.
Proof.
  unfold MatchQueue_enqueue, array_sort.
  induction 1 as [|x rest Hs IH Hall].
  - exists [], []. repeat split; constructor.
  - destruct IH as (ahead & behind & E & Hq & Ha & Hb).
    cbn [app fold_right]. rewrite Hq.
    destruct ahead as [|y ahead].
    + simpl in E. subst behind. cbn [app sort_insert].
      destruct (compareTasks lc x task <=? 0) eqn:Hx.
      * apply Z.leb_le in Hx. exists [x], rest. repeat split; auto.
      * apply Z.leb_gt in Hx. exists [], (x :: rest).
        rewrite (sort_insert_front x rest Hall). repeat split; auto.
    + assert (Hxy : compareTasks lc x y <= 0).
      { rewrite Forall_forall in Hall. apply Hall. rewrite E. now left. }
      cbn [app sort_insert]. apply Z.leb_le in Hxy. rewrite Hxy. apply Z.leb_le in Hxy.
      exists (x :: y :: ahead), behind. rewrite E. repeat split; auto.
      constructor; [|assumption]. inversion Ha; subst.
      eapply (compareTasks_trans lc lc_trans); eauto.
Qed.
End QueueContainer.

(** X5.  For a collation that is a total preorder: in an ordered queue a new task
    is placed behind every task that is not after it in the order, in
    particular behind the tasks of equal priority, and before the tasks
    that are after it; the tasks already queued keep their relative
    order. *)
Theorem enqueue_first_in_first_out (lc : string -> string -> Z)
    (task : MatchTask) (tasks : list MatchTask) :
  (forall a b, 0 < lc a b -> lc b a <= 0) ->
  (forall a b c, lc a b <= 0 -> lc b c <= 0 -> lc a c <= 0) ->
  StronglySorted (fun a b => compareTasks lc a b <= 0) tasks ->
  exists ahead behind,
    tasks = ahead ++ behind
    /\ MatchQueue_enqueue lc task tasks = ahead ++ task :: behind
    /\ Forall (fun t => compareTasks lc t task <= 0) ahead
    /\ Forall (fun t => 0 < compareTasks lc t task) behind.
Proof. intros _ Htrans. now apply enqueue_splits. Qed.

Lemma findIndex_split {A : Type} (p : A -> bool) (l : list A) :
  match findIndex p l with
  | Some i =>
      exists pre x post,
        l = pre ++ x :: post /\ length pre = i /\ p x = true
        /\ (forall y, In y pre -> p y = false) /\ splice1 i l = pre ++ post
  | None => forall y, In y l -> p y = false
  end.
Proof.
  induction l as [|a l IH]; simpl; [intros y []|].
  destruct (p a) eqn:Ea.
  - exists [], a, l. repeat split; auto. intros y [].
  - destruct (findIndex p l) as [i|]; simpl.
    + destruct IH as (pre & x & post & -> & Hlen & Hx & Hpre & Hsp).
      exists (a :: pre), x, post. simpl. repeat split; auto; [|now rewrite Hsp].
      intros y [<-|Hy]; auto.
    + intros y [<-|Hy]; auto.
Qed.

(** X6.  [remove] takes out the first task that carries the identity and answers
    [true]: the tasks before and after it stay, in their order; when no task
    carries the identity the queue is unchanged and the answer is [false].
    The queue left is the one the placement loop continues with. *)
Theorem remove_first_occurrence (matchId : Id) (tasks : list MatchTask) :
  (if fst (MatchQueue_removeResult matchId tasks)
   then exists before task after,
          tasks = before ++ task :: after
          /\ m_id (task_match task) = matchId
          /\ (forall t, In t before -> m_id (task_match t) <> matchId)
          /\ snd (MatchQueue_removeResult matchId tasks) = before ++ after
   else snd (MatchQueue_removeResult matchId tasks) = tasks
        /\ forall t, In t tasks -> m_id (task_match t) <> matchId)
  /\ snd (MatchQueue_removeResult matchId tasks) = MatchQueue_remove matchId tasks.
Proof.
  split.
  - unfold MatchQueue_removeResult.
    pose proof (findIndex_split (fun t => Id_eqb (m_id (task_match t)) matchId) tasks) as H.
    destruct (findIndex _ tasks) as [i|]; cbn [fst snd].
    + destruct H as (pre & x & post & E & _ & Hx & Hpre & Hsp).
      exists pre, x, post. split; [assumption|]. split; [now apply Id_eqb_eq|].
      split; [|assumption]. intros t Ht. apply Id_eqb_neq. now apply Hpre.
    + split; [reflexivity|]. intros t Ht. apply Id_eqb_neq. now apply H.
  - unfold MatchQueue_removeResult. induction tasks as [|t tasks IH]; [reflexivity|].
    simpl. destruct (Id_eqb (m_id (task_match t)) matchId); [reflexivity|].
    destruct (findIndex _ tasks) as [i|]; simpl in *; now rewrite <- IH.
Qed.

(** ** The entries of a returned schedule *)

Lemma update_first_ids (p : CourtState -> bool) (f : CourtState -> CourtState)
    (l : list CourtState) :
  (forall c, cs_courtId (f c) = cs_courtId c) ->
  map cs_courtId (update_first p f l) = map cs_courtId l.
Proof.
  intros Hf. induction l as [|c l IH]; simpl; [reflexivity|].
  destruct (p c); simpl; [now rewrite Hf|now rewrite IH].
Qed.

Lemma update_nth_ids (i : nat) (f : CourtState -> CourtState) (l : list CourtState) :
  (forall c, cs_courtId (f c) = cs_courtId c) ->
  map cs_courtId (update_nth i f l) = map cs_courtId l.
Proof.
  intros Hf. revert i. induction l as [|c l IH]; intros [|i]; simpl; try reflexivity.
  - now rewrite Hf.
  - now rewrite IH.
Qed.

Lemma findAvailableCourt_index time courtStates i t :
  findAvailableCourt time courtStates = Some (i, t) ->
  exists c, nth_error courtStates i = Some c.
Proof.
  intros H. pose proof (findAvailableCourt_chosen time courtStates) as Hc.
  rewrite H in Hc. destruct Hc as (c & Hc & _). now exists c.
Qed.

Lemma find_over_app {A : Type} (p : A -> bool) (l l' : list A) :
  find p (l ++ l') = match find p l with Some x => Some x | None => find p l' end.
Proof.
  induction l as [|x l IH]; simpl; [reflexivity|]. destruct (p x); [reflexivity|exact IH].
Qed.

(** The match of an identity is the last match of the list that carries
    it. *)
Lemma index_get_acc (ms : list Match) : forall acc k,
  Map_get Id_eq_dec k
    (fold_left (fun m e => Map_set Id_eq_dec (fst e) (snd e) m)
       (map (fun m => (m_id m, m)) ms) acc)
  = match find (fun m => Id_eqb (m_id m) k) (rev ms) with
    | Some m => Some m
    | None => Map_get Id_eq_dec k acc
    end.
Proof.
  induction ms as [|x ms IH]; intros acc k; simpl; [reflexivity|].
  rewrite IH. rewrite find_over_app.
  destruct (find (fun m => Id_eqb (m_id m) k) (rev ms)); [reflexivity|].
  simpl. destruct (Id_eqb (m_id x) k) eqn:E.
  - apply Id_eqb_eq in E. subst. apply Map_get_set_same.
  - apply Id_eqb_neq in E. now apply Map_get_set_other.
Qed.

Lemma matchOf_last matches k :
  matchOf matches k = find (fun m => Id_eqb (m_id m) k) (rev matches).
Proof.
  unfold matchOf, matchIndex, Map_of. rewrite index_get_acc.
  destruct (find _ (rev matches)); reflexivity.
Qed.

Lemma find_filter_agree {A : Type} (p q : A -> bool) (l : list A) :
  (forall x, p x = true -> q x = true) -> find p (filter q l) = find p l.
Proof.
  intros H. induction l as [|x l IH]; simpl; [reflexivity|].
  destruct (q x) eqn:Eq; simpl.
  - destruct (p x); [reflexivity|exact IH].
  - destruct (p x) eqn:Ep; [|exact IH]. apply H in Ep. congruence.
Qed.

Lemma filter_rev {A : Type} (q : A -> bool) (l : list A) :
  filter q (rev l) = rev (filter q l).
Proof.
  induction l as [|x l IH]; simpl; [reflexivity|].
  rewrite filter_app, IH. simpl. destruct (q x); simpl; [reflexivity|now rewrite app_nil_r].
Qed.

Lemma matchOf_pending config matches k :
  isPending config k = true -> matchOf (pendingOf config matches) k = matchOf matches k.
Proof.
  intros Hk. rewrite !matchOf_last. unfold pendingOf. rewrite <- filter_rev.
  apply find_filter_agree. intros x Hx. apply Id_eqb_eq in Hx. now rewrite Hx.
Qed.

Section Shape.
Variable lc : string -> string -> Z.
Variable env : LoopEnv.
Variable matches : list Match.
Variable courtIds : list Id.
Variable origin : Z.
Variable initial : list ScheduledMatch.

Lemma ShapeInv_step st st' :
  ShapeInv matches courtIds origin initial st -> Step lc env st st' ->
  ShapeInv matches courtIds origin initial st'.
Proof.
  intros [Hmm Hq Hc Ht (placed & Hs & Hp)] Hstep.
  destruct Hstep as [st ev rest Hev Hle|st task idx avail Hf Hin Ha Hcourt Hle|st t Hf Hlt].
  - assert (Hg : GraphOk matches
                   (st_matchMap (processEvent lc env (withEvents st rest) ev),
                    st_queue (processEvent lc env (withEvents st rest) ev))).
    { rewrite processEvent_graph. apply unlock_all_ok. split; assumption. }
    destruct Hg as [Hg1 Hg2].
    constructor; try assumption.
    + unfold processEvent. destruct (fold_left _ _ _). cbn [st_courtStates withEvents].
      unfold freeCourt. now rewrite update_first_ids.
    + now rewrite processEvent_time.
    + exists placed. now rewrite processEvent_schedule.
  - rewrite (placement_time _ _ _ _ _ Hle).
    constructor.
    + exact Hmm.
    + intros t Ht'. apply Hq. eapply remove_subset. exact Ht'.
    + cbn [placeMatch st_courtStates]. now rewrite update_nth_ids.
    + exact Ht.
    + exists (placed ++ [entryOf st task idx]). split.
      * rewrite placeMatch_schedule, Hs. now rewrite app_assoc.
      * apply Forall_app. split; [assumption|]. constructor; [|constructor].
        exists (task_match task). cbn [entryOf s_matchId s_startTime s_endTime s_round s_courtId].
        split; [now apply Hq|]. split; [reflexivity|]. split; [reflexivity|].
        split; [assumption|].
        destruct (findAvailableCourt_index _ _ _ _ Hcourt) as [c Hnth]. rewrite Hnth.
        rewrite <- Hc. apply in_map. eapply nth_error_In; eauto.
  - constructor; [exact Hmm|exact Hq|exact Hc| |now exists placed].
    cbn [setTime st_time]. lia.
Qed.

Lemma ShapeInv_reachable st0 st :
  ShapeInv matches courtIds origin initial st0 -> Reachable lc env st0 st ->
  ShapeInv matches courtIds origin initial st.
Proof. intros H0 Hr. induction Hr; [assumption|]. eapply ShapeInv_step; eauto. Qed.
End Shape.

(** ** The initial state of [rescheduleMatches] *)

Section Seeding.
Variable lc : string -> string -> Z.
Variable done : list Id.

Lemma seed_get (l : list (Id * MatchTask)) : forall mm q X,
  NoDup (map fst l) ->
  (forall k t, In (k, t) l -> Map_get Id_eq_dec k mm = Some t) ->
  Map_get Id_eq_dec X (fst (fold_left (rescheduleSeed lc done) l (mm, q)))
  = match Map_get Id_eq_dec X mm with
    | Some t =>
        Some (if in_dec Id_eq_dec X (map fst l)
              then if seedable done t then cleared t else t
              else t)
    | None => None
    end.
Proof.
  induction l as [|[k t] l IH]; intros mm q X Hnd Hl.
  - simpl. destruct (Map_get Id_eq_dec X mm); reflexivity.
  - inversion Hnd as [|? ? Hk Hnd']; subst.
    assert (Hkt : Map_get Id_eq_dec k mm = Some t) by (apply Hl; now left).
    cbn [fold_left]. unfold rescheduleSeed at 2. cbn [fst snd].
    fold (seedable done t). fold (cleared t).
    destruct (seedable done t) eqn:Es.
    + rewrite IH; [|assumption|].
      2:{ intros k' t' Hin. rewrite Map_get_set_other; [apply Hl; now right|].
          intros <-. apply Hk. apply in_map_iff. now exists (k, t'). }
      destruct (Id_eq_dec k X) as [<-|Hne].
      * rewrite Map_get_set_same, Hkt.
        destruct (in_dec Id_eq_dec k (map fst l)) as [Hin|_]; [tauto|].
        destruct (in_dec Id_eq_dec k (map fst ((k, t) :: l))) as [_|Hn]; [|simpl in Hn; tauto].
        now rewrite Es.
      * rewrite Map_get_set_other by assumption.
        destruct (Map_get Id_eq_dec X mm) as [tx|]; [|reflexivity].
        destruct (in_dec Id_eq_dec X (map fst l)) as [Hin|Hnin];
          destruct (in_dec Id_eq_dec X (map fst ((k, t) :: l))) as [Hin'|Hnin'];
          simpl in *; try reflexivity; tauto.
    + rewrite IH; [|assumption|intros; apply Hl; now right].
      destruct (Map_get Id_eq_dec X mm) as [tx|] eqn:Hx; [|reflexivity].
      destruct (in_dec Id_eq_dec X (map fst l)) as [Hin|Hnin];
        destruct (in_dec Id_eq_dec X (map fst ((k, t) :: l))) as [Hin'|Hnin'];
        simpl in *; try reflexivity; try tauto.
      destruct Hin' as [->|Hin']; [|tauto].
      rewrite Hkt in Hx. inversion Hx; subst. now rewrite Es.
Qed.

Lemma seed_queue (l : list (Id * MatchTask)) : forall mm q,
  Permutation (snd (fold_left (rescheduleSeed lc done) l (mm, q)))
    (q ++ map (fun kv => cleared (snd kv)) (filter (fun kv => seedable done (snd kv)) l)).
Proof.
  induction l as [|[k t] l IH]; intros mm q; cbn [fold_left filter map].
  - now rewrite app_nil_r.
  - unfold rescheduleSeed at 2. cbn [fst snd].
    fold (seedable done t). fold (cleared t).
    destruct (seedable done t).
    + rewrite IH. cbn [map snd].
      rewrite <- (enqueue_perm lc (cleared t) q).
      simpl. apply Permutation_middle.
    + apply IH.
Qed.
End Seeding.

Section RescheduleInit.
Variable lc : string -> string -> Z.
Variable matches : list Match.
Variable courts : list Court.
Variable config : RescheduleConfig.

Lemma rescheduleInit_matchMap X :
  Map_get Id_eq_dec X (st_matchMap (rescheduleInit lc matches courts config))
  = match Map_get Id_eq_dec X (fst (buildGraph (pendingOf config matches))) with
    | Some t => Some (if seedable (completedIds config) t then cleared t else t)
    | None => None
    end.
Proof.
  cbn [rescheduleInit st_matchMap]. fold (pendingOf config matches).
  rewrite seed_get.
  - destruct (Map_get Id_eq_dec X (fst (buildGraph (pendingOf config matches)))) as [t|] eqn:E;
      [|reflexivity].
    destruct (in_dec Id_eq_dec X _) as [_|Hn]; [reflexivity|].
    exfalso. apply Hn. apply in_map_iff. exists (X, t). split; [reflexivity|].
    now apply (Map_get_In Id_eq_dec).
  - apply buildGraph_keys_NoDup.
  - intros k t Hin. apply Map_get_of_In; [apply buildGraph_keys_NoDup|assumption].
Qed.

Lemma rescheduleInit_queue :
  Permutation (st_queue (rescheduleInit lc matches courts config))
    (map (fun kv => cleared (snd kv))
       (filter (fun kv => seedable (completedIds config) (snd kv))
          (fst (buildGraph (pendingOf config matches))))).
Proof.
  cbn [rescheduleInit st_queue]. fold (pendingOf config matches).
  rewrite seed_queue. reflexivity.
Qed.

Lemma paintCompleted_ids restMinutes setupMinutes now (l : list CompletedScheduledMatch) :
  forall acc,
    map cs_courtId (snd (fold_left (paintCompleted restMinutes setupMinutes now) l acc))
    = map cs_courtId (snd acc).
Proof.
  induction l as [|c l IH]; intros acc; simpl; [reflexivity|].
  rewrite IH. unfold paintCompleted. cbn [snd].
  apply update_first_ids. intros x. destruct (_ >? _); reflexivity.
Qed.

Lemma rescheduleInit_courts :
  map cs_courtId (st_courtStates (rescheduleInit lc matches courts config))
  = map court_id courts.
Proof.
  cbn [rescheduleInit st_courtStates]. rewrite paintCompleted_ids. cbn [snd].
  rewrite map_map. reflexivity.
Qed.

Lemma rescheduleInit_graph :
  MatchMapOk (pendingOf config matches) (rescheduleInit lc matches courts config)
  /\ QueueOk (pendingOf config matches) (rescheduleInit lc matches courts config).
Proof.
  split.
  - intros X task H. rewrite rescheduleInit_matchMap in H.
    destruct (Map_get Id_eq_dec X (fst (buildGraph (pendingOf config matches)))) as [t|] eqn:E;
      [|discriminate].
    apply Map_get_In, buildGraph_entry in E. destruct E as (H1 & H2 & _).
    inversion H; subst. destruct (seedable _ t); simpl; now split.
  - intros task H. apply (Permutation_in _ rescheduleInit_queue) in H.
    apply in_map_iff in H. destruct H as ([k t] & <- & H). apply filter_In in H.
    destruct H as [H _]. apply buildGraph_entry in H. destruct H as (H1 & H2 & _).
    simpl. now rewrite H2.
Qed.

Lemma rescheduleInit_ShapeInv :
  ShapeInv (pendingOf config matches) (map court_id courts) (currentTime config)
    (map (completedEntry matches) (completedMatches config))
    (rescheduleInit lc matches courts config).
Proof.
  destruct rescheduleInit_graph as [H1 H2].
  constructor; try assumption.
  - apply rescheduleInit_courts.
  - cbn [rescheduleInit st_time]. lia.
  - exists []. split; [now rewrite app_nil_r|constructor].
Qed.
End RescheduleInit.

Lemma scheduleInit_ShapeInv lc matches courts start :
  ShapeInv matches (map court_id courts) start [] (scheduleInit lc matches courts start).
Proof.
  pose proof (scheduleInit_TeamInv matches lc courts start 0) as Ht.
  constructor.
  - apply Ht.
  - apply Ht.
  - cbn [scheduleInit st_courtStates]. rewrite map_map. reflexivity.
  - cbn [scheduleInit st_time]. lia.
  - exists []. split; [reflexivity|constructor].
Qed.

Lemma filter_all {A : Type} (f : A -> bool) (l : list A) :
  (forall x, In x l -> f x = true) -> filter f l = l.
Proof.
  induction l as [|x l IH]; intros H; simpl; [reflexivity|].
  rewrite (H x) by now left. f_equal. apply IH. intros; apply H; now right.
Qed.

Lemma filter_none {A : Type} (f : A -> bool) (l : list A) :
  (forall x, In x l -> f x = false) -> filter f l = [].
Proof.
  induction l as [|x l IH]; intros H; simpl; [reflexivity|].
  rewrite (H x) by now left. apply IH. intros; apply H; now right.
Qed.

(** The loop is left with nothing queued and no event pending. *)
Lemma runLoop_exit lc env fuel st st' :
  runLoop lc env fuel st = Returned st' -> st_queue st' = [] /\ st_events st' = [].
Proof.
  assert (Hstop : forall s,
            negb (MatchQueue_isEmpty (st_queue s)) || negb (isEmpty (st_events s)) = false ->
            st_queue s = [] /\ st_events s = []).
  { intros s. destruct (st_queue s), (st_events s); simpl; try discriminate. now split. }
  revert st. induction fuel as [|fuel IH]; intros st; simpl.
  - destruct (_ || _) eqn:E; [discriminate|]. intros H; inversion H; subst. now apply Hstop.
  - destruct (_ || _) eqn:E; [|intros H; inversion H; subst; now apply Hstop].
    unfold loopBody.
    destruct (placementPass env _ _); [apply IH|].
    destruct (st_events (flushEvents lc env st)) eqn:Eev; [|apply IH].
    destruct (st_queue (flushEvents lc env st)) eqn:Eq; simpl.
    + intros H; inversion H; subst. now split.
    + destruct (_ <? MAX_DATE); [apply IH|discriminate].
Qed.

Section ReturnedEntries.
Variable lc : string -> string -> Z.

Lemma EntryOk_pending config matches courtIds origin s :
  EntryOk (pendingOf config matches) courtIds origin s ->
  isPending config (s_matchId s) = true /\ EntryOk matches courtIds origin s.
Proof.
  intros (m & Hof & Hrest).
  destruct (matchOf_id _ _ _ Hof) as [Hid Hin].
  apply filter_In in Hin. destruct Hin as [_ Hp]. rewrite Hid in Hp.
  split; [exact Hp|]. exists m. split; [|exact Hrest].
  now rewrite <- (matchOf_pending config matches) by assumption.
Qed.

Lemma completedEntry_done config matches s :
  In s (map (completedEntry matches) (completedMatches config)) ->
  isPending config (s_matchId s) = false.
Proof.
  intros H. apply in_map_iff in H. destruct H as (c & <- & Hc).
  destruct (isPending config (s_matchId (completedEntry matches c))) eqn:E; [|reflexivity].
  apply isPending_spec in E. exfalso. apply E. simpl. now apply in_map.
Qed.

(** The loop of [scheduleMatches], when it returns: the state at the exit
    and what is known of the entries it placed. *)
Lemma scheduleMatches_state fuel now matches courts config r :
  scheduleMatches lc fuel now matches courts config = Returned r ->
  exists st,
    Reachable lc (scheduleEnv config (startOf config now) (snd (buildGraph matches)))
      (scheduleInit lc matches courts (startOf config now)) st
    /\ st_queue st = [] /\ st_events st = []
    /\ length (st_schedule st) = length matches
    /\ schedule r = st_schedule st
    /\ summary r = summarize (st_schedule st) (st_schedule st)
                     (startOf config now) (startOf config now)
    /\ Forall (EntryOk matches (map court_id courts) (startOf config now)) (st_schedule st).
Proof.
  intros H. pose proof (schedule_loop_invariant lc _ _ _ _ _ _ H) as (st' & _ & _ & Hsorted).
  apply scheduleMatches_returned in H.
  destruct H as (st & Hrun & Hlen & -> & _). exists st.
  pose proof (runLoop_reachable _ _ _ _ _ Hrun) as Hreach.
  split; [exact Hreach|].
  pose proof (runLoop_exit lc _ _ _ _ Hrun) as Hexit.
  split; [apply Hexit|]. split; [apply Hexit|]. split; [exact Hlen|].
  pose proof (ShapeInv_reachable lc _ matches (map court_id courts) (startOf config now) []
                _ st (scheduleInit_ShapeInv lc matches courts (startOf config now)) Hreach)
    as Hshape.
  destruct (shape_entries _ _ _ _ _ Hshape) as (placed & Hs & Hp). simpl in Hs. subst placed.
  split; [|split; [reflexivity|exact Hp]].
  cbn [schedule]. apply array_sort_sorted_id.
  pose proof (TeamInv_reachable lc _ matches _ st
                (scheduleInit_TeamInv matches lc courts (startOf config now)
                   (restMsOf (scheduleEnv config (startOf config now)
                                (snd (buildGraph matches))))) Hreach) as Ht.
  apply Ht.
Qed.
End ReturnedEntries.

Section ReturnedReschedule.
Variable lc : string -> string -> Z.

(** The loop of [rescheduleMatches], when it returns: the schedule at the
    exit is the completed entries followed by the entries placed, and the
    result lists the placed entries. *)
Lemma rescheduleMatches_state fuel matches courts config r :
  rescheduleMatches lc fuel matches courts config = Returned r ->
  exists st placed,
    Reachable lc (rescheduleEnv config (snd (buildGraph (pendingOf config matches))))
      (rescheduleInit lc matches courts config) st
    /\ st_queue st = [] /\ st_events st = []
    /\ st_schedule st = map (completedEntry matches) (completedMatches config) ++ placed
    /\ length placed = length (pendingOf config matches)
    /\ schedule r = array_sort compareStart placed
    /\ summary r = summarize (st_schedule st) placed
                     (startOf (base config) (currentTime config)) (currentTime config)
    /\ Forall (EntryOk (pendingOf config matches) (map court_id courts) (currentTime config))
         placed.
Proof.
  unfold rescheduleMatches. fold (pendingOf config matches).
  destruct (Nat.eqb (length matches) 0); [discriminate|].
  destruct (Nat.eqb (length courts) 0); [discriminate|].
  destruct (runLoop lc _ fuel _) as [st| |] eqn:Hrun; try discriminate.
  pose proof (runLoop_reachable _ _ _ _ _ Hrun) as Hreach.
  pose proof (runLoop_exit _ _ _ _ _ Hrun) as [Hq He].
  pose proof (ShapeInv_reachable lc _ _ _ _ _ _ st
                (rescheduleInit_ShapeInv lc matches courts config) Hreach) as Hshape.
  destruct (shape_entries _ _ _ _ _ Hshape) as (placed & Hs & Hp).
  assert (Hfilter : filter (fun s => isPending config (s_matchId s)) (st_schedule st) = placed).
  { rewrite Hs, filter_app.
    rewrite (filter_none _ (map (completedEntry matches) (completedMatches config)))
      by (intros x Hx; now apply (completedEntry_done config matches)).
    simpl. apply filter_all. intros x Hx. rewrite Forall_forall in Hp.
    now apply (EntryOk_pending config matches _ _ x (Hp x Hx)). }
  rewrite Hfilter.
  destruct (Nat.eqb (length placed) (length (pendingOf config matches))) eqn:Elen;
    simpl; [|discriminate].
  apply Nat.eqb_eq in Elen.
  intros H. inversion H; subst r. exists st, placed.
  repeat split; auto.
Qed.
End ReturnedReschedule.

Section EntryTheorems.
Variable lc : string -> string -> Z.

Lemma returned_entries fuel now matches courts config rconfig r :
  scheduleMatches lc fuel now matches courts config = Returned r
  \/ rescheduleMatches lc fuel matches courts rconfig = Returned r ->
  exists origin, Forall (EntryOk matches (map court_id courts) origin) (schedule r).
Proof.
  intros [H|H].
  - apply scheduleMatches_state in H.
    destruct H as (st & _ & _ & _ & _ & -> & _ & Hp). eauto.
  - apply rescheduleMatches_state in H.
    destruct H as (st & placed & _ & _ & _ & _ & _ & -> & _ & Hp).
    exists (currentTime rconfig). apply Forall_forall. intros s Hs.
    apply array_sort_In in Hs. rewrite Forall_forall in Hp.
    now apply (EntryOk_pending rconfig matches _ _ s (Hp s Hs)).
Qed.

(** X8.  Every entry of a schedule returned by either entry point stands for a
    match of the input: it carries the identity of a match of the list
    (the last one with that identity), its round, and an end time that is
    the start time plus the duration of the match in minutes. *)
Theorem entry_copies_its_match fuel now matches courts config rconfig r :
  scheduleMatches lc fuel now matches courts config = Returned r
  \/ rescheduleMatches lc fuel matches courts rconfig = Returned r ->
  forall s, In s (schedule r) ->
    exists m,
      In m matches /\ m_id m = s_matchId s
      /\ matchOf matches (s_matchId s) = Some m
      /\ s_round s = round m
      /\ s_endTime s = s_startTime s + duration m * MS_PER_MINUTE.
Proof.
  intros H s Hs. destruct (returned_entries _ _ _ _ _ _ _ H) as [origin Hp].
  rewrite Forall_forall in Hp. destruct (Hp s Hs) as (m & Hof & Hend & Hround & _).
  exists m. destruct (matchOf_id _ _ _ Hof). repeat split; auto.
Qed.

(** X9.  Every entry of a schedule returned by either entry point is on one of
    the courts given to the call. *)
Theorem entry_on_a_given_court fuel now matches courts config rconfig r :
  scheduleMatches lc fuel now matches courts config = Returned r
  \/ rescheduleMatches lc fuel matches courts rconfig = Returned r ->
  forall s, In s (schedule r) -> exists court, In court courts /\ court_id court = s_courtId s.
Proof.
  intros H s Hs. destruct (returned_entries _ _ _ _ _ _ _ H) as [origin Hp].
  rewrite Forall_forall in Hp. destruct (Hp s Hs) as (m & _ & _ & _ & _ & Hc).
  apply in_map_iff in Hc. destruct Hc as (court & E & Hin). now exists court.
Qed.

(** X10.  No entry of a schedule returned by [scheduleMatches] starts before the
    start of the tournament: the configured start time, or the clock
    reading when none is configured. *)
Theorem no_entry_before_the_start fuel now matches courts config r :
  scheduleMatches lc fuel now matches courts config = Returned r ->
  forall s, In s (schedule r) -> startOf config now <= s_startTime s.
Proof.
  intros H s Hs. apply scheduleMatches_state in H.
  destruct H as (st & _ & _ & _ & _ & Hr & _ & Hp). rewrite Hr in Hs.
  rewrite Forall_forall in Hp. destruct (Hp s Hs) as (m & _ & _ & _ & Hle & _). exact Hle.
Qed.
End EntryTheorems.

(** ** The loop does not read the schedule *)

Section Erasure.
Variable lc : string -> string -> Z.
Variable env : LoopEnv.
Variable k : nat.

Lemma erase_processEvent st ev :
  erase k (processEvent lc env st ev) = processEvent lc env (erase k st) ev.
Proof.
  unfold processEvent, erase. cbn [st_matchMap st_queue st_courtStates st_teamStates
                                  st_schedule st_events st_time].
  destruct (fold_left _ _ _). reflexivity.
Qed.

Lemma erase_placeMatch st task idx start :
  (k <= length (st_schedule st))%nat ->
  erase k (placeMatch env st task idx start) = placeMatch env (erase k st) task idx start.
Proof.
  intros Hk. unfold placeMatch, erase.
  cbn [st_matchMap st_queue st_courtStates st_teamStates st_schedule st_events st_time].
  f_equal. rewrite skipn_app.
  replace (k - length (st_schedule st))%nat with 0%nat by lia. reflexivity.
Qed.

Lemma Step_erase st st' :
  (k <= length (st_schedule st))%nat ->
  Step lc env st st' ->
  Step lc env (erase k st) (erase k st') /\ (k <= length (st_schedule st'))%nat.
Proof.
  intros Hk Hstep.
  destruct Hstep as [st ev rest Hev Hle|st task idx avail Hf Hin Ha Hc Hle|st t Hf Ht].
  - split; [|now rewrite processEvent_schedule].
    rewrite erase_processEvent.
    change (erase k (withEvents st rest)) with (withEvents (erase k st) rest).
    now constructor.
  - split; [|cbn [placeMatch st_schedule]; rewrite length_app; lia].
    rewrite erase_placeMatch by assumption.
    now apply (StepPlace lc env (erase k st) task idx avail).
  - split; [|exact Hk].
    change (erase k (setTime st t)) with (setTime (erase k st) t). now constructor.
Qed.

Lemma Reachable_erase st0 st :
  (k <= length (st_schedule st0))%nat ->
  Reachable lc env st0 st ->
  Reachable lc env (erase k st0) (erase k st) /\ (k <= length (st_schedule st))%nat.
Proof.
  intros Hk Hr. induction Hr as [|st st' Hr [IH1 IH2] Hstep].
  - split; [constructor|assumption].
  - destruct (Step_erase st st' IH2 Hstep) as [H1 H2].
    split; [econstructor; eauto|assumption].
Qed.
End Erasure.

(** ** The invariants of the loop in [rescheduleMatches] *)

Section Painting.
Variable restMinutes setupMinutes now : Z.

Lemma paintTeam_idle restEnd teamId teamStates :
  allIdle teamStates -> allIdle (paintTeam restEnd now teamId teamStates).
Proof.
  intros H key state. unfold paintTeam, ensureTeamState.
  destruct (Map_get TeamKey_eq_dec (Some teamId) teamStates) as [old|] eqn:E.
  - destruct (restEnd >? ts_availableAt old); [|apply H].
    destruct (TeamKey_eq_dec (Some teamId) key) as [<-|Hne].
    + rewrite Map_get_set_same. intros Hs; inversion Hs; subst. simpl. eauto.
    + rewrite Map_get_set_other by assumption. apply H.
  - cbn [ts_availableAt ts_teamId ts_currentMatch].
    destruct (restEnd >? now).
    + destruct (TeamKey_eq_dec (Some teamId) key) as [<-|Hne].
      * rewrite Map_get_set_same. intros Hs; inversion Hs; subst. reflexivity.
      * rewrite !Map_get_set_other by assumption. apply H.
    + destruct (TeamKey_eq_dec (Some teamId) key) as [<-|Hne].
      * rewrite Map_get_set_same. intros Hs; inversion Hs; subst. reflexivity.
      * rewrite Map_get_set_other by assumption. apply H.
Qed.

Lemma paintCompleted_idle (l : list CompletedScheduledMatch) : forall acc,
  allIdle (fst acc) ->
  allIdle (fst (fold_left (paintCompleted restMinutes setupMinutes now) l acc)).
Proof.
  induction l as [|c l IH]; intros acc H; simpl; [assumption|].
  apply IH. unfold paintCompleted. cbn [fst]. now apply paintTeam_idle, paintTeam_idle.
Qed.
End Painting.

Section RescheduleInvariants.
Variable lc : string -> string -> Z.
Variable matches : list Match.
Variable courts : list Court.
Variable config : RescheduleConfig.

Local Notation "'done'" := (length (completedMatches config)).
Local Notation "'pending'" := (pendingOf config matches).
Local Notation "'env'" :=
  (rescheduleEnv config (snd (buildGraph (pendingOf config matches)))).
Local Notation "'init'" := (rescheduleInit lc matches courts config).

Lemma rescheduleInit_erased :
  st_schedule (erase done init) = [] /\ (done <= length (st_schedule init))%nat.
Proof.
  cbn [erase rescheduleInit st_schedule]. rewrite <- (length_map (completedEntry matches)).
  split; [apply skipn_all|lia].
Qed.

Lemma rescheduleInit_TeamInv restMs : TeamInv pending restMs (erase done init).
Proof.
  destruct (rescheduleInit_graph lc matches courts config) as [Hmm Hq].
  destruct rescheduleInit_erased as [Hs _].
  constructor; rewrite ?Hs.
  - exact Hmm.
  - exact Hq.
  - intros team. unfold TeamOk. rewrite Hs. cbn [filter].
    change (st_events (erase done init)) with (@nil Event).
    change (st_teamStates (erase done init))
      with (fst (fold_left
                   (paintCompleted (restTime (base config))
                      match courtSetupTime (base config) with Some t => t | None => 0 end
                      (currentTime config))
                   (completedMatches config)
                   ([], map (fun court =>
                               {| cs_courtId := court_id court;
                                  cs_availableAt :=
                                    match startTime (base config) with
                                    | Some t => t
                                    | None => currentTime config
                                    end;
                                  cs_currentMatch := None |}) courts))).
    destruct (Map_get TeamKey_eq_dec (Some team) _) as [state|] eqn:E; [|now split].
    apply paintCompleted_idle in E; [|intros ? ? H; discriminate H].
    rewrite E. split; [reflexivity|]. split; [intros s []|discriminate].
  - intros team. constructor.
  - constructor.
  - intros s [].
  - constructor.
Qed.

(** What [rescheduleMatches] returns is the list of the entries placed by
    the loop, in the order of placement, which is the order of start
    times; the state at the exit, without the completed entries,
    satisfies the team invariant over the pending matches. *)
Lemma rescheduleMatches_placed fuel r :
  rescheduleMatches lc fuel matches courts config = Returned r ->
  exists st,
    Reachable lc env (erase done init) (erase done st)
    /\ Reachable lc env init st
    /\ st_schedule st
       = map (completedEntry matches) (completedMatches config) ++ schedule r
    /\ st_schedule (erase done st) = schedule r
    /\ st_queue st = [] /\ st_events st = []
    /\ length (schedule r) = length pending
    /\ TeamInv pending (restTime (base config) * MS_PER_MINUTE) (erase done st)
    /\ Forall (EntryOk pending (map court_id courts) (currentTime config)) (schedule r).
Proof.
  intros H. apply rescheduleMatches_state in H.
  destruct H as (st & placed & Hreach & Hq & He & Hs & Hlen & Hr & _ & Hp).
  exists st.
  destruct (Reachable_erase lc env done init st (proj2 rescheduleInit_erased) Hreach)
    as [Hreach' _].
  pose proof (TeamInv_reachable lc env pending _ _
                (rescheduleInit_TeamInv (restMsOf env)) Hreach') as Hinv.
  assert (Hplaced : st_schedule (erase done st) = placed).
  { cbn [erase st_schedule]. rewrite Hs, skipn_app, length_map, Nat.sub_diag.
    rewrite <- (length_map (completedEntry matches)), skipn_all. reflexivity. }
  assert (Hsorted : schedule r = placed).
  { rewrite Hr. apply array_sort_sorted_id. rewrite <- Hplaced. apply Hinv. }
  rewrite Hsorted.
  split; [exact Hreach'|]. split; [exact Hreach|]. split; [exact Hs|].
  split; [exact Hplaced|]. split; [exact Hq|]. split; [exact He|].
  split; [exact Hlen|]. split; [exact Hinv|exact Hp].
Qed.
End RescheduleInvariants.

Section RescheduleTeams.
Variable lc : string -> string -> Z.



End RescheduleTeams.

(** ** The court invariant is kept by every transition *)

Lemma update_first_map (k : Id) (f : CourtState -> CourtState) (l : list CourtState) :
  NoDup (map cs_courtId l) ->
  update_first (fun c => Id_eqb (cs_courtId c) k) f l
  = map (fun c => if Id_eqb (cs_courtId c) k then f c else c) l.
Proof.
  induction l as [|x l IH]; intros Hnd; simpl; [reflexivity|].
  inversion Hnd as [|? ? Hx Hnd']; subst.
  destruct (Id_eqb (cs_courtId x) k) eqn:E.
  - f_equal. apply Id_eqb_eq in E. subst k.
    rewrite <- (map_id l) at 1. apply map_ext_in. intros c Hc.
    destruct (Id_eqb (cs_courtId c) (cs_courtId x)) eqn:Ec; [|reflexivity].
    apply Id_eqb_eq in Ec. exfalso. apply Hx. rewrite <- Ec. now apply in_map.
  - f_equal. now apply IH.
Qed.

Lemma update_nth_map (i : nat) (f : CourtState -> CourtState) (l : list CourtState) c0 :
  NoDup (map cs_courtId l) -> nth_error l i = Some c0 ->
  update_nth i f l
  = map (fun c => if Id_eqb (cs_courtId c) (cs_courtId c0) then f c else c) l.
Proof.
  revert i. induction l as [|x l IH]; intros i Hnd Hi; [destruct i; discriminate|].
  inversion Hnd as [|? ? Hx Hnd']; subst. destruct i as [|i]; simpl in *.
  - inversion Hi; subst x. rewrite Id_eqb_refl. f_equal.
    rewrite <- (map_id l) at 1. apply map_ext_in. intros c Hc.
    destruct (Id_eqb (cs_courtId c) (cs_courtId c0)) eqn:Ec; [|reflexivity].
    apply Id_eqb_eq in Ec. exfalso. apply Hx. rewrite <- Ec. now apply in_map.
  - destruct (Id_eqb (cs_courtId x) (cs_courtId c0)) eqn:Ex.
    + apply Id_eqb_eq in Ex. exfalso. apply Hx. rewrite Ex.
      apply in_map. eapply nth_error_In; eauto.
    + f_equal. now apply IH.
Qed.

Lemma pendingOn_cons courtId ev pending :
  pendingOn courtId (ev :: pending)
  = ((if eventOn courtId ev then 1 else 0) + pendingOn courtId pending)%nat.
Proof. unfold pendingOn. simpl. destruct (eventOn courtId ev); reflexivity. Qed.

Lemma pendingOn_zero courtId pending :
  pendingOn courtId pending = 0%nat ->
  forall ev, In ev pending -> eventOn courtId ev = false.
Proof.
  induction pending as [|e pending IH]; intros H ev Hin; [destruct Hin|].
  rewrite pendingOn_cons in H. destruct (eventOn courtId e) eqn:E; [discriminate|].
  destruct Hin as [<-|Hin]; [assumption|]. apply IH; [exact H|assumption].
Qed.

Lemma pendingOn_some courtId pending :
  (0 < pendingOn courtId pending)%nat ->
  exists ev, In ev pending /\ eventOn courtId ev = true.
Proof.
  induction pending as [|e pending IH]; [simpl; unfold pendingOn; simpl; lia|].
  rewrite pendingOn_cons. destruct (eventOn courtId e) eqn:E.
  - intros _. exists e. split; [now left|assumption].
  - intros H. destruct (IH H) as (ev & Hin & Hev). exists ev. split; [now right|assumption].
Qed.

Lemma pendingOn_perm courtId l l' :
  Permutation l l' -> pendingOn courtId l = pendingOn courtId l'.
Proof. apply Permutation_filter_length. Qed.

Lemma pendingOn_app courtId l l' :
  pendingOn courtId (l ++ l') = (pendingOn courtId l + pendingOn courtId l')%nat.
Proof. unfold pendingOn. now rewrite filter_app, length_app. Qed.

Lemma compareEvents_sorted (l : list Event) :
  StronglySorted (fun a b => ev_time a <= ev_time b) (array_sort compareEvents l).
Proof.
  assert (H : StronglySorted (fun a b => compareEvents a b <= 0) (array_sort compareEvents l)).
  { apply array_sort_sorted; unfold compareEvents; intros; lia. }
  induction H as [|a q Hs IH Hall]; constructor; auto.
  rewrite Forall_forall in *. intros b Hb. specialize (Hall b Hb).
  unfold compareEvents in Hall. lia.
Qed.

Lemma actualStart_court env courtAvailableAt teamEarliestStart :
  courtAvailableAt <= actualStart env courtAvailableAt teamEarliestStart.
Proof. unfold actualStart. destruct (env_floor env); lia. Qed.

(** After the flush every pending event is later than the current time. *)
Lemma flushed_all st :
  flushed st -> StronglySorted (fun a b => ev_time a <= ev_time b) (st_events st) ->
  forall ev, In ev (st_events st) -> st_time st < ev_time ev.
Proof.
  unfold flushed. intros Hf Hs ev Hin.
  destruct (st_events st) as [|e rest]; [destruct Hin|].
  inversion Hs as [|? ? _ Hall]; subst. rewrite Forall_forall in Hall.
  destruct Hin as [<-|Hin]; [assumption|]. specialize (Hall ev Hin). lia.
Qed.

Section CourtInvariant.
Variable lc : string -> string -> Z.
Variable env : LoopEnv.

Local Notation "'setupMs'" := (setupMsOf env).

Lemma processEvent_courtStates st ev :
  st_courtStates (processEvent lc env st ev) = freeCourt env ev (st_courtStates st).
Proof. unfold processEvent. destruct (fold_left _ _ _). reflexivity. Qed.

Lemma CourtInv_fire st ev rest :
  st_events st = ev :: rest -> ev_time ev <= st_time st ->
  CourtInv setupMs st -> CourtInv setupMs (processEvent lc env (withEvents st rest) ev).
Proof.
  intros Hev Hle [Hnd Hsorted Hok Hsetup Hapart].
  assert (Hcourts : st_courtStates (processEvent lc env (withEvents st rest) ev)
                    = map (fun c => if Id_eqb (cs_courtId c) (ev_courtId ev)
                                    then {| cs_courtId := cs_courtId c;
                                            cs_availableAt := ev_time ev + setupMs;
                                            cs_currentMatch := None |}
                                    else c) (st_courtStates st)).
  { rewrite processEvent_courtStates. unfold freeCourt.
    cbn [withEvents st_courtStates]. now apply update_first_map. }
  constructor.
  - rewrite processEvent_courtStates. unfold freeCourt.
    rewrite update_first_ids; [exact Hnd|reflexivity].
  - rewrite processEvent_events. cbn [withEvents st_events].
    rewrite Hev in Hsorted. now inversion Hsorted.
  - rewrite Hcourts. apply Forall_map. rewrite Forall_forall in *.
    intros c Hc. specialize (Hok c Hc). unfold CourtOk in *.
    rewrite Hev, pendingOn_cons in Hok.
    destruct (Id_eqb (cs_courtId c) (ev_courtId ev)) eqn:Eid.
    + cbn [cs_courtId cs_currentMatch cs_availableAt].
      rewrite processEvent_schedule, processEvent_events, processEvent_time.
      cbn [withEvents st_schedule st_events st_time].
      assert (Hon : eventOn (cs_courtId c) ev = true).
      { unfold eventOn. apply Id_eqb_eq in Eid. rewrite Eid. apply Id_eqb_refl. }
      rewrite Hon in Hok.
      destruct (cs_currentMatch c); [|destruct Hok; discriminate].
      destruct Hok as (Hcount & s & Hlast & Havail & Htimes & Hbefore).
      assert (Hend : ev_time ev = s_endTime s) by (apply Htimes; [now left|assumption]).
      split; [lia|]. split.
      * intros s' Hs'. rewrite (lastOf_split _ _ Hlast) in Hs'.
        apply in_app_iff in Hs'. destruct Hs' as [Hs'|[<-|[]]]; [auto|lia].
      * intros s' Hs'. rewrite Hlast in Hs'. inversion Hs'; subst. lia.
    + rewrite processEvent_schedule, processEvent_events, processEvent_time.
      cbn [withEvents st_schedule st_events st_time].
      assert (Hon : eventOn (cs_courtId c) ev = false).
      { unfold eventOn. apply Id_eqb_neq. apply Id_eqb_neq in Eid. congruence. }
      rewrite Hon in Hok. cbn [Nat.add] in Hok.
      destruct (cs_currentMatch c); [|exact Hok].
      destruct Hok as (Hcount & s & Hlast & Havail & Htimes & Hbefore).
      split; [exact Hcount|]. exists s. repeat split; auto.
      intros ev' Hin. apply Htimes. now right.
  - intros courtId. rewrite processEvent_schedule. apply Hsetup.
  - rewrite processEvent_schedule. exact Hapart.
Qed.

Lemma CourtInv_place st task idx avail :
  flushed st ->
  findAvailableCourt (st_time st) (st_courtStates st) = Some (idx, avail) ->
  actualStart env avail
    (calculateEarliestStartTime (task_match task) (st_time st) (st_teamStates st))
  <= st_time st ->
  CourtInv setupMs st -> CourtInv setupMs (placeMatch env st task idx (st_time st)).
Proof.
  intros Hf Hfind Hle [Hnd Hsorted Hok Hsetup Hapart].
  pose proof (findAvailableCourt_chosen (st_time st) (st_courtStates st)) as Hchoice.
  rewrite Hfind in Hchoice. destruct Hchoice as (c0 & Hnth & _ & Hcase).
  pose proof (actualStart_court env avail
                (calculateEarliestStartTime (task_match task) (st_time st) (st_teamStates st)))
    as Hge.
  assert (Hc0 : In c0 (st_courtStates st)) by (eapply nth_error_In; eauto).
  pose proof (proj1 (Forall_forall _ _) Hok c0 Hc0) as Hok0.
  assert (Hidle : cs_currentMatch c0 = None /\ cs_availableAt c0 <= st_time st).
  { destruct Hcase as [[Hfree _]|(Ht & _ & Hnone & _)].
    - unfold courtFree in Hfree. apply andb_true_iff in Hfree. destruct Hfree as [H1 H2].
      apply Z.leb_le in H1. split; [|exact H1].
      destruct (cs_currentMatch c0); [discriminate|reflexivity].
    - exfalso. destruct (Hnone c0 Hc0) as [Hbusy _].
      assert (Hav : cs_availableAt c0 <= st_time st) by lia.
      unfold courtFree in Hbusy. apply Z.leb_le in Hav. rewrite Hav in Hbusy.
      unfold CourtOk in Hok0.
      destruct (cs_currentMatch c0); [|discriminate].
      destruct Hok0 as (Hcount & s & Hlast & Havail & Htimes & _).
      destruct (pendingOn_some (cs_courtId c0) (st_events st)) as (ev & Hin & Hon); [lia|].
      pose proof (flushed_all st Hf Hsorted ev Hin) as Hlater.
      rewrite (Htimes ev Hin Hon) in Hlater. apply Z.leb_le in Hav. lia. }
  destruct Hidle as [Hcur Havail].
  unfold CourtOk in Hok0. rewrite Hcur in Hok0.
  destruct Hok0 as (Hcount0 & Hends0 & Hlast0).
  set (entry := entryOf st task idx).
  set (event := endEventOf st task idx).
  assert (Hcourt : s_courtId entry = cs_courtId c0).
  { unfold entry. cbn [entryOf s_courtId]. now rewrite Hnth. }
  assert (Hevcourt : ev_courtId event = cs_courtId c0).
  { unfold event. cbn [endEventOf ev_courtId]. now rewrite Hnth. }
  assert (Hperm : Permutation (st_events (placeMatch env st task idx (st_time st)))
                    (st_events st ++ [event])).
  { apply placeMatch_events_perm. }
  assert (Hcourts : st_courtStates (placeMatch env st task idx (st_time st))
                    = map (fun c => if Id_eqb (cs_courtId c) (cs_courtId c0)
                                    then {| cs_courtId := cs_courtId c;
                                            cs_availableAt := s_endTime entry;
                                            cs_currentMatch := Some (m_id (task_match task)) |}
                                    else c) (st_courtStates st)).
  { cbn [placeMatch st_courtStates]. now apply update_nth_map. }
  constructor.
  - cbn [placeMatch st_courtStates]. rewrite update_nth_ids; [exact Hnd|reflexivity].
  - rewrite placeMatch_events. apply compareEvents_sorted.
  - rewrite Hcourts. apply Forall_map. rewrite Forall_forall in *.
    intros c Hc. specialize (Hok c Hc). unfold CourtOk in *.
    rewrite placeMatch_schedule, filter_app. fold entry.
    rewrite (pendingOn_perm _ _ _ Hperm), pendingOn_app.
    change (st_time (placeMatch env st task idx (st_time st))) with (st_time st).
    cbn [filter]. rewrite pendingOn_cons. change (pendingOn _ []) with 0%nat.
    destruct (Id_eqb (cs_courtId c) (cs_courtId c0)) eqn:Eid.
    + apply Id_eqb_eq in Eid.
      cbn [cs_courtId cs_currentMatch cs_availableAt]. rewrite Eid.
      assert (Hon : onCourt (cs_courtId c0) entry = true).
      { unfold onCourt. rewrite Hcourt. apply Id_eqb_refl. }
      assert (Hevon : eventOn (cs_courtId c0) event = true).
      { unfold eventOn. rewrite Hevcourt. apply Id_eqb_refl. }
      rewrite Hon, Hevon. split; [lia|]. exists entry.
      split; [apply lastOf_app_single|]. split; [reflexivity|]. split.
      * intros ev Hev Hevc.
        apply (Permutation_in _ Hperm) in Hev. apply in_app_iff in Hev.
        destruct Hev as [Hev|[<-|[]]]; [|reflexivity].
        rewrite (pendingOn_zero _ _ Hcount0 ev Hev) in Hevc. discriminate.
      * rewrite removelast_last. exact Hends0.
    + assert (Hne : cs_courtId c <> cs_courtId c0) by now apply Id_eqb_neq.
      assert (Hon : onCourt (cs_courtId c) entry = false).
      { unfold onCourt. rewrite Hcourt. apply Id_eqb_neq. congruence. }
      assert (Hevon : eventOn (cs_courtId c) event = false).
      { unfold eventOn. rewrite Hevcourt. apply Id_eqb_neq. congruence. }
      rewrite Hon, Hevon, app_nil_r, !Nat.add_0_r.
      destruct (cs_currentMatch c); [|exact Hok].
      destruct Hok as (Hcount & s & Hlast & Hav & Htimes & Hbefore).
      split; [exact Hcount|]. exists s. repeat split; auto.
      intros ev Hev Hevc.
      apply (Permutation_in _ Hperm) in Hev. apply in_app_iff in Hev.
      destruct Hev as [Hev|[<-|[]]]; [auto|congruence].
  - intros courtId. rewrite placeMatch_schedule, filter_app. fold entry. cbn [filter].
    destruct (onCourt courtId entry) eqn:Eon; [|rewrite app_nil_r; apply Hsetup].
    apply Sorted_app_single; [apply Hsetup|].
    intros s Hs. unfold onCourt in Eon. apply Id_eqb_eq in Eon.
    rewrite Hcourt in Eon. subst courtId.
    unfold restedAfter. rewrite <- (Hlast0 s Hs). exact Havail.
  - rewrite placeMatch_schedule. fold entry.
    apply StronglySorted_app_single; [exact Hapart|].
    apply Forall_forall. intros s Hs Hsame.
    change (s_startTime entry) with (st_time st). apply Hends0.
    apply filter_In. split; [assumption|].
    unfold onCourt. rewrite Hsame, Hcourt. apply Id_eqb_refl.
Qed.

Lemma CourtInv_advance st t :
  st_time st < t -> CourtInv setupMs st -> CourtInv setupMs (setTime st t).
Proof.
  intros Ht [Hnd Hsorted Hok Hsetup Hapart].
  constructor; try assumption.
  rewrite Forall_forall in *. intros c Hc. specialize (Hok c Hc).
  unfold CourtOk in *. cbn [setTime st_schedule st_events st_time].
  destruct (cs_currentMatch c).
  - destruct Hok as (Hcount & s & Hlast & Hav & Htimes & Hbefore).
    split; [exact Hcount|]. exists s. repeat split; auto.
    intros s' Hs'. specialize (Hbefore s' Hs'). lia.
  - destruct Hok as (Hcount & Hends & Hrest). repeat split; auto.
    intros s Hs. specialize (Hends s Hs). lia.
Qed.

Lemma CourtInv_step st st' :
  CourtInv setupMs st -> Step lc env st st' -> CourtInv setupMs st'.
Proof.
  intros Hinv Hstep.
  destruct Hstep as [st ev rest Hev Hle|st task idx avail Hf Hin Ha Hc Hle|st t Hf Ht].
  - now apply CourtInv_fire.
  - rewrite (placement_time _ _ _ _ _ Hle). eapply CourtInv_place; eauto.
  - now apply CourtInv_advance.
Qed.

Lemma CourtInv_reachable st0 st :
  CourtInv setupMs st0 -> Reachable lc env st0 st -> CourtInv setupMs st.
Proof. intros H0 Hr. induction Hr; [assumption|]. eapply CourtInv_step; eauto. Qed.
End CourtInvariant.

(** ** Courts in the returned schedules *)

Section CourtTheorems.
Variable lc : string -> string -> Z.

Lemma paintCompleted_courts_idle restMinutes setupMinutes now
    (l : list CompletedScheduledMatch) : forall acc,
  Forall (fun c => cs_currentMatch c = None) (snd acc) ->
  Forall (fun c => cs_currentMatch c = None)
    (snd (fold_left (paintCompleted restMinutes setupMinutes now) l acc)).
Proof.
  induction l as [|c l IH]; intros acc H; simpl; [assumption|].
  apply IH. unfold paintCompleted. cbn [snd].
  induction (snd acc) as [|x xs IHx]; simpl; [constructor|].
  inversion H; subst.
  destruct (Id_eqb (cs_courtId x) (c_courtId c)).
  - constructor; [|assumption]. destruct (_ >? _); assumption.
  - constructor; [assumption|]. now apply IHx.
Qed.

Lemma idle_courts_CourtInv setupMs st :
  NoDup (map cs_courtId (st_courtStates st)) ->
  Forall (fun c => cs_currentMatch c = None) (st_courtStates st) ->
  st_schedule st = [] -> st_events st = [] ->
  CourtInv setupMs st.
Proof.
  intros Hnd Hidle Hs He. constructor; rewrite ?Hs, ?He.
  - exact Hnd.
  - constructor.
  - rewrite Forall_forall in *. intros c Hc. unfold CourtOk.
    rewrite (Hidle c Hc), Hs, He. cbn. repeat split; [intros s []|discriminate].
  - intros courtId. constructor.
  - constructor.
Qed.

Lemma scheduleInit_CourtInv matches courts start setupMs :
  NoDup (map court_id courts) ->
  CourtInv setupMs (scheduleInit lc matches courts start).
Proof.
  intros Hnd. apply idle_courts_CourtInv; try reflexivity.
  - cbn [scheduleInit st_courtStates]. now rewrite map_map.
  - cbn [scheduleInit st_courtStates]. apply Forall_map, Forall_forall. reflexivity.
Qed.

Lemma rescheduleInit_CourtInv matches courts config setupMs :
  NoDup (map court_id courts) ->
  CourtInv setupMs
    (erase (length (completedMatches config)) (rescheduleInit lc matches courts config)).
Proof.
  intros Hnd. apply idle_courts_CourtInv; try reflexivity.
  - change (st_courtStates (erase _ ?s)) with (st_courtStates s).
    now rewrite rescheduleInit_courts.
  - change (st_courtStates (erase _ ?s)) with (st_courtStates s).
    cbn [rescheduleInit st_courtStates]. apply paintCompleted_courts_idle.
    cbn [snd]. apply Forall_map, Forall_forall. reflexivity.
  - apply rescheduleInit_erased.
Qed.

Lemma schedule_CourtInv fuel now matches courts config r :
  NoDup (map court_id courts) ->
  scheduleMatches lc fuel now matches courts config = Returned r ->
  exists st, st_schedule st = schedule r /\ CourtInv (setupOf config * MS_PER_MINUTE) st.
Proof.
  intros Hnd H.
  pose proof (scheduleMatches_state lc _ _ _ _ _ _ H) as (st & Hreach & _ & _ & _ & Hr & _).
  exists st. split; [now rewrite Hr|].
  apply (CourtInv_reachable lc _ _ st) in Hreach; [exact Hreach|].
  now apply scheduleInit_CourtInv.
Qed.

Lemma reschedule_CourtInv fuel matches courts config r :
  NoDup (map court_id courts) ->
  rescheduleMatches lc fuel matches courts config = Returned r ->
  exists st,
    st_schedule st = schedule r /\ CourtInv (setupOf (base config) * MS_PER_MINUTE) st.
Proof.
  intros Hnd H.
  pose proof (rescheduleMatches_placed lc _ _ _ _ _ H) as (st & Hreach & _ & _ & Hr & _).
  exists (erase (length (completedMatches config)) st). split; [exact Hr|].
  apply (CourtInv_reachable lc _ _ _) in Hreach; [exact Hreach|].
  now apply rescheduleInit_CourtInv.
Qed.

Lemma apart_never_overlap (l : list ScheduledMatch) :
  StronglySorted sameCourtApart l ->
  forall i j a b,
    i <> j -> nth_error l i = Some a -> nth_error l j = Some b ->
    s_courtId a = s_courtId b -> ~ intervalsOverlap a b.
Proof.
  intros Hs i j a b Hij Ha Hb Hsame [x [[Ha1 Ha2] [Hb1 Hb2]]].
  destruct (Nat.lt_ge_cases i j) as [Hlt|Hge].
  - pose proof (StronglySorted_nth _ _ Hs i j a b Hlt Ha Hb Hsame). lia.
  - assert (Hlt : (j < i)%nat) by lia.
    pose proof (StronglySorted_nth _ _ Hs j i b a Hlt Hb Ha (eq_sym Hsame)). lia.
Qed.

(** X12.  When the courts given to the call have pairwise distinct identities,
    two distinct entries of a schedule returned by either entry point that
    are on the same court never have overlapping intervals
    [[start, end)]. *)
Theorem court_never_double_booked fuel now matches courts config rconfig r :
  NoDup (map court_id courts) ->
  scheduleMatches lc fuel now matches courts config = Returned r
  \/ rescheduleMatches lc fuel matches courts rconfig = Returned r ->
  forall i j a b,
    i <> j ->
    nth_error (schedule r) i = Some a -> nth_error (schedule r) j = Some b ->
    s_courtId a = s_courtId b ->
    ~ intervalsOverlap a b.
Proof.
  intros Hnd [H|H].
  - destruct (schedule_CourtInv _ _ _ _ _ _ Hnd H) as (st & Hr & Hinv).
    rewrite <- Hr. apply apart_never_overlap, Hinv.
  - destruct (reschedule_CourtInv _ _ _ _ _ Hnd H) as (st & Hr & Hinv).
    rewrite <- Hr. apply apart_never_overlap, Hinv.
Qed.



End CourtTheorems.

(** ** Errors on the inputs *)

Section InputErrors.
Variable lc : string -> string -> Z.

Lemma schedule_loop_errors fuel now matches courts config :
  (scheduleMatches lc fuel now matches courts config = Threw NoMatches ->
   matches <> [] -> courts <> [] -> False)
  /\ (scheduleMatches lc fuel now matches courts config = Threw NoCourts ->
      matches <> [] -> courts <> [] -> False).
Proof.
  split; intros H Hm Hc; apply scheduleMatches_throws in H; auto.
Qed.

Lemma reschedule_loop_errors fuel matches courts config :
  (rescheduleMatches lc fuel matches courts config = Threw NoMatches ->
   matches <> [] -> courts <> [] -> False)
  /\ (rescheduleMatches lc fuel matches courts config = Threw NoCourts ->
      matches <> [] -> courts <> [] -> False).
Proof.
  assert (G : forall e, rescheduleMatches lc fuel matches courts config = Threw e ->
                matches <> [] -> courts <> [] -> isFeasibilityError e).
  { unfold rescheduleMatches. intros e H Hm Hc.
    destruct matches as [|m ms]; [congruence|].
    destruct courts as [|c cs]; [congruence|].
    cbn [length Nat.eqb] in H.
    destruct (runLoop lc _ fuel _) as [st|e'|] eqn:Hrun; [| |discriminate].
    - destruct (negb _); inversion H. exact I.
    - inversion H; subst. apply runLoop_throws_deadlock in Hrun. subst. exact I. }
  split; intros H Hm Hc; apply G in H; auto.
Qed.

(** X7.  Both entry points check the match list first and the court list
    second: the error for an empty match list is raised exactly when the
    match list is empty, whatever the courts, and the error for an empty
    court list exactly when there are matches and no court; the loop and
    the terminal check never raise either. *)
Theorem input_errors_only_on_empty_input fuel now matches courts config rconfig :
  (scheduleMatches lc fuel now matches courts config = Threw NoMatches <-> matches = [])
  /\ (scheduleMatches lc fuel now matches courts config = Threw NoCourts
      <-> matches <> [] /\ courts = [])
  /\ (rescheduleMatches lc fuel matches courts rconfig = Threw NoMatches <-> matches = [])
  /\ (rescheduleMatches lc fuel matches courts rconfig = Threw NoCourts
      <-> matches <> [] /\ courts = []).
Proof.
  pose proof (schedule_loop_errors fuel now matches courts config) as [S1 S2].
  pose proof (reschedule_loop_errors fuel matches courts rconfig) as [R1 R2].
  destruct matches as [|m ms].
  - split; [split; [reflexivity|reflexivity]|].
    split; [split; [discriminate|intros [E _]; congruence]|].
    split; [split; [reflexivity|reflexivity]|].
    split; [discriminate|intros [E _]; congruence].
  - destruct courts as [|c cs].
    + split; [split; discriminate|].
      split; [split; [intros _; split; [discriminate|reflexivity]|reflexivity]|].
      split; [split; discriminate|].
      split; [intros _; split; [discriminate|reflexivity]|reflexivity].
    + assert (Hm : m :: ms <> []) by discriminate.
      assert (Hc : c :: cs <> []) by discriminate.
      split; [split; [intros E; now apply S1 in E|discriminate]|].
      split; [split; [intros E; now apply S2 in E|intros [_ E]; discriminate]|].
      split; [split; [intros E; now apply R1 in E|discriminate]|].
      split; [intros E; now apply R2 in E|intros [_ E]; discriminate].
Qed.
End InputErrors.

(** ** The summary *)

Lemma latestEnd_spec (l : list ScheduledMatch) : forall init,
  init <= latestEnd l init
  /\ (forall s, In s l -> s_endTime s <= latestEnd l init)
  /\ (latestEnd l init = init \/ exists s, In s l /\ latestEnd l init = s_endTime s).
Proof.
  unfold latestEnd. induction l as [|x l IH]; intros init; cbn [fold_left].
  - split; [lia|]. split; [intros s []|now left].
  - set (acc := if s_endTime x >? init then s_endTime x else init).
    destruct (IH acc) as (H1 & H2 & H3).
    assert (Hacc : init <= acc /\ s_endTime x <= acc /\ (acc = init \/ acc = s_endTime x)).
    { unfold acc. destruct (s_endTime x >? init) eqn:E; rewrite Z.gtb_ltb in E.
      - apply Z.ltb_lt in E. lia.
      - apply Z.ltb_ge in E. lia. }
    destruct Hacc as (A1 & A2 & A3).
    split; [lia|]. split.
    + intros s [<-|Hs]; [lia|auto].
    + destruct H3 as [H3|(s & Hs & H3)].
      * destruct A3 as [A3|A3]; [left; congruence|].
        right. exists x. split; [now left|congruence].
      * right. exists s. split; [now right|assumption].
Qed.

Lemma courts_used (sched : list ScheduledMatch) :
  NoDup (Set_of (map s_courtId sched))
  /\ forall c, In c (Set_of (map s_courtId sched)) <-> exists s, In s sched /\ s_courtId s = c.
Proof.
  split; [apply Set_of_NoDup|]. intros c. rewrite Set_of_In, in_map_iff.
  split; intros (s & H1 & H2); exists s; tauto.
Qed.

Section Summaries.
Variable lc : string -> string -> Z.

(** X16.  The summary returned by [scheduleMatches] describes the schedule
    returned with it: the number of matches is the number of entries and
    of input matches; the end time is the start of the tournament or the
    latest end of an entry, whichever is later; the total duration is the
    span from the start to the end time in minutes; and the number of
    courts used is the number of distinct court identities in the
    schedule, at least one and at most the number of courts given. *)
Theorem summary_describes_the_schedule fuel now matches courts config r :
  scheduleMatches lc fuel now matches courts config = Returned r ->
  totalMatches (summary r) = length (schedule r)
  /\ totalMatches (summary r) = length matches
  /\ startOf config now <= endTime (summary r)
  /\ (forall s, In s (schedule r) -> s_endTime s <= endTime (summary r))
  /\ (endTime (summary r) = startOf config now
      \/ exists s, In s (schedule r) /\ endTime (summary r) = s_endTime s)
  /\ totalDuration (summary r)
     = QArith_base.Qmake (endTime (summary r) - startOf config now) 60000
  /\ (exists used,
        NoDup used
        /\ (forall c, In c used <-> exists s, In s (schedule r) /\ s_courtId s = c)
        /\ courtsUsed (summary r) = length used)
  /\ (1 <= courtsUsed (summary r) <= length courts)%nat.
Proof.
  intros H. pose proof (scheduleMatches_returned lc _ _ _ _ _ _ H) as (_ & _ & _ & _ & Hm & _).
  apply scheduleMatches_state in H.
  destruct H as (st & _ & _ & _ & Hlen & Hr & Hsum & Hp).
  rewrite Hr, Hsum. cbn [summarize totalMatches endTime totalDuration courtsUsed].
  destruct (latestEnd_spec (st_schedule st) (startOf config now)) as (L1 & L2 & L3).
  destruct (courts_used (st_schedule st)) as [U1 U2].
  split; [reflexivity|]. split; [exact Hlen|]. split; [exact L1|]. split; [exact L2|].
  split; [exact L3|]. split; [reflexivity|].
  split; [exists (Set_of (map s_courtId (st_schedule st))); auto|].
  split.
  - destruct (st_schedule st) as [|s l] eqn:Es.
    + destruct matches; [congruence|discriminate].
    + assert (Hin : In (s_courtId s) (Set_of (map s_courtId (s :: l)))).
      { apply Set_of_In. now left. }
      destruct (Set_of (map s_courtId (s :: l))); [destruct Hin|simpl; lia].
  - rewrite <- (length_map court_id courts). apply NoDup_incl_length; [exact U1|].
    intros c Hc. apply U2 in Hc. destruct Hc as (s & Hs & <-).
    rewrite Forall_forall in Hp. destruct (Hp s Hs) as (m & _ & _ & _ & _ & Hc). exact Hc.
Qed.

(** X30.  The summary returned by [rescheduleMatches] counts the rescheduled
    entries and the distinct courts they use, while its end time also
    covers the completed matches: it is the latest of the current time,
    the actual end of every completed match and the end of every
    rescheduled entry; the total duration runs from the configured start
    time, or from the current time when none is configured. *)
Theorem summary_describes_the_reschedule fuel matches courts config r :
  rescheduleMatches lc fuel matches courts config = Returned r ->
  totalMatches (summary r) = length (schedule r)
  /\ totalMatches (summary r) = length (pendingOf config matches)
  /\ currentTime config <= endTime (summary r)
  /\ (forall s, In s (schedule r) -> s_endTime s <= endTime (summary r))
  /\ (forall c, In c (completedMatches config) -> actualEndTime c <= endTime (summary r))
  /\ (endTime (summary r) = currentTime config
      \/ (exists s, In s (schedule r) /\ endTime (summary r) = s_endTime s)
      \/ exists c, In c (completedMatches config) /\ endTime (summary r) = actualEndTime c)
  /\ totalDuration (summary r)
     = QArith_base.Qmake
         (endTime (summary r) - startOf (base config) (currentTime config)) 60000
  /\ (exists used,
        NoDup used
        /\ (forall c, In c used <-> exists s, In s (schedule r) /\ s_courtId s = c)
        /\ courtsUsed (summary r) = length used)
  /\ (courtsUsed (summary r) <= length courts)%nat.
Proof.
  intros H. apply rescheduleMatches_state in H.
  destruct H as (st & placed & _ & _ & _ & Hs & Hlen & Hr & Hsum & Hp).
  rewrite Hsum. cbn [summarize totalMatches endTime totalDuration courtsUsed].
  destruct (latestEnd_spec (st_schedule st) (currentTime config)) as (L1 & L2 & L3).
  destruct (courts_used placed) as [U1 U2].
  assert (Hin : forall s, In s (schedule r) <-> In s placed).
  { intros s. rewrite Hr. apply array_sort_In. }
  split; [now rewrite Hr, array_sort_length|]. split; [exact Hlen|]. split; [exact L1|].
  split.
  { intros s Hs'. apply L2. rewrite Hs. apply in_app_iff. right. now apply Hin. }
  split.
  { intros c Hc. change (actualEndTime c) with (s_endTime (completedEntry matches c)).
    apply L2. rewrite Hs. apply in_app_iff. left. now apply in_map. }
  split.
  { destruct L3 as [L3|(s & Hs' & L3)]; [now left|]. right.
    rewrite Hs in Hs'. apply in_app_iff in Hs'. destruct Hs' as [Hs'|Hs'].
    - right. apply in_map_iff in Hs'. destruct Hs' as (c & <- & Hc). now exists c.
    - left. exists s. split; [now apply Hin|assumption]. }
  split; [reflexivity|].
  split.
  { exists (Set_of (map s_courtId placed)). split; [exact U1|]. split; [|reflexivity].
    intros c. rewrite U2. split; intros (s & H1 & H2); exists s; split; auto; now apply Hin. }
  rewrite <- (length_map court_id courts). apply NoDup_incl_length; [exact U1|].
  intros c Hc. apply U2 in Hc. destruct Hc as (s & Hs' & <-).
  rewrite Forall_forall in Hp. destruct (Hp s Hs') as (m & _ & _ & _ & _ & Hc). exact Hc.
Qed.
End Summaries.

(** ** The first placement *)

Section FirstPlacement.
Variable lc : string -> string -> Z.

Lemma Reachable_schedule_grows env st0 st :
  Reachable lc env st0 st -> exists more, st_schedule st = st_schedule st0 ++ more.
Proof.
  induction 1 as [|st st' _ [more IH] Hstep].
  - exists []. now rewrite app_nil_r.
  - apply Step_schedule in Hstep.
    destruct Hstep as [E|(task & avail & entry & _ & E & _)].
    + exists more. congruence.
    + exists (more ++ [entry]). rewrite E, IH. now rewrite app_assoc.
Qed.

Lemma earliestStart_untracked m time :
  calculateEarliestStartTime m time [] = time.
Proof.
  unfold calculateEarliestStartTime. induction (getTeamIds m) as [|t l IH]; [reflexivity|].
  exact IH.
Qed.

Lemma teams_untracked_available m time : areTeamsAvailable m time [] = true.
Proof. unfold areTeamsAvailable. apply forallb_forall. reflexivity. Qed.

(** X11.  A schedule returned by [scheduleMatches] opens at the start of the
    tournament, on the first court of the list, with the match at the
    head of the initial ready queue: the root match of the lowest round
    and, within it, of the least identity. *)
Theorem first_match_opens_the_tournament fuel now matches courts config r :
  scheduleMatches lc fuel now matches courts config = Returned r ->
  exists first rest task court,
    schedule r = first :: rest
    /\ s_startTime first = startOf config now
    /\ hd_error courts = Some court /\ s_courtId first = court_id court
    /\ MatchQueue_peek (initialQueue lc (fst (buildGraph matches))) = Some task
    /\ remainingDependencies task = []
    /\ s_matchId first = m_id (task_match task).
Proof.
  intros H. apply scheduleMatches_returned in H.
  destruct H as (st & Hrun & Hlen & Hr & Hm & Hc).
  assert (Hsame : schedule r = st_schedule st).
  { rewrite Hr. cbn [schedule]. apply array_sort_sorted_id.
    pose proof (runLoop_reachable _ _ _ _ _ Hrun) as Hreach.
    apply (TeamInv_reachable lc _ matches _ st
             (scheduleInit_TeamInv matches lc courts (startOf config now)
                (restMsOf (scheduleEnv config (startOf config now)
                             (snd (buildGraph matches))))) Hreach). }
  set (env := scheduleEnv config (startOf config now) (snd (buildGraph matches))) in *.
  set (start := startOf config now) in *.
  destruct courts as [|court cs]; [congruence|].
  destruct (initialQueue lc (fst (buildGraph matches))) as [|task q] eqn:Eq.
  - exfalso. assert (E : runLoop lc env fuel (scheduleInit lc matches (court :: cs) start)
                         = Returned (scheduleInit lc matches (court :: cs) start)).
    { destruct fuel; cbn [runLoop scheduleInit st_queue st_events]; now rewrite Eq. }
    rewrite E in Hrun. inversion Hrun; subst st. cbn [scheduleInit st_schedule length] in Hlen.
    destruct matches; [congruence|discriminate].
  - assert (Htask : remainingDependencies task = []).
    { assert (Hin : In task (initialQueue lc (fst (buildGraph matches))))
        by (rewrite Eq; now left).
      unfold initialQueue in Hin. apply initialQueue_from in Hin.
      destruct Hin as [[]|(k & _ & Hk)]. exact Hk. }
    destruct fuel as [|fuel].
    { cbn [runLoop scheduleInit st_queue st_events] in Hrun. rewrite Eq in Hrun.
      discriminate. }
    cbn [runLoop] in Hrun.
    assert (Hcond : negb (MatchQueue_isEmpty
                            (st_queue (scheduleInit lc matches (court :: cs) start)))
                    || negb (isEmpty (st_events (scheduleInit lc matches (court :: cs) start)))
                    = true).
    { cbn [scheduleInit st_queue]. now rewrite Eq. }
    rewrite Hcond in Hrun.
    assert (Hbody : loopBody lc env (scheduleInit lc matches (court :: cs) start)
                    = Continue (placeMatch env (scheduleInit lc matches (court :: cs) start)
                                  task 0 start)).
    { unfold loopBody, flushEvents.
      change (st_events (scheduleInit lc matches (court :: cs) start)) with (@nil Event).
      cbn [flushFrom]. unfold MatchQueue_getAll.
      change (st_queue (scheduleInit lc matches (court :: cs) start))
        with (initialQueue lc (fst (buildGraph matches))).
      rewrite Eq. cbn [placementPass].
      change (st_time (scheduleInit lc matches (court :: cs) start)) with start.
      change (st_teamStates (scheduleInit lc matches (court :: cs) start))
        with (@nil (TeamKey * TeamState)).
      rewrite teams_untracked_available. cbn [negb].
      change (st_courtStates (scheduleInit lc matches (court :: cs) start))
        with ({| cs_courtId := court_id court; cs_availableAt := start;
                 cs_currentMatch := None |}
              :: map (fun c => {| cs_courtId := court_id c; cs_availableAt := start;
                                  cs_currentMatch := None |}) cs).
      unfold findAvailableCourt.
      cbn [findAvailableCourt_from cs_availableAt cs_currentMatch is_null].
      rewrite Z.leb_refl. cbn [andb].
      rewrite earliestStart_untracked. unfold actualStart, env. cbn [scheduleEnv env_floor].
      rewrite Z.max_id.
      assert (E : (start >? start) = false) by (rewrite Z.gtb_ltb; apply Z.ltb_irrefl).
      now rewrite E. }
    rewrite Hbody in Hrun. apply runLoop_reachable in Hrun.
    apply Reachable_schedule_grows in Hrun. destruct Hrun as [more Hmore].
    cbn [placeMatch st_schedule scheduleInit app] in Hmore.
    eexists _, more, task, court. split; [rewrite Hsame; exact Hmore|].
    cbn [s_startTime s_courtId s_matchId st_courtStates map nth_error cs_courtId hd_error].
    repeat split; auto.
Qed.
End FirstPlacement.

(** ** The validator reports nothing but findings *)

Lemma overlaps_meet (s : ScheduledMatch) (o : Occupancy) :
  s_startTime s < s_endTime s -> o_start o < o_end o ->
  overlaps s o = true -> occupancyOverlap s o.
Proof.
  intros Hs Ho H. unfold overlaps in H.
  apply orb_true_iff in H. destruct H as [H|H]; [apply orb_true_iff in H; destruct H as [H|H]|];
    apply andb_true_iff in H; destruct H as [H1 H2].
  - apply Z.geb_le in H1. apply Z.ltb_lt in H2. exists (s_startTime s). lia.
  - rewrite Z.gtb_ltb in H1. apply Z.ltb_lt in H1. apply Z.leb_le in H2.
    exists (Z.max (s_startTime s) (o_start o)). lia.
  - apply Z.leb_le in H1. apply Z.geb_le in H2. exists (o_start o). lia.
Qed.

(** X17.  The three-clause overlap test of [validateSchedule] is exactly the
    intersection of the intervals [[start, end)] when both the entry and
    the occupancy last a positive time. *)
Theorem overlap_test_is_intersection (s : ScheduledMatch) (o : Occupancy) :
  s_startTime s < s_endTime s -> o_start o < o_end o ->
  (overlaps s o = true <-> occupancyOverlap s o).
Proof.
  intros Hs Ho. split; [now apply overlaps_meet|apply overlaps_complete].
Qed.

Section ValidatorSound.
Variable matches : list Match.

Lemma teamSlots_from team (l : list ScheduledMatch) other :
  In other (teamSlots matches team l) ->
  exists i o, nth_error l i = Some o /\ other = occupancyOf o /\ In team (teamsOf matches o).
Proof.
  unfold teamSlots. intros H. apply in_flat_map in H. destruct H as (o & Ho & H).
  apply in_map_iff in H. destruct H as (t & <- & Ht). apply filter_In in Ht.
  destruct Ht as [Ht Et]. apply Id_eqb_eq in Et. subst t.
  apply In_nth_error in Ho. destruct Ho as [i Hi]. now exists i, o.
Qed.

Lemma teamSlots_app team (l l' : list ScheduledMatch) :
  teamSlots matches team (l ++ l') = teamSlots matches team l ++ teamSlots matches team l'.
Proof. unfold teamSlots. apply flat_map_app. Qed.

Lemma repeated_not_NoDup (t : Id) (pre post : list Id) :
  In t pre -> In t post -> ~ NoDup (pre ++ post).
Proof.
  intros H1 H2 Hnd. induction pre as [|x pre IH]; [destruct H1|].
  simpl in Hnd. inversion Hnd; subst. destruct H1 as [->|H1].
  - apply H3. apply in_app_iff. now right.
  - now apply IH.
Qed.

(** The errors added while the teams of one entry are checked. *)
Lemma checkTeams_sound sched s j (done todo : list Id) : forall acc,
  nth_error sched j = Some s ->
  teamsOf matches s = done ++ todo ->
  (forall team, setAt team (fst acc)
                = teamSlots matches team (firstn j sched)
                  ++ map (fun _ => occupancyOf s) (filter (Id_eqb team) done)) ->
  forall config e,
    In e (snd (fold_left (checkTeam s) todo acc)) ->
    In e (snd acc) \/ justified sched matches config e.
Proof.
  revert done. induction todo as [|t todo IH]; intros done acc Hj Hteams Hocc config e He.
  - now left.
  - cbn [fold_left] in He.
    apply (IH (done ++ [t])) with (config := config) in He.
    + destruct He as [He|He]; [|now right].
      rewrite checkTeam_errors in He. apply in_app_iff in He.
      destruct He as [He|He]; [now left|]. right.
      apply in_map_iff in He. destruct He as (other & <- & Hother).
      apply filter_In in Hother. destruct Hother as [Hother Hov].
      rewrite Hocc in Hother. apply in_app_iff in Hother.
      assert (Hts : In t (teamsOf matches s)).
      { rewrite Hteams. apply in_app_iff. right. now left. }
      destruct Hother as [Hother|Hother].
      * apply teamSlots_from in Hother. destruct Hother as (i & o & Hi & -> & Hto).
        assert (Hij : (i < j)%nat).
        { assert (Hlt : (i < length (firstn j sched))%nat).
          { apply nth_error_Some. congruence. }
          rewrite length_firstn in Hlt. lia. }
        exists i, j, s, o. rewrite nth_error_firstn in Hi.
        destruct (Nat.ltb_spec i j); [|lia].
        repeat split; auto.
      * apply in_map_iff in Hother. destruct Hother as (t' & <- & Ht').
        apply filter_In in Ht'. destruct Ht' as [Ht' Et]. apply Id_eqb_eq in Et. subst t'.
        exists j, j, s, s. repeat split; auto. right. split; [reflexivity|].
        rewrite Hteams. apply (repeated_not_NoDup t); [assumption|now left].
    + exact Hj.
    + now rewrite <- app_assoc.
    + intros team. rewrite checkTeam_setAt, Hocc, filter_app, map_app, <- app_assoc.
      f_equal. f_equal. cbn [filter]. destruct (Id_eqb team t); reflexivity.
Qed.

Lemma check1_sound sched config (todo : list ScheduledMatch) : forall j acc,
  skipn j sched = todo ->
  (forall team, setAt team (fst acc) = teamSlots matches team (firstn j sched)) ->
  forall e,
    In e (snd (fold_left (checkScheduled matches) todo acc)) ->
    In e (snd acc) \/ justified sched matches config e.
Proof.
  induction todo as [|s todo IH]; intros j acc Hskip Hocc e He; [now left|].
  cbn [fold_left] in He.
  assert (Hj : nth_error sched j = Some s).
  { rewrite <- (firstn_skipn j sched) at 1. rewrite Hskip.
    assert (Hlen : length (firstn j sched) = j).
    { rewrite length_firstn. apply Nat.min_l.
      destruct (Nat.le_gt_cases j (length sched)) as [H|H]; [exact H|].
      rewrite skipn_all2 in Hskip by lia. discriminate. }
    rewrite nth_error_app2 by lia. now rewrite Hlen, Nat.sub_diag. }
  assert (Hnext : skipn (S j) sched = todo).
  { rewrite <- (Nat.add_1_l j), <- skipn_skipn, Hskip. reflexivity. }
  assert (Hfirst : firstn (S j) sched = firstn j sched ++ [s]).
  { clear - Hj. revert j Hj. induction sched as [|x l IHl]; intros [|j] Hj;
      simpl in *; try discriminate.
    - now inversion Hj.
    - f_equal. now apply IHl. }
  apply (IH (S j)) in He; [|exact Hnext|].
  - destruct He as [He|He]; [|now right].
    unfold checkScheduled in He.
    destruct (matchOf matches (s_matchId s)) as [m|] eqn:Hm; [|now left].
    apply (checkTeams_sound sched s j [] (getTeamIds m)) with (config := config) in He; auto.
    + unfold teamsOf. now rewrite Hm.
    + intros team. rewrite Hocc. simpl. now rewrite app_nil_r.
  - intros team. rewrite checkScheduled_setAt, Hocc, Hfirst, teamSlots_app.
    f_equal. unfold teamSlots. simpl. now rewrite app_nil_r.
Qed.

Lemma restErrors_sound restMinutes team (sorted : list Occupancy) e :
  In e (restErrors restMinutes team sorted) ->
  exists i prev curr,
    nth_error sorted i = Some prev /\ nth_error sorted (S i) = Some curr
    /\ e = InsufficientRest team (o_matchId prev) (o_matchId curr)
             (o_start curr - o_end prev)
    /\ o_start curr - o_end prev < restMinutes * MS_PER_MINUTE.
Proof.
  induction sorted as [|x sorted IH]; [intros []|].
  destruct sorted as [|y sorted]; [intros []|].
  cbn [restErrors]. intros H. apply in_app_iff in H. destruct H as [H|H].
  - destruct (o_start y - o_end x <? restMinutes * MS_PER_MINUTE) eqn:E; [|destruct H].
    destruct H as [<-|[]]. apply Z.ltb_lt in E. exists 0%nat, x, y. now repeat split.
  - destruct (IH H) as (i & prev & curr & H1 & H2 & H3 & H4).
    exists (S i), prev, curr. now repeat split.
Qed.

Lemma checkTeam_keys s acc team :
  NoDup (map fst (fst acc)) -> NoDup (map fst (fst (checkTeam s acc team))).
Proof.
  intros H. rewrite checkTeam_occupancy. apply Map_set_keys_NoDup.
  destruct (Map_has Id_eq_dec team (fst acc)); [assumption|now apply Map_set_keys_NoDup].
Qed.

Lemma check1_keys (sched : list ScheduledMatch) : forall acc,
  NoDup (map fst (fst acc)) ->
  NoDup (map fst (fst (fold_left (checkScheduled matches) sched acc))).
Proof.
  induction sched as [|s sched IH]; intros acc H; simpl; [assumption|].
  apply IH. unfold checkScheduled. destruct (matchOf matches (s_matchId s)); [|assumption].
  generalize dependent acc. induction (getTeamIds m) as [|t l IHl]; intros acc H;
    simpl; [assumption|].
  apply IHl. now apply checkTeam_keys.
Qed.

Lemma validate_errors_justified sched config e :
  In e (errors (validateSchedule sched matches config)) ->
  justified sched matches config e.
Proof.
  unfold validateSchedule. cbn [errors].
  set (check1 := fold_left (checkScheduled matches) sched ([], [])).
  intros H. apply in_app_iff in H. destruct H as [H|H]; [|apply in_app_iff in H; destruct H as [H|H]].
  - apply (check1_sound sched config sched 0 ([], [])) in H; [|reflexivity|reflexivity].
    destruct H as [[]|H]. exact H.
  - apply in_flat_map in H. destruct H as ([team occ] & Hin & H). cbn [fst snd] in H.
    assert (Hocc : occ = teamSlots matches team sched).
    { assert (Hget : Map_get Id_eq_dec team (fst check1) = Some occ).
      { apply Map_get_of_In; [|assumption]. apply check1_keys. constructor. }
      pose proof (check1_setAt matches sched ([], []) team) as Hs.
      fold check1 in Hs. unfold setAt in Hs at 1. rewrite Hget in Hs. exact Hs. }
    subst occ. apply restErrors_sound in H.
    destruct H as (i & prev & curr & H1 & H2 & -> & H4).
    exists i, prev, curr. now repeat split.
  - apply in_flat_map in H. destruct H as (m & Hm & H). unfold depErrors in H.
    destruct (Map_get Id_eq_dec (m_id m) (scheduleIndex sched)) as [s|] eqn:Hs; [|destruct H].
    apply in_flat_map in H. destruct H as (d & Hd & H). unfold depError in H.
    destruct (Map_get Id_eq_dec d (scheduleIndex sched)) as [sd|] eqn:Hsd.
    + destruct (s_startTime s <? s_endTime sd) eqn:E; [|destruct H].
      destruct H as [<-|[]]. apply Z.ltb_lt in E.
      exists m, s, sd. now repeat split.
    + destruct H as [<-|[]]. exists m. repeat split; auto.
      * destruct (proj2 (scheduleIndex_spec sched (m_id m)) s Hs) as [Hin <-].
        now apply in_map.
      * now apply (proj1 (scheduleIndex_spec sched d)).
Qed.

(** X18.  Every entry of the report of [validateSchedule] stands for a finding
    in the schedule: an overlap entry for two entries of the team that
    pass the overlap test, the second one earlier in the schedule, or the
    same entry when the team is named twice by its match; a rest entry
    for two neighbours of the team's occupancy in start order closer than
    the rest time; a dependency entry for a scheduled match with a
    declared dependency that has no entry, or whose entry ends after the
    match starts. *)
Theorem validate_reports_only_findings sched config :
  forall e, In e (errors (validateSchedule sched matches config)) ->
    justified sched matches config e.
Proof. intros e. apply validate_errors_justified. Qed.
End ValidatorSound.

(** ** The validator accepts what the scheduler returns *)




Section Acceptance.
Variable lc : string -> string -> Z.

End Acceptance.

Lemma flat_map_agree {A B : Type} (f g : A -> list B) (l : list A) :
  (forall x, In x l -> f x = g x) -> flat_map f l = flat_map g l.
Proof.
  induction l as [|x l IH]; intros H; simpl; [reflexivity|].
  rewrite (H x) by now left. f_equal. apply IH. intros; apply H; now right.
Qed.

Lemma matchOf_known matches m : In m matches -> matchOf matches (m_id m) <> None.
Proof.
  intros Hin E. unfold matchOf in E. apply Map_get_None in E. apply E.
  unfold matchIndex, Map_of. apply Map_of_acc_keys_In. right.
  rewrite map_map. simpl. now apply in_map.
Qed.

(** X20.  [validateSchedule] does not check that every match has an entry: the
    empty schedule is reported valid for any match list, and an entry whose
    identity no match carries adds nothing to the report. *)
Theorem validate_does_not_check_completeness matches config :
  validateSchedule [] matches config = {| valid := true; errors := [] |}
  /\ forall s sched,
       matchOf matches (s_matchId s) = None ->
       (forall m d, In m matches -> In d (depsOf m) -> d <> s_matchId s) ->
       validateSchedule (sched ++ [s]) matches config = validateSchedule sched matches config.
Proof.
  split.
  - unfold validateSchedule. cbn [fold_left fst snd flat_map app].
    assert (E : flat_map (depErrors (scheduleIndex [])) matches = []).
    { induction matches as [|m ms IH]; [reflexivity|]. simpl. exact IH. }
    now rewrite E.
  - intros s sched Hnone Hdeps. unfold validateSchedule.
    rewrite fold_left_app. cbn [fold_left].
    assert (Hskip : forall acc, checkScheduled matches acc s = acc).
    { intros acc. unfold checkScheduled. now rewrite Hnone. }
    rewrite Hskip.
    assert (E : flat_map (depErrors (scheduleIndex (sched ++ [s]))) matches
                = flat_map (depErrors (scheduleIndex sched)) matches).
    { assert (Hget : forall k, k <> s_matchId s ->
                Map_get Id_eq_dec k (scheduleIndex (sched ++ [s]))
                = Map_get Id_eq_dec k (scheduleIndex sched)).
      { intros k Hk. unfold scheduleIndex, Map_of. rewrite map_app, fold_left_app.
        cbn [map fold_left fst snd]. apply Map_get_set_other. congruence. }
      apply flat_map_agree. intros m Hm. unfold depErrors.
      assert (Hm' : m_id m <> s_matchId s).
      { intros E. apply (matchOf_known matches m Hm). now rewrite E. }
      rewrite (Hget _ Hm').
      destruct (Map_get Id_eq_dec (m_id m) (scheduleIndex sched)) as [sm|]; [|reflexivity].
      apply flat_map_agree. intros d Hd. unfold depError.
      now rewrite (Hget d (Hdeps m d Hm Hd)). }
    now rewrite E.
Qed.

(** ** Completed matches hold their teams and courts *)

Section PaintedTeams.
Variable lc : string -> string -> Z.
Variable env : LoopEnv.
Variable matches : list Match.
Variable team : Id.
Variable bound : Z.

End PaintedTeams.

Section PaintedCourts.
Variable lc : string -> string -> Z.
Variable env : LoopEnv.
Variable courtId : Id.
Variable bound : Z.




End PaintedCourts.

Section PaintingFacts.
Variable restMinutes setupMinutes now : Z.






End PaintingFacts.

Section PaintingTheorems.
Variable lc : string -> string -> Z.


End PaintingTheorems.

(** ** The two copies of the loop agree *)


Section LoopCopies.
Variable lc : string -> string -> Z.
Variable env : LoopEnv.
Variable floor : Z.
Hypothesis no_floor : env_floor env = None.






End LoopCopies.

Section NothingCompleted.
Variable lc : string -> string -> Z.






End NothingCompleted.

(** ** The dependencies that count in the reschedule mode *)

Section Settle.
Variable done : list Id.

Lemma settle_id m : m_id (settle done m) = m_id m.
Proof. unfold settle. destruct (allDone done m); reflexivity. Qed.

Lemma settle_round m : round (settle done m) = round m.
Proof. unfold settle. destruct (allDone done m); reflexivity. Qed.

Lemma settle_duration m : duration (settle done m) = duration m.
Proof. unfold settle. destruct (allDone done m); reflexivity. Qed.

Lemma settle_teams m : getTeamIds (settle done m) = getTeamIds m.
Proof. unfold settle. destruct (allDone done m); reflexivity. Qed.

Lemma settle_deps m :
  depsOf (settle done m) = if allDone done m then [] else depsOf m.
Proof. unfold settle. destruct (allDone done m); reflexivity. Qed.

Lemma settle_ids (ms : list Match) : map m_id (map (settle done) ms) = map m_id ms.
Proof. rewrite map_map. apply map_ext. apply settle_id. Qed.

Lemma find_map_settle k (l : list Match) :
  find (fun m => Id_eqb (m_id m) k) (map (settle done) l)
  = option_map (settle done) (find (fun m => Id_eqb (m_id m) k) l).
Proof.
  induction l as [|x l IH]; simpl; [reflexivity|].
  rewrite settle_id. destruct (Id_eqb (m_id x) k); [reflexivity|exact IH].
Qed.

Lemma matchOf_settle (ms : list Match) k :
  matchOf (map (settle done) ms) k = option_map (settle done) (matchOf ms k).
Proof. rewrite !matchOf_last, <- map_rev. apply find_map_settle. Qed.

Lemma involves_settle (ms : list Match) team s :
  involves (map (settle done) ms) team s = involves ms team s.
Proof.
  unfold involves, teamsOf. rewrite matchOf_settle.
  destruct (matchOf ms (s_matchId s)); simpl; [now rewrite settle_teams|reflexivity].
Qed.

Lemma Map_get_settled k (mm : list (Id * MatchTask)) :
  Map_get Id_eq_dec k (map (fun kv => (fst kv, settleTask done (snd kv))) mm)
  = option_map (settleTask done) (Map_get Id_eq_dec k mm).
Proof.
  induction mm as [|[k' t] mm IH]; simpl; [reflexivity|].
  destruct (Id_eq_dec k k'); [reflexivity|exact IH].
Qed.

Lemma Map_set_settled k t (mm : list (Id * MatchTask)) :
  Map_set Id_eq_dec k (settleTask done t)
    (map (fun kv => (fst kv, settleTask done (snd kv))) mm)
  = map (fun kv => (fst kv, settleTask done (snd kv))) (Map_set Id_eq_dec k t mm).
Proof.
  induction mm as [|[k' t'] mm IH]; simpl; [reflexivity|].
  destruct (Id_eq_dec k k'); simpl; [reflexivity|now rewrite IH].
Qed.

Variable lc : string -> string -> Z.

Lemma compareTasks_settled a b :
  compareTasks lc (settleTask done a) (settleTask done b) = compareTasks lc a b.
Proof. unfold compareTasks, settleTask. cbn [task_match]. now rewrite !settle_round, !settle_id. Qed.

Lemma sort_insert_settled t (l : list MatchTask) :
  sort_insert (compareTasks lc) (settleTask done t) (map (settleTask done) l)
  = map (settleTask done) (sort_insert (compareTasks lc) t l).
Proof.
  induction l as [|x l IH]; simpl; [reflexivity|].
  rewrite compareTasks_settled. destruct (_ <=? 0); simpl; [reflexivity|now rewrite IH].
Qed.

Lemma enqueue_settled t (q : list MatchTask) :
  MatchQueue_enqueue lc (settleTask done t) (map (settleTask done) q)
  = map (settleTask done) (MatchQueue_enqueue lc t q).
Proof.
  unfold MatchQueue_enqueue, array_sort.
  change [settleTask done t] with (map (settleTask done) [t]). rewrite <- map_app.
  induction (q ++ [t]) as [|x l IH]; simpl; [reflexivity|].
  now rewrite IH, sort_insert_settled.
Qed.

Lemma remove_settled k (q : list MatchTask) :
  MatchQueue_remove k (map (settleTask done) q)
  = map (settleTask done) (MatchQueue_remove k q).
Proof.
  induction q as [|x q IH]; simpl; [reflexivity|].
  rewrite settle_id. destruct (Id_eqb (m_id (task_match x)) k); simpl; [reflexivity|].
  now rewrite IH.
Qed.

Lemma unlock_settled e (D : list Id) : forall mm q,
  fold_left (unlockDependent lc e) D
    (map (fun kv => (fst kv, settleTask done (snd kv))) mm, map (settleTask done) q)
  = (map (fun kv => (fst kv, settleTask done (snd kv)))
       (fst (fold_left (unlockDependent lc e) D (mm, q))),
     map (settleTask done) (snd (fold_left (unlockDependent lc e) D (mm, q)))).
Proof.
  induction D as [|d D IH]; intros mm q; [reflexivity|].
  cbn [fold_left]. unfold unlockDependent at 2 4 6. cbn [fst snd].
  rewrite Map_get_settled.
  destruct (Map_get Id_eq_dec d mm) as [t|]; cbn [option_map]; [|apply IH].
  change (satisfy e (settleTask done t)) with (settleTask done (satisfy e t)).
  rewrite Map_set_settled.
  change (remainingDependencies (settleTask done (satisfy e t)))
    with (remainingDependencies (satisfy e t)).
  destruct (Nat.eqb (length (remainingDependencies (satisfy e t))) 0).
  - rewrite enqueue_settled. apply IH.
  - apply IH.
Qed.
End Settle.

Section Simulation.
Variable lc : string -> string -> Z.
Variable env : LoopEnv.
Variable done : list Id.
Variable dependents : list (Id * list Id).

Local Notation "'env2'" := (withDependents env dependents).

Lemma processEvent_settled st ev :
  setAt (ev_matchId ev) dependents = setAt (ev_matchId ev) (env_dependents env) ->
  processEvent lc env2 (settled done st) ev = settled done (processEvent lc env st ev).
Proof.
  intros Hdeps. unfold processEvent.
  cbn [withDependents env_dependents settled st_matchMap st_queue st_courtStates
         st_teamStates st_schedule st_events st_time].
  rewrite Hdeps, unlock_settled.
  destruct (fold_left (unlockDependent lc (ev_matchId ev)) _ (st_matchMap st, st_queue st)).
  reflexivity.
Qed.

Lemma placeMatch_settled st task idx start :
  placeMatch env2 (settled done st) (settleTask done task) idx start
  = settled done (placeMatch env st task idx start).
Proof.
  unfold placeMatch, settled.
  cbn [settleTask task_match st_matchMap st_queue st_courtStates st_teamStates st_schedule
         st_events st_time].
  rewrite settle_id, settle_round, settle_duration, settle_teams, remove_settled.
  reflexivity.
Qed.

Lemma Step_settled st st' :
  (forall ev, In ev (st_events st) ->
     setAt (ev_matchId ev) dependents = setAt (ev_matchId ev) (env_dependents env)) ->
  Step lc env st st' -> Step lc env2 (settled done st) (settled done st').
Proof.
  intros Hdeps Hstep.
  destruct Hstep as [st ev rest Hev Hle|st task idx avail Hf Hin Ha Hc Hle|st t Hf Ht].
  - rewrite <- processEvent_settled by (apply Hdeps; rewrite Hev; now left).
    change (settled done (withEvents st rest)) with (withEvents (settled done st) rest).
    now constructor.
  - rewrite <- placeMatch_settled.
    assert (Ht : calculateEarliestStartTime (task_match task) (st_time st) (st_teamStates st)
                 = calculateEarliestStartTime (task_match (settleTask done task))
                     (st_time (settled done st)) (st_teamStates (settled done st))).
    { unfold calculateEarliestStartTime. cbn [settleTask task_match].
      now rewrite settle_teams. }
    rewrite Ht.
    change (actualStart env avail) with (actualStart env2 avail).
    apply (StepPlace lc env2 (settled done st) (settleTask done task) idx avail).
    + exact Hf.
    + cbn [settled st_queue]. now apply in_map.
    + unfold areTeamsAvailable. cbn [settleTask task_match]. rewrite settle_teams. exact Ha.
    + exact Hc.
    + rewrite <- Ht. exact Hle.
  - change (settled done (setTime st t)) with (setTime (settled done st) t). now constructor.
Qed.
End Simulation.

(** ** The reverse map of the settled matches *)

Lemma Set_add_idem X s : Set_add X (Set_add X s) = Set_add X s.
Proof.
  unfold Set_add at 1. destruct (Set_has X (Set_add X s)) eqn:E; [reflexivity|].
  exfalso. assert (H : In X (Set_add X s)) by (apply Set_add_In; now left).
  apply Set_has_In in H. congruence.
Qed.

Lemma addDependents_at X (deps : list Id) e : forall d,
  setAt e (fold_left (addDependent X) deps d)
  = if in_dec Id_eq_dec e deps then Set_add X (setAt e d) else setAt e d.
Proof.
  induction deps as [|depId deps IH]; intros d; simpl; [reflexivity|].
  rewrite IH, addDependent_setAt.
  destruct (Id_eq_dec depId e) as [->|Hne].
  - destruct (in_dec Id_eq_dec e deps); [apply Set_add_idem|reflexivity].
  - destruct (in_dec Id_eq_dec e deps); reflexivity.
Qed.

Lemma dependents_settle done e (ms : list Match) :
  Set_has e done = false ->
  setAt e (snd (buildGraph (map (settle done) ms))) = setAt e (snd (buildGraph ms)).
Proof.
  intros He. unfold buildGraph. rewrite !buildGraph_snd. cbn [snd].
  assert (G : forall d d', setAt e d = setAt e d' ->
            setAt e (fold_left
                       (fun dependents m =>
                          fold_left (addDependent (m_id m)) (depsOf m) dependents)
                       (map (settle done) ms) d)
            = setAt e (fold_left
                         (fun dependents m =>
                            fold_left (addDependent (m_id m)) (depsOf m) dependents) ms d')).
  { induction ms as [|m ms IH]; intros d d' Hd; [exact Hd|].
    cbn [map fold_left]. apply IH.
    rewrite !addDependents_at, settle_id, settle_deps, Hd.
    destruct (allDone done m) eqn:Ea; [|reflexivity].
    destruct (in_dec Id_eq_dec e []) as [[]|_].
    destruct (in_dec Id_eq_dec e (depsOf m)) as [Hin|_]; [|reflexivity].
    exfalso. unfold allDone in Ea. rewrite forallb_forall in Ea.
    specialize (Ea e Hin). congruence. }
  now apply G.
Qed.

Lemma buildGraph_dependents env (ms : list Match) :
  DependentsOk ms (withDependents env (snd (buildGraph ms))).
Proof.
  intros e. unfold dependentsOf. cbn [withDependents env_dependents].
  unfold buildGraph. rewrite buildGraph_snd. cbn [snd].
  destruct (allDependents_setAt ms e []) as [H1 H2]. split.
  - apply H2. constructor.
  - intros X. rewrite H1. unfold setAt. simpl. intuition.
Qed.

Lemma forallb_Set_of (f : Id -> bool) (l : list Id) : forallb f (Set_of l) = forallb f l.
Proof.
  destruct (forallb f l) eqn:E.
  - apply forallb_forall. intros x Hx. apply (proj1 (Set_of_In x l)) in Hx.
    rewrite forallb_forall in E. now apply E.
  - destruct (forallb f (Set_of l)) eqn:E'; [|reflexivity].
    rewrite forallb_forall in E'.
    assert (H : forallb f l = true).
    { apply forallb_forall. intros x Hx. apply E'. now apply Set_of_In. }
    congruence.
Qed.

Lemma StronglySorted_weaken {A : Type} (R R' : A -> A -> Prop) (l : list A) :
  (forall a b, R a b -> R' a b) -> StronglySorted R l -> StronglySorted R' l.
Proof.
  intros H. induction 1 as [|a l Hs IH Hall]; constructor; auto.
  rewrite Forall_forall in *. auto.
Qed.

Section SettledInvariants.
Variable lc : string -> string -> Z.
Variable matches : list Match.
Variable courts : list Court.
Variable config : RescheduleConfig.
Hypothesis Hids : NoDup (map m_id matches).

Local Notation "'done'" := (completedIds config).
Local Notation "'pending'" := (pendingOf config matches).
Local Notation "'counted'" := (map (settle (completedIds config)) (pendingOf config matches)).
Local Notation "'past'" := (length (completedMatches config)).
Local Notation "'env'" :=
  (rescheduleEnv config (snd (buildGraph (pendingOf config matches)))).
Local Notation "'env2'" :=
  (withDependents
     (rescheduleEnv config (snd (buildGraph (pendingOf config matches))))
     (snd (buildGraph (map (settle (completedIds config)) (pendingOf config matches))))).
Local Notation "'init'" := (rescheduleInit lc matches courts config).

Lemma pending_ids_distinct : NoDup (map m_id pending).
Proof. unfold pendingOf. now apply filter_keeps_distinct. Qed.

Lemma counted_ids_distinct : NoDup (map m_id counted).
Proof. rewrite settle_ids. apply pending_ids_distinct. Qed.

Lemma TeamInv_settled restMs st :
  TeamInv pending restMs st -> TeamInv counted restMs (settled done st).
Proof.
  intros [Hmm Hq Hteam Hrest Hapart Hstarted Hord].
  assert (Hf : forall team,
            filter (involves counted team) (st_schedule st)
            = filter (involves pending team) (st_schedule st)).
  { intros team. apply filter_ext. intros s. apply involves_settle. }
  constructor.
  - intros X task H. cbn [settled st_matchMap] in H. rewrite Map_get_settled in H.
    destruct (Map_get Id_eq_dec X (st_matchMap st)) as [t|] eqn:E; [|discriminate].
    inversion H; subst task. destruct (Hmm X t E) as [Hof Hid].
    cbn [settleTask task_match]. rewrite matchOf_settle, Hof, settle_id. now split.
  - intros task H. cbn [settled st_queue] in H. apply in_map_iff in H.
    destruct H as (t & <- & Ht). cbn [settleTask task_match].
    rewrite settle_id, matchOf_settle, (Hq t Ht). reflexivity.
  - intros team. specialize (Hteam team). unfold TeamOk in *.
    cbn [settled st_schedule st_teamStates st_events st_time]. now rewrite Hf.
  - intros team. cbn [settled st_schedule]. rewrite Hf. apply Hrest.
  - cbn [settled st_schedule]. eapply StronglySorted_weaken; [|exact Hapart].
    intros a b H team Ha Hb. rewrite involves_settle in Ha, Hb. exact (H team Ha Hb).
  - exact Hstarted.
  - exact Hord.
Qed.

Lemma graph_entry k t :
  Map_get Id_eq_dec k (fst (buildGraph pending)) = Some t ->
  m_id (task_match t) = k
  /\ remainingDependencies t = Set_of (depsOf (task_match t))
  /\ seedable done t = allDone done (task_match t).
Proof.
  intros H. apply Map_get_In in H. apply buildGraph_entry in H.
  destruct H as (_ & Hid & Hrem). split; [exact Hid|]. split; [exact Hrem|].
  unfold seedable, allDone. rewrite Hrem. apply forallb_Set_of.
Qed.

Lemma init_queue_ids :
  Permutation (map taskId (st_queue init))
    (map fst (filter (fun kv => seedable done (snd kv)) (fst (buildGraph pending)))).
Proof.
  rewrite (Permutation_map taskId (rescheduleInit_queue lc matches courts config)).
  rewrite map_map.
  assert (E : forall l : list (Id * MatchTask),
            (forall kv, In kv l -> In kv (fst (buildGraph pending))) ->
            map (fun kv => taskId (cleared (snd kv))) l = map fst l).
  { intros l Hl. apply map_ext_in. intros [k t] Hkt. apply Hl in Hkt.
    apply buildGraph_entry in Hkt. destruct Hkt as (_ & Hid & _). exact Hid. }
  rewrite E; [reflexivity|]. intros kv Hkv. apply filter_In in Hkv. tauto.
Qed.

Lemma settled_init_DepInv : DepInv counted (settled done (erase past init)).
Proof.
  destruct (rescheduleInit_erased lc matches courts config) as [Hs _].
  assert (Hsched : st_schedule (settled done (erase past init)) = []) by exact Hs.
  assert (Hev : st_events (settled done (erase past init)) = []) by reflexivity.
  assert (Hmap : forall X task,
            Map_get Id_eq_dec X (st_matchMap (settled done (erase past init))) = Some task ->
            exists t,
              Map_get Id_eq_dec X (fst (buildGraph pending)) = Some t
              /\ task = settleTask done (if seedable done t then cleared t else t)).
  { intros X task H. cbn [settled erase st_matchMap] in H.
    rewrite Map_get_settled, rescheduleInit_matchMap in H.
    destruct (Map_get Id_eq_dec X (fst (buildGraph pending))) as [t|]; [|discriminate].
    inversion H. now exists t. }
  assert (Hqueue : forall X,
            In X (map taskId (st_queue (settled done (erase past init)))) ->
            exists t, In (X, t) (fst (buildGraph pending)) /\ seedable done t = true).
  { intros X HX. cbn [settled erase st_queue] in HX. rewrite map_map in HX.
    assert (E : map (fun t => taskId (settleTask done t)) (st_queue init)
                = map taskId (st_queue init)).
    { apply map_ext. intros t. unfold taskId. cbn [settleTask task_match]. apply settle_id. }
    rewrite E in HX. apply (Permutation_in _ init_queue_ids) in HX.
    apply in_map_iff in HX. destruct HX as ([k t] & <- & Hkt).
    apply filter_In in Hkt. now exists t. }
  constructor; rewrite ?Hsched, ?Hev.
  - constructor.
  - intros X [].
  - constructor.
  - intros ev [].
  - intros s [].
  - intros X task H e. destruct (Hmap X task H) as (t & Ht & ->).
    destruct (graph_entry X t Ht) as (Hid & Hrem & Hseed).
    unfold fired. rewrite Hsched. cbn [map In].
    destruct (seedable done t) eqn:Es.
    + cbn [settleTask cleared task_match remainingDependencies].
      rewrite settle_deps, <- Hseed. cbn [In]. tauto.
    + cbn [settleTask task_match remainingDependencies].
      rewrite settle_deps, <- Hseed, Hrem, Set_of_In. tauto.
  - cbn [settled erase st_queue]. rewrite map_map.
    assert (E : map (fun t => taskId (settleTask done t)) (st_queue init)
                = map taskId (st_queue init)).
    { apply map_ext. intros t. unfold taskId. cbn [settleTask task_match]. apply settle_id. }
    rewrite E. apply (Permutation_NoDup (Permutation_sym init_queue_ids)).
    apply filter_keeps_distinct, buildGraph_keys_NoDup.
  - intros X _ [].
  - intros X task Hget [Hin|[]].
    destruct (Hmap X task Hget) as (t & Ht & ->).
    destruct (Hqueue X Hin) as (t' & Hin' & Hseed).
    apply (Map_get_of_In Id_eq_dec) in Hin'; [|apply buildGraph_keys_NoDup].
    rewrite Ht in Hin'. inversion Hin'; subst t'. now rewrite Hseed.
  - intros t Ht.
    assert (HX : In (taskId t) (map taskId (st_queue (settled done (erase past init)))))
      by now apply in_map.
    destruct (Hqueue _ HX) as (t' & Hin' & _).
    apply (Map_get_of_In Id_eq_dec) in Hin'; [|apply buildGraph_keys_NoDup].
    cbn [settled erase st_matchMap]. rewrite Map_get_settled, rescheduleInit_matchMap, Hin'.
    eexists. reflexivity.
  - intros s m d [].
Qed.

(** The invariants of [scheduleMatches] hold in the loop of
    [rescheduleMatches] for the pending matches with the dependencies that
    still count. *)
Lemma settled_invariants st :
  Reachable lc env init st ->
  TeamInv counted (restTime (base config) * MS_PER_MINUTE) (settled done (erase past st))
  /\ DepInv counted (settled done (erase past st))
  /\ st_schedule st
     = map (completedEntry matches) (completedMatches config)
       ++ st_schedule (erase past st).
Proof.
  intros Hreach.
  pose proof (ShapeInv_reachable lc _ _ _ _ _ _ st
                (rescheduleInit_ShapeInv lc matches courts config) Hreach) as Hshape.
  destruct (shape_entries _ _ _ _ _ Hshape) as (placed & Hs & _).
  assert (Hplaced : st_schedule (erase past st) = placed).
  { cbn [erase st_schedule]. rewrite Hs, skipn_app, length_map, Nat.sub_diag.
    rewrite <- (length_map (completedEntry matches)), skipn_all. reflexivity. }
  destruct (Reachable_erase lc env past init st
              (proj2 (rescheduleInit_erased lc matches courts config)) Hreach)
    as [Hreach' _].
  assert (Hinv : TeamInv counted (restMsOf env2) (settled done (erase past st))
                 /\ DepInv counted (settled done (erase past st))).
  { pattern (erase past st). eapply Reachable_ind_from; [| |exact Hreach']; cbv beta.
    - split; [apply TeamInv_settled, rescheduleInit_TeamInv|apply settled_init_DepInv].
    - intros st1 st2 _ IH Hstep.
      apply (Invariants_step lc env2 counted counted_ids_distinct
               (buildGraph_dependents env counted) _ _ IH).
      apply Step_settled; [|exact Hstep].
      intros ev Hin. cbn [rescheduleEnv env_dependents].
      apply dependents_settle.
      destruct IH as [_ Hd].
      destruct (dep_events_placed _ _ Hd ev Hin) as (s & Hs' & Hid & _).
      assert (Hknown : In (ev_matchId ev) (map m_id counted)).
      { rewrite <- Hid. apply (dep_placed_known _ _ Hd). now apply in_map. }
      rewrite settle_ids in Hknown. apply in_map_iff in Hknown.
      destruct Hknown as (m & Hm & Hpend). unfold pendingOf in Hpend.
      apply filter_In in Hpend. destruct Hpend as [_ Hpend]. rewrite Hm in Hpend.
      unfold isPending in Hpend. now apply negb_true_iff in Hpend. }
  destruct Hinv as [Ht Hd]. split; [exact Ht|]. split; [exact Hd|].
  now rewrite Hplaced.
Qed.
End SettledInvariants.

(** ** Dependencies and completeness in the reschedule mode *)

Section RescheduleDependencies.
Variable lc : string -> string -> Z.

Lemma completed_spec config d :
  Set_has d (completedIds config) = true <-> In d (map c_matchId (completedMatches config)).
Proof. unfold completedIds. now rewrite Set_has_In, Set_of_In. Qed.

Lemma reschedule_invariants fuel matches courts config r :
  NoDup (map m_id matches) ->
  rescheduleMatches lc fuel matches courts config = Returned r ->
  exists st,
    DepInv (map (settle (completedIds config)) (pendingOf config matches)) st
    /\ st_schedule st = schedule r
    /\ length (schedule r) = length (pendingOf config matches)
    /\ forall s, In s (schedule r) -> isPending config (s_matchId s) = true.
Proof.
  intros Hids H. apply rescheduleMatches_placed in H.
  destruct H as (st & _ & Hreach & _ & Hr & _ & _ & Hlen & _ & Hp).
  destruct (settled_invariants lc matches courts config Hids st Hreach) as (_ & Hd & _).
  exists (settled (completedIds config) (erase (length (completedMatches config)) st)).
  split; [exact Hd|]. split; [exact Hr|]. split; [exact Hlen|].
  intros s Hs. rewrite Forall_forall in Hp.
  now apply (EntryOk_pending config matches _ _ s (Hp s Hs)).
Qed.

Lemma reschedule_covers fuel matches courts config r :
  NoDup (map m_id matches) ->
  rescheduleMatches lc fuel matches courts config = Returned r ->
  NoDup (map s_matchId (schedule r))
  /\ forall x, In x (map s_matchId (schedule r))
               <-> In x (map m_id (pendingOf config matches)).
Proof.
  intros Hids H.
  destruct (reschedule_invariants _ _ _ _ _ Hids H) as (st & Hd & Hr & Hlen & _).
  pose proof (dep_placed_nodup _ _ Hd) as Hnd. rewrite Hr in Hnd.
  pose proof (dep_placed_known _ _ Hd) as Hknown. rewrite Hr, settle_ids in Hknown.
  split; [exact Hnd|]. intros x. split; [apply Hknown|].
  assert (Hincl : incl (map m_id (pendingOf config matches)) (map s_matchId (schedule r))).
  { apply NoDup_length_incl; [exact Hnd| |exact Hknown]. rewrite !length_map. lia. }
  apply Hincl.
Qed.

(** X26.  When the match identities are pairwise distinct, a schedule returned
    by [rescheduleMatches] has exactly one entry for each pending match:
    the identities of its entries are those of the matches not marked
    completed, each once. *)
Theorem reschedule_one_entry_per_pending_match fuel matches courts config r :
  NoDup (map m_id matches) ->
  rescheduleMatches lc fuel matches courts config = Returned r ->
  Permutation (map s_matchId (schedule r)) (map m_id (pendingOf config matches)).
Proof.
  intros Hids H. destruct (reschedule_covers _ _ _ _ _ Hids H) as [Hnd Hiff].
  apply NoDup_Permutation; [exact Hnd| |exact Hiff].
  unfold pendingOf. now apply filter_keeps_distinct.
Qed.

Lemma rescheduled_dependencies fuel matches courts config r :
  NoDup (map m_id matches) ->
  rescheduleMatches lc fuel matches courts config = Returned r ->
  forall m s,
    In m matches -> In s (schedule r) -> s_matchId s = m_id m ->
    (forall d, In d (depsOf m) -> In d (map c_matchId (completedMatches config)))
    \/ (forall d, In d (depsOf m) ->
          ~ In d (map c_matchId (completedMatches config))
          /\ exists sd, In sd (schedule r) /\ s_matchId sd = d
                        /\ s_endTime sd <= s_startTime s).
Proof.
  intros Hids H m s Hm Hs Hid.
  destruct (reschedule_invariants _ _ _ _ _ Hids H) as (st & Hd & Hr & _ & Hpend).
  assert (Hmp : In m (pendingOf config matches)).
  { apply filter_In. split; [exact Hm|]. rewrite <- Hid. now apply Hpend. }
  assert (Hof : matchOf (map (settle (completedIds config)) (pendingOf config matches))
                  (s_matchId s)
                = Some (settle (completedIds config) m)).
  { rewrite Hid, <- (settle_id (completedIds config) m). apply matchOf_unique.
    - rewrite settle_ids. unfold pendingOf. now apply filter_keeps_distinct.
    - now apply in_map. }
  destruct (allDone (completedIds config) m) eqn:Ea.
  - left. intros d Hdm. unfold allDone in Ea. rewrite forallb_forall in Ea.
    apply completed_spec. now apply Ea.
  - right. intros d Hdm.
    assert (Hdm' : In d (depsOf (settle (completedIds config) m)))
      by now rewrite settle_deps, Ea.
    rewrite <- Hr in Hs.
    destruct (dep_done _ _ Hd s _ d Hs Hof Hdm') as (sd & Hsd & Hsdid & Hle).
    rewrite Hr in Hsd. split; [|now exists sd].
    intros Hdone. apply completed_spec in Hdone.
    specialize (Hpend sd Hsd). rewrite Hsdid in Hpend.
    unfold isPending in Hpend. rewrite Hdone in Hpend. discriminate.
Qed.

(** X27.  When the match identities are pairwise distinct, a rescheduled match
    either has all its declared dependencies completed, or none of them:
    in the second case every dependency has an entry in the returned
    schedule and the match starts no earlier than that entry ends. *)
Theorem rescheduled_match_waits_for_dependencies fuel matches courts config r :
  NoDup (map m_id matches) ->
  rescheduleMatches lc fuel matches courts config = Returned r ->
  forall m s,
    In m matches -> In s (schedule r) -> s_matchId s = m_id m ->
    (forall d, In d (depsOf m) -> In d (map c_matchId (completedMatches config)))
    \/ (forall d, In d (depsOf m) ->
          ~ In d (map c_matchId (completedMatches config))
          /\ exists sd, In sd (schedule r) /\ s_matchId sd = d
                        /\ s_startTime s >= s_endTime sd).
Proof.
  intros Hids H m s Hm Hs Hid.
  destruct (rescheduled_dependencies _ _ _ _ _ Hids H m s Hm Hs Hid) as [Hall|Hnone];
    [now left|right].
  intros d Hd. destruct (Hnone d Hd) as (Hn & sd & H1 & H2 & H3).
  split; [exact Hn|]. exists sd. repeat split; auto. lia.
Qed.




End RescheduleDependencies.

(** ** Circular dependencies *)


Section Cycles.
Variable lc : string -> string -> Z.
Variable env : LoopEnv.
Variable matches : list Match.

End Cycles.


Section CycleTheorem.
Variable lc : string -> string -> Z.



End CycleTheorem.

(** ** Capacity *)

Section Capacity.
Variable lc : string -> string -> Z.

Lemma playing_on_distinct_courts (x : Z) (l : list ScheduledMatch) :
  StronglySorted sameCourtApart l -> NoDup (map s_courtId (filter (inProgress x) l)).
Proof.
  induction 1 as [|a l Hs IH Hall]; simpl; [constructor|].
  destruct (inProgress x a) eqn:Ea; [|exact IH].
  simpl. constructor; [|exact IH].
  intros Hin. apply in_map_iff in Hin. destruct Hin as (b & Hcourt & Hb).
  apply filter_In in Hb. destruct Hb as [Hb Eb].
  rewrite Forall_forall in Hall. specialize (Hall b Hb (eq_sym Hcourt)).
  unfold inProgress in Ea, Eb.
  apply andb_true_iff in Ea. apply andb_true_iff in Eb.
  destruct Ea as [A1 A2], Eb as [B1 B2].
  apply Z.leb_le in A1, B1. apply Z.ltb_lt in A2, B2. lia.
Qed.

(** X14.  When the courts given to the call have pairwise distinct identities,
    at no instant does a schedule returned by either entry point have
    more matches in progress than there are courts. *)
Theorem never_more_matches_than_courts fuel now matches courts config rconfig r :
  NoDup (map court_id courts) ->
  scheduleMatches lc fuel now matches courts config = Returned r
  \/ rescheduleMatches lc fuel matches courts rconfig = Returned r ->
  forall x, (length (filter (inProgress x) (schedule r)) <= length courts)%nat.
Proof.
  intros Hnd H x.
  assert (Hapart : StronglySorted sameCourtApart (schedule r)).
  { destruct H as [H|H].
    - destruct (schedule_CourtInv lc _ _ _ _ _ _ Hnd H) as (st & Hr & Hinv).
      rewrite <- Hr. apply Hinv.
    - destruct (reschedule_CourtInv lc _ _ _ _ _ Hnd H) as (st & Hr & Hinv).
      rewrite <- Hr. apply Hinv. }
  destruct (returned_entries lc _ _ _ _ _ _ _ H) as [origin Hp].
  rewrite <- (length_map s_courtId), <- (length_map court_id courts).
  apply NoDup_incl_length; [now apply playing_on_distinct_courts|].
  intros c Hc. apply in_map_iff in Hc. destruct Hc as (s & <- & Hs).
  apply filter_In in Hs. destruct Hs as [Hs _].
  rewrite Forall_forall in Hp. destruct (Hp s Hs) as (m & _ & _ & _ & _ & Hin). exact Hin.
Qed.
End Capacity.

(** ** The further properties on the sample inputs *)

Lemma twoCourts_distinct : NoDup (map court_id twoCourts).
Proof.
  repeat constructor; simpl; intros H;
    repeat (destruct H as [H|H]; [discriminate|]); exact H.
Qed.




Lemma bracket_either :
  scheduleMatches lexCompare 20 0 bracket twoCourts (startAtZero 15) = Returned bracketResult
  \/ rescheduleMatches lexCompare 20 bracket twoCourts liveConfig = Returned bracketResult.
Proof. left. exact bracket_returns. Qed.

Lemma live_either :
  scheduleMatches lexCompare 20 0 bracket oneCourt (startAtZero 10) = Returned liveResult
  \/ rescheduleMatches lexCompare 20 bracket oneCourt liveConfig = Returned liveResult.
Proof. right. exact live_returns. Qed.

Lemma sample_queue_sorted :
  StronglySorted (fun a b => compareTasks lexCompare a b <= 0)
    [sampleTask "M1" 1; sampleTask "M0" 2].
Proof. repeat constructor. vm_compute. discriminate. Qed.

Lemma enqueue_first_in_first_out_witness :
  (forall a b, 0 < lexCompare a b -> lexCompare b a <= 0)
  /\ (forall a b c, lexCompare a b <= 0 -> lexCompare b c <= 0 -> lexCompare a c <= 0)
  /\ StronglySorted (fun a b => compareTasks lexCompare a b <= 0)
       [sampleTask "M1" 1; sampleTask "M0" 2]
  /\ exists ahead behind,
       [sampleTask "M1" 1; sampleTask "M0" 2] = ahead ++ behind
       /\ MatchQueue_enqueue lexCompare (sampleTask "M1" 1)
            [sampleTask "M1" 1; sampleTask "M0" 2]
          = ahead ++ sampleTask "M1" 1 :: behind
       /\ Forall (fun t => compareTasks lexCompare t (sampleTask "M1" 1) <= 0) ahead
       /\ Forall (fun t => 0 < compareTasks lexCompare t (sampleTask "M1" 1)) behind.
Proof.
  split; [exact lexCompare_total|]. split; [exact lexCompare_trans|].
  split; [exact sample_queue_sorted|].
  exact (enqueue_first_in_first_out lexCompare (sampleTask "M1" 1)
           [sampleTask "M1" 1; sampleTask "M0" 2]
           lexCompare_total lexCompare_trans sample_queue_sorted).
Defined.

Lemma entry_copies_its_match_witness :
  (scheduleMatches lexCompare 20 0 bracket twoCourts (startAtZero 15) = Returned bracketResult
   \/ rescheduleMatches lexCompare 20 bracket twoCourts liveConfig = Returned bracketResult)
  /\ forall s, In s (schedule bracketResult) ->
       exists m,
         In m bracket /\ m_id m = s_matchId s
         /\ matchOf bracket (s_matchId s) = Some m
         /\ s_round s = round m
         /\ s_endTime s = s_startTime s + duration m * MS_PER_MINUTE.
Proof.
  split; [exact bracket_either|].
  exact (entry_copies_its_match lexCompare 20 0 bracket twoCourts (startAtZero 15) liveConfig
           bracketResult bracket_either).
Defined.

Lemma entry_on_a_given_court_witness :
  (scheduleMatches lexCompare 20 0 bracket oneCourt (startAtZero 10) = Returned liveResult
   \/ rescheduleMatches lexCompare 20 bracket oneCourt liveConfig = Returned liveResult)
  /\ forall s, In s (schedule liveResult) ->
       exists court, In court oneCourt /\ court_id court = s_courtId s.
Proof.
  split; [exact live_either|].
  exact (entry_on_a_given_court lexCompare 20 0 bracket oneCourt (startAtZero 10) liveConfig
           liveResult live_either).
Defined.

Lemma no_entry_before_the_start_witness :
  scheduleMatches lexCompare 20 0 bracket twoCourts (startAtZero 15) = Returned bracketResult
  /\ forall s, In s (schedule bracketResult) -> startOf (startAtZero 15) 0 <= s_startTime s.
Proof.
  split; [exact bracket_returns|].
  exact (no_entry_before_the_start lexCompare 20 0 bracket twoCourts (startAtZero 15)
           bracketResult bracket_returns).
Defined.

Lemma summary_describes_the_schedule_witness :
  scheduleMatches lexCompare 20 0 bracket twoCourts (startAtZero 15) = Returned bracketResult
  /\ totalMatches (summary bracketResult) = 3%nat
  /\ endTime (summary bracketResult) = 4500000
  /\ courtsUsed (summary bracketResult) = 2%nat
  /\ (forall s, In s (schedule bracketResult) -> s_endTime s <= endTime (summary bracketResult)).
Proof.
  split; [exact bracket_returns|].
  split; [reflexivity|]. split; [reflexivity|]. split; [reflexivity|].
  exact (proj1 (proj2 (proj2 (proj2
           (summary_describes_the_schedule lexCompare 20 0 bracket twoCourts (startAtZero 15)
              bracketResult bracket_returns))))).
Defined.

Lemma summary_describes_the_reschedule_witness :
  rescheduleMatches lexCompare 20 bracket oneCourt liveConfig = Returned liveResult
  /\ totalMatches (summary liveResult) = 1%nat
  /\ (forall c, In c (completedMatches liveConfig) ->
        actualEndTime c <= endTime (summary liveResult)).
Proof.
  split; [exact live_returns|]. split; [reflexivity|].
  exact (proj1 (proj2 (proj2 (proj2 (proj2
           (summary_describes_the_reschedule lexCompare 20 bracket oneCourt liveConfig
              liveResult live_returns)))))).
Defined.

Lemma first_match_opens_the_tournament_witness :
  scheduleMatches lexCompare 20 0 bracket twoCourts (startAtZero 15) = Returned bracketResult
  /\ exists first rest task court,
       schedule bracketResult = first :: rest
       /\ s_startTime first = startOf (startAtZero 15) 0
       /\ hd_error twoCourts = Some court /\ s_courtId first = court_id court
       /\ MatchQueue_peek (initialQueue lexCompare (fst (buildGraph bracket))) = Some task
       /\ remainingDependencies task = []
       /\ s_matchId first = m_id (task_match task).
Proof.
  split; [exact bracket_returns|].
  exact (first_match_opens_the_tournament lexCompare 20 0 bracket twoCourts (startAtZero 15)
           bracketResult bracket_returns).
Defined.

Lemma court_never_double_booked_witness :
  NoDup (map court_id twoCourts)
  /\ (scheduleMatches lexCompare 20 0 bracket twoCourts (startAtZero 15)
      = Returned bracketResult
      \/ rescheduleMatches lexCompare 20 bracket twoCourts liveConfig = Returned bracketResult)
  /\ forall i j a b,
       i <> j ->
       nth_error (schedule bracketResult) i = Some a ->
       nth_error (schedule bracketResult) j = Some b ->
       s_courtId a = s_courtId b ->
       ~ intervalsOverlap a b.
Proof.
  split; [exact twoCourts_distinct|]. split; [exact bracket_either|].
  exact (court_never_double_booked lexCompare 20 0 bracket twoCourts (startAtZero 15) liveConfig
           bracketResult twoCourts_distinct bracket_either).
Defined.






Lemma reschedule_one_entry_per_pending_match_witness :
  NoDup (map m_id bracket)
  /\ rescheduleMatches lexCompare 20 bracket oneCourt liveConfig = Returned liveResult
  /\ Permutation (map s_matchId (schedule liveResult)) (map m_id (pendingOf liveConfig bracket)).
Proof.
  split; [exact bracket_ids_distinct|]. split; [exact live_returns|].
  exact (reschedule_one_entry_per_pending_match lexCompare 20 bracket oneCourt liveConfig
           liveResult bracket_ids_distinct live_returns).
Defined.

Lemma rescheduled_match_waits_for_dependencies_witness :
  NoDup (map m_id bracket)
  /\ rescheduleMatches lexCompare 20 bracket oneCourt liveConfig = Returned liveResult
  /\ forall m s,
       In m bracket -> In s (schedule liveResult) -> s_matchId s = m_id m ->
       (forall d, In d (depsOf m) -> In d (map c_matchId (completedMatches liveConfig)))
       \/ (forall d, In d (depsOf m) ->
             ~ In d (map c_matchId (completedMatches liveConfig))
             /\ exists sd, In sd (schedule liveResult) /\ s_matchId sd = d
                           /\ s_startTime s >= s_endTime sd).
Proof.
  split; [exact bracket_ids_distinct|]. split; [exact live_returns|].
  exact (rescheduled_match_waits_for_dependencies lexCompare 20 bracket oneCourt liveConfig
           liveResult bracket_ids_distinct live_returns).
Defined.




Lemma overlap_test_is_intersection_witness :
  s_startTime sampleEntry < s_endTime sampleEntry
  /\ o_start sampleOccupancy < o_end sampleOccupancy
  /\ (overlaps sampleEntry sampleOccupancy = true
      <-> occupancyOverlap sampleEntry sampleOccupancy).
Proof.
  assert (H1 : s_startTime sampleEntry < s_endTime sampleEntry) by (simpl; lia).
  assert (H2 : o_start sampleOccupancy < o_end sampleOccupancy) by (simpl; lia).
  split; [exact H1|]. split; [exact H2|].
  exact (overlap_test_is_intersection sampleEntry sampleOccupancy H1 H2).
Defined.

Lemma validate_reports_only_findings_witness :
  In (TeamOverlap (IdStr "A") (IdStr "M2") (IdStr "M1"))%string
    (errors (validateSchedule clashingSchedule backToBack (startAtZero 15)))
  /\ justified clashingSchedule backToBack (startAtZero 15)
       (TeamOverlap (IdStr "A") (IdStr "M2") (IdStr "M1"))%string.
Proof.
  assert (H : In (TeamOverlap (IdStr "A") (IdStr "M2") (IdStr "M1"))%string
                (errors (validateSchedule clashingSchedule backToBack (startAtZero 15)))).
  { vm_compute. now left. }
  split; [exact H|].
  exact (validate_reports_only_findings backToBack clashingSchedule (startAtZero 15) _ H).
Defined.




Lemma never_more_matches_than_courts_witness :
  NoDup (map court_id twoCourts)
  /\ (scheduleMatches lexCompare 20 0 bracket twoCourts (startAtZero 15)
      = Returned bracketResult
      \/ rescheduleMatches lexCompare 20 bracket twoCourts liveConfig = Returned bracketResult)
  /\ forall x, (length (filter (inProgress x) (schedule bracketResult)) <= length twoCourts)%nat.
Proof.
  split; [exact twoCourts_distinct|]. split; [exact bracket_either|].
  exact (never_more_matches_than_courts lexCompare 20 0 bracket twoCourts (startAtZero 15)
           liveConfig bracketResult twoCourts_distinct bracket_either).
Defined.
